(** * The Bravyi-Kitaev Super-Fast mapper of qiskit-nature, in Rocq

    A shallow embedding of
    [qiskit_nature/mappers/second_quantization/bksf.py]: the term
    classifier, the graph builder, the two edge operators [A(i,j)] and
    [B(i)], the five conversion formulas and the term loop, and of the two
    index-order converters of [_electronic_integrals_utils.py], followed by
    the properties of the specification that are settled on them and by
    further properties of the code. *)

From Stdlib Require Import ZArith QArith Qcanon Ascii String Sorted.
From stdpp Require Import base decidable option list gmap strings sorting.

Close Scope Qc_scope.
Close Scope Q_scope.
Open Scope nat_scope.

(** * Python exceptions and fallible results *)

(** An argument of an exception that is raised with several arguments:
    a string or an integer. *)
Inductive exn_arg : Type :=
  | ArgStr (s : string)
  | ArgInt (n : Z).

(** [ValueError msg] is [ValueError(msg)], raised with a message alone;
    [ValueErrorArgs [a1; ...; an]] is [ValueError(a1, ..., an)]. *)
Inductive exn : Type :=
  | ValueError (msg : string)
  | ValueErrorArgs (args : list exn_arg)
  | IndexError
  | TypeError.

Inductive result (A : Type) : Type :=
  | Ok (a : A)
  | Raise (e : exn).
Arguments Ok {A} a.
Arguments Raise {A} e.

Definition bind {A B : Type} (m : result A) (k : A -> result B) : result B :=
  match m with
  | Ok a => k a
  | Raise e => Raise e
  end.

Notation "'let!' x ':=' m 'in' k" := (bind m (fun x => k))
  (at level 10, x pattern, m at level 100, k at level 200).

Definition returns {A : Type} (m : result A) : bool :=
  match m with Ok _ => true | Raise _ => false end.

Definition raises {A : Type} (m : result A) : bool := negb (returns m).

(** A [for] loop over a list whose body may raise. *)
Fixpoint for_each {S X : Type} (body : S -> X -> result S) (s : S) (xs : list X)
  : result S :=
  match xs with
  | [] => Ok s
  | x :: xs' => let! s' := body s x in for_each body s' xs'
  end.

(** * Complex coefficients

    Python's [complex] numbers, in exact arithmetic: rational real and
    imaginary parts in canonical form, so that equal numbers are equal
    terms. Rounding of floating-point products is not modelled. *)

Record complex : Type := Cplx { re : Qc; im : Qc }.

Definition c_of_Q (q : Q) : complex := Cplx (Q2Qc q) (Q2Qc 0).
Definition c_of_Z (n : Z) : complex := c_of_Q (inject_Z n).
Definition c_zero : complex := c_of_Z 0.
Definition c_one : complex := c_of_Z 1.
(** The literal [1j]. *)
Definition c_j : complex := Cplx (Q2Qc 0) (Q2Qc 1).

Definition c_add (a b : complex) : complex :=
  Cplx (re a + re b)%Qc (im a + im b)%Qc.
Definition c_neg (a : complex) : complex := Cplx (- re a)%Qc (- im a)%Qc.
Definition c_mul (a b : complex) : complex :=
  Cplx (re a * re b - im a * im b)%Qc (re a * im b + im a * re b)%Qc.
(** [h / n] for a non-zero integer literal [n]. *)
Definition c_div_Z (a : complex) (n : Z) : complex :=
  Cplx (re a / Q2Qc (inject_Z n))%Qc (im a / Q2Qc (inject_Z n))%Qc.

(** [1j ** k] times [c], for [k] taken modulo four. *)
Definition c_mul_ipow (k : nat) (c : complex) : complex :=
  match k mod 4 with
  | 0 => c
  | 1 => Cplx (- im c)%Qc (re c)
  | 2 => c_neg c
  | _ => Cplx (im c) (- re c)%Qc
  end.

(** * The sparse Pauli algebra

    Modelled from the spec: the weighted-Pauli-string algebra
    ([qiskit.quantum_info]'s [Pauli] and [SparsePauliOp]) is an external
    collaborator whose source is not in the repository. A Pauli string is
    a pair of boolean vectors [(z, x)], one bit of each per qubit
    ([00 = I], [10 = Z], [01 = X], [11 = Y]); a [SparsePauliOp] is a
    weighted sum, held as the list of its Pauli strings with their complex
    coefficients. *)

Record Pauli : Type := MkPauli { pauli_z : list bool; pauli_x : list bool }.

Abbreviation SparsePauliOp := (list (Pauli * complex)).

Module PauliAlgebra.

(** Modelled from the spec: [SparsePauliOp(Pauli((z, x)))], the weighted
    Pauli term built from a pair of boolean vectors, of coefficient one. *)
Definition of_pauli (p : Pauli) : SparsePauliOp := [(p, c_one)].

(** Exponent of [1j] in the product of two single-qubit Paulis:
    [X.Y = iZ], [Y.Z = iX], [Z.X = iY] and the reversed products give
    [-i]. *)
Definition phase_exponent (z1 x1 z2 x2 : bool) : nat :=
  match z1, x1, z2, x2 with
  | false, true, true, true => 1   (* X.Y *)
  | true, true, true, false => 1   (* Y.Z *)
  | true, false, false, true => 1  (* Z.X *)
  | true, true, false, true => 3   (* Y.X *)
  | true, false, true, true => 3   (* Z.Y *)
  | false, true, true, false => 3  (* X.Z *)
  | _, _, _, _ => 0
  end.

Fixpoint phase_sum (z1 x1 z2 x2 : list bool) : nat :=
  match z1, x1, z2, x2 with
  | a :: z1', b :: x1', c :: z2', d :: x2' =>
      phase_exponent a b c d + phase_sum z1' x1' z2' x2'
  | _, _, _, _ => 0
  end.

(** The product of two Pauli strings: the bitwise sum of the vectors and
    the exponent of [1j] that the product carries. *)
Definition pauli_dot (p q : Pauli) : Pauli * nat :=
  (MkPauli (zip_with xorb (pauli_z p) (pauli_z q))
           (zip_with xorb (pauli_x p) (pauli_x q)),
   phase_sum (pauli_z p) (pauli_x p) (pauli_z q) (pauli_x q)).

Definition term_dot (s t : Pauli * complex) : Pauli * complex :=
  let '(r, k) := pauli_dot (fst s) (fst t) in
  (r, c_mul_ipow k (c_mul (snd s) (snd t))).

(** Modelled from the spec: operator multiplication with phase
    composition, [a * b] (that is [a.dot(b)]): every term of [a] with
    every term of [b], the terms of [a] in the outer loop. *)
Definition dot (a b : SparsePauliOp) : SparsePauliOp :=
  flat_map (fun s => map (term_dot s) b) a.

(** Modelled from the spec: [a & b] (that is [a.compose(b)]), the operator
    product [b * a], listed with the terms of [a] in the outer loop. *)
Definition compose (a b : SparsePauliOp) : SparsePauliOp :=
  flat_map (fun s => map (fun t => term_dot t s) b) a.

(** Modelled from the spec: addition [a + b], the terms of [a] followed by
    those of [b]; like terms are merged by simplification only. *)
Definition add (a b : SparsePauliOp) : SparsePauliOp := a ++ b.

(** Modelled from the spec: multiplication [c * a] by a complex scalar,
    which multiplies every coefficient. The library treats the scalar zero
    apart (it returns one identity string with coefficient zero); that case
    is not reproduced here, and the theorems that list the strings of a
    converted term are stated for non-zero coefficients. *)
Definition scale (c : complex) (a : SparsePauliOp) : SparsePauliOp :=
  map (fun t => (fst t, c_mul c (snd t))) a.

(** [-a], multiplication by [-1]. *)
Definition neg (a : SparsePauliOp) : SparsePauliOp :=
  scale (c_of_Z (-1)) a.

(** [a - b], the sum of [a] and [-b]. *)
Definition sub (a b : SparsePauliOp) : SparsePauliOp := add a (neg b).

End PauliAlgebra.

Import PauliAlgebra.

Declare Scope pauli_scope.
Delimit Scope pauli_scope with P.
Infix "*" := dot : pauli_scope.
Infix "&" := compose (at level 40, left associativity) : pauli_scope.
Infix "+" := add : pauli_scope.
Infix "-" := sub : pauli_scope.
Notation "- a" := (neg a) : pauli_scope.
Infix ".*" := scale (at level 38, right associativity) : pauli_scope.

(** * Edge lists

    The [2 x E] integer array [edge_list] is held as the list of its [E]
    columns: column [k] is the pair [(edge_list[0][k], edge_list[1][k])]. *)

Abbreviation edge_list := (list (nat * nat)).

(** [edge_list.shape[1]]. *)
Definition shape1 (el : edge_list) : nat := length el.

(** [edge_list[row][col]] for non-negative indices. *)
Definition edge_list_get (el : edge_list) (row col : nat) : result nat :=
  match el !! col with
  | Some (a, b) =>
      match row with
      | 0 => Ok a
      | 1 => Ok b
      | _ => Raise IndexError
      end
  | None => Raise IndexError
  end.

(** [v[idx] = a] on a one-dimensional array: a negative index counts from
    the end, an index outside [[-len, len)] raises [IndexError]. *)
Definition np_setitem {A : Type} (v : list A) (idx : Z) (a : A)
  : result (list A) :=
  let n := Z.of_nat (length v) in
  if ((0 <=? idx) && (idx <? n))%Z then Ok (<[Z.to_nat idx := a]> v)
  else if ((- n <=? idx) && (idx <? 0))%Z then
    Ok (<[Z.to_nat (n + idx) := a]> v)
  else Raise IndexError.

(** The indices [k, k+1, ...] of the elements of [l] that satisfy [P]. *)
Fixpoint positions_from {A : Type} (P : A -> bool) (k : nat) (l : list A)
  : list nat :=
  match l with
  | [] => []
  | a :: l' =>
      if P a then k :: positions_from P (S k) l'
      else positions_from P (S k) l'
  end.

Definition positions {A : Type} (P : A -> bool) (l : list A) : list nat :=
  positions_from P 0 l.

(** [np.asarray(np.where(edge_list == i))]: the [(row, column)] index pairs
    of the entries equal to [i], in row-major order. *)
Definition np_where_eq (el : edge_list) (i : nat) : list (nat * nat) :=
  map (pair 0) (positions (fun e => fst e =? i) el)
  ++ map (pair 1) (positions (fun e => snd e =? i) el).

(** [set((i, j)) == set(edge_list[:, edge_index])]. *)
Definition same_endpoints (i j : nat) (e : nat * nat) : bool :=
  bool_decide (({[ i; j ]} : gset nat) = {[ fst e; snd e ]}).

(** The search loop of [edge_operator_aij]: the first column whose end
    points are [{i, j}], or the initial [-1]. *)
Fixpoint find_edge_from (k : nat) (el : edge_list) (i j : nat) : Z :=
  match el with
  | [] => (-1)%Z
  | e :: el' =>
      if same_endpoints i j e then Z.of_nat k
      else find_edge_from (S k) el' i j
  end.

Definition find_edge (el : edge_list) (i j : nat) : Z :=
  find_edge_from 0 el i j.

(** One of the two marking loops of [edge_operator_aij]: for every entry
    [(i_i, j_j)] of [qubit_position], set [v[j_j]] when the other end point
    of column [j_j] is below [bound]. *)
Definition mark_body (el : edge_list) (bound : nat) (v : list bool)
    (pos : nat * nat) : result (list bool) :=
  let '(i_i, j_j) := pos in
  let i_i := if i_i =? 0 then 1 else 0 in
  let! other := edge_list_get el i_i j_j in
  if other <? bound then np_setitem v (Z.of_nat j_j) true else Ok v.

Definition mark_loop (el : edge_list) (bound : nat) (v : list bool)
    (qubit_position : list (nat * nat)) : result (list bool) :=
  for_each (mark_body el bound) v qubit_position.

Definition edge_operator_aij (el : edge_list) (i j : nat)
  : result SparsePauliOp :=
  let v := replicate (shape1 el) false in
  let w := replicate (shape1 el) false in
  let qubit_position_i := np_where_eq el i in
  let position_ij := find_edge el i j in
  let! w := np_setitem w position_ij true in
  let! v := mark_loop el j v qubit_position_i in
  let qubit_position_j := np_where_eq el j in
  let! v := mark_loop el i v qubit_position_j in
  Ok (of_pauli (MkPauli v w)).

(** [v[qubit_position] = 1] with an index array. *)
Definition np_setitems {A : Type} (v : list A) (idxs : list nat) (a : A)
  : result (list A) :=
  for_each (fun v k => np_setitem v (Z.of_nat k) a) v idxs.

Definition edge_operator_bi (el : edge_list) (i : nat) : result SparsePauliOp :=
  let qubit_position_matrix := np_where_eq el i in
  let qubit_position := map snd qubit_position_matrix in
  let v := replicate (shape1 el) false in
  let w := v in
  let! v := np_setitems v qubit_position true in
  Ok (of_pauli (MkPauli v w)).

(** The complete graph on four modes, edges in row-major order. *)
Definition complete4 : edge_list :=
  [(0, 1); (0, 2); (0, 3); (1, 2); (1, 3); (2, 3)].

(** [SparsePauliOp(label)] for a label of the test suite, read from its
    last character (qubit 0) to its first: a single term of coefficient
    one. *)
Definition z_bit (c : ascii) : bool := (c =? "Z")%char || (c =? "Y")%char.
Definition x_bit (c : ascii) : bool := (c =? "X")%char || (c =? "Y")%char.

Definition from_label (label : string) : SparsePauliOp :=
  let qubits := rev (list_ascii_of_string label) in
  of_pauli (MkPauli (map z_bit qubits) (map x_bit qubits)).

(** [_pauli_id(n_qubits)]. *)
Definition _pauli_id (n_qubits : nat) : SparsePauliOp :=
  of_pauli (MkPauli (replicate n_qubits false) (replicate n_qubits false)).

(** * Term classifier *)

(** A factor [(i, c)]: a mode index and one of the characters [+], [-],
    [N]. *)
Abbreviation factor := (nat * ascii)%type.

Abbreviation counts := (nat * nat * nat)%type.

(** [enumerate(term_str)], counting from [k]. *)
Fixpoint enumerate_from {A : Type} (k : nat) (l : list A) : list (nat * A) :=
  match l with
  | [] => []
  | a :: l' => (k, a) :: enumerate_from (S k) l'
  end.

Definition unpack_body (expand_number_op : bool) (st : counts * list factor)
    (ic : nat * ascii) : result (counts * list factor) :=
  let '((n_number, n_raise, n_lower), facs) := st in
  let '(i, c) := ic in
  if (c =? "I")%char then Ok st
  else if (c =? "+")%char then
    Ok ((n_number, S n_raise, n_lower), facs ++ [(i, "+"%char)])
  else if (c =? "-")%char then
    Ok ((n_number, n_raise, S n_lower), facs ++ [(i, "-"%char)])
  else if (c =? "N")%char then
    Ok ((S n_number, n_raise, n_lower),
        if expand_number_op then facs ++ [(i, "+"%char)] ++ [(i, "-"%char)]
        else facs ++ [(i, "N"%char)])
  else Raise (ValueErrorArgs [ArgStr "Unexpected operator ";
                              ArgStr (String c EmptyString);
                              ArgStr " in term."]).

Definition _unpack_term (term_str : string) (expand_number_op : bool)
  : result (counts * list factor) :=
  for_each (unpack_body expand_number_op) ((0, 0, 0), [])
    (enumerate_from 0 (list_ascii_of_string term_str)).

Inductive interaction : Type :=
  | number
  | coulomb_exchange
  | excitation
  | number_excitation
  | double_excitation.

Definition _interaction_type (n_number n_raise n_lower : nat)
  : result interaction :=
  if (n_raise =? 0) && (n_lower =? 0) then
    if n_number =? 1 then Ok number
    else if n_number =? 2 then Ok coulomb_exchange
    else Raise (ValueError "unexpected number of number operators")
  else if (n_raise =? 1) && (n_lower =? 1) then
    if n_number =? 1 then Ok number_excitation
    else if n_number =? 0 then Ok excitation
    else Raise (ValueError "unexpected number of number operators")
  else if (n_raise =? 2) && (n_lower =? 2) then Ok double_excitation
  else Raise (ValueError "unexpected number of operators").

Definition _analyze_term (term_str : string)
  : result (interaction * list factor) :=
  let! ((n_number, n_raise, n_lower), facs) := _unpack_term term_str true in
  let! ttype := _interaction_type n_number n_raise n_lower in
  Ok (ttype, facs).

(** * Fermionic operators

    Modelled from the spec: [FermionicOp] lives in another package of the
    repository, [qiskit_nature.operators], whose source is not given. The
    mapper reads an operator through [fer_op.to_list()] only: the ordered,
    finite sequence of its terms, each an operator string with its complex
    coefficient. *)
Abbreviation FermionicOp := (list (string * complex)).

Definition operator_string (term : string * complex) : string := fst term.
Definition operator_coefficient (term : string * complex) : complex := snd term.

Definition number_of_modes (fer_op : FermionicOp) : result nat :=
  match fer_op with
  | [] => Raise IndexError
  | term :: _ => Ok (String.length (fst term))
  end.

(** * Graph builder *)

(** The square boolean adjacency matrix, a list of rows. *)
Abbreviation edge_matrix := (list (list bool)).

(** [np.zeros((n, n), dtype=bool)]. *)
Definition np_zeros2 (n : nat) : edge_matrix := replicate n (replicate n false).

(** [edge_matrix[i, j] = True]. *)
Definition matrix_set (m : edge_matrix) (i j : nat) : result edge_matrix :=
  match m !! i with
  | Some row =>
      if j <? length row then Ok (<[i := <[j := true]> row]> m)
      else Raise IndexError
  | None => Raise IndexError
  end.

Definition _add_one_edge (m : edge_matrix) (i j : nat) : result edge_matrix :=
  if i <? j then matrix_set m i j
  else if j <? i then matrix_set m j i
  else Raise (ValueError "expecting i != j").

(** [_add_one_edge(edge_matrix, *inds)]. *)
Definition add_one_edge_star (m : edge_matrix) (inds : list nat)
  : result edge_matrix :=
  match inds with
  | [i; j] => _add_one_edge m i j
  | _ => Raise TypeError
  end.

(** [c in "+-"] for a one-character [c]. *)
Definition in_plus_minus (c : ascii) : bool :=
  (c =? "+")%char || (c =? "-")%char.

(** [[i for (i, c) in facs if sel(c)]]. *)
Definition inds_where (sel : ascii -> bool) (facs : list factor) : list nat :=
  map fst (List.filter (fun f => sel (snd f)) facs).

Definition _add_edges_for_term (m : edge_matrix) (term_str : string)
  : result edge_matrix :=
  let! ((n_number, n_raise, n_lower), facs) := _unpack_term term_str false in
  let! ttype := _interaction_type n_number n_raise n_lower in
  match ttype with
  | excitation | number_excitation =>
      let inds := inds_where in_plus_minus facs in
      if negb (length inds =? 2) then
        Raise (ValueError "wrong number or raising and lowering")
      else add_one_edge_star m inds
  | double_excitation =>
      let raise_inds := inds_where (fun c => (c =? "+")%char) facs in
      let lower_inds := inds_where (fun c => (c =? "-")%char) facs in
      let! m := add_one_edge_star m raise_inds in
      add_one_edge_star m lower_inds
  | _ => Ok m
  end.

Definition _get_adjacency_matrix (fer_op : FermionicOp) : result edge_matrix :=
  let! n_modes := number_of_modes fer_op in
  let edge_matrix := np_zeros2 n_modes in
  for_each (fun m term => _add_edges_for_term m (operator_string term))
    edge_matrix fer_op.

(** [np.asarray(np.nonzero(edge_matrix))]: the [(row, column)] pairs of the
    true entries, row by row, as the columns of the edge list. *)
Fixpoint nonzero_from (r : nat) (m : edge_matrix) : edge_list :=
  match m with
  | [] => []
  | row :: m' =>
      map (pair r) (positions (fun b : bool => b) row) ++ nonzero_from (S r) m'
  end.

Definition np_nonzero (m : edge_matrix) : edge_list := nonzero_from 0 m.

Definition bksf_edge_list_fermionic_op (fer_op_qn : FermionicOp)
  : result edge_list :=
  let! edge_matrix := _get_adjacency_matrix fer_op_qn in
  Ok (np_nonzero edge_matrix).

(** * The five conversion formulas *)

Local Open Scope pauli_scope.

Definition half : complex := c_of_Q (1 # 2).
Definition quarter : complex := c_of_Q (1 # 4).
Definition eighth : complex := c_of_Q (1 # 8).

Definition _number_operator (el : edge_list) (p : nat) (h1_pq : complex)
  : result SparsePauliOp :=
  let! b_p := edge_operator_bi el p in
  let id_op := _pauli_id (shape1 el) in
  Ok (c_mul half h1_pq .* (id_op - b_p)).

Definition _coulomb_exchange (el : edge_list) (p q s : nat) (h2_pqrs : complex)
  : result SparsePauliOp :=
  let! b_p := edge_operator_bi el p in
  let! b_q := edge_operator_bi el q in
  let id_op := _pauli_id (shape1 el) in
  let qubit_op := (id_op - b_p) * (id_op - b_q) in
  let final_coeff := if p =? s then quarter else c_neg quarter in
  Ok (c_mul final_coeff h2_pqrs .* qubit_op).

Definition _excitation_operator (el : edge_list) (p q : nat) (h1_pq : complex)
  : result SparsePauliOp :=
  if q <=? p then
    Raise (ValueErrorArgs [ArgStr "Expected p < q, got p = ";
                           ArgInt (Z.of_nat p);
                           ArgStr ", q = ";
                           ArgInt (Z.of_nat q)])
  else
    let! b_a := edge_operator_bi el p in
    let! b_b := edge_operator_bi el q in
    let! a_ab := edge_operator_aij el p q in
    Ok (c_mul (c_mul (c_neg c_j) half) h1_pq .* ((b_b & a_ab) + (a_ab & b_a))).

Definition _double_excitation (el : edge_list) (p q r s : nat)
    (h2_pqrs : complex) : result SparsePauliOp :=
  let! b_p := edge_operator_bi el p in
  let! b_q := edge_operator_bi el q in
  let! b_r := edge_operator_bi el r in
  let! b_s := edge_operator_bi el s in
  let! a_pq := edge_operator_aij el p q in
  let! a_rs := edge_operator_aij el r s in
  let a_pq := if q <? p then - a_pq else a_pq in
  let a_rs := if s <? r then - a_rs else a_rs in
  let id_op := _pauli_id (shape1 el) in
  let qubit_op :=
    (a_pq * a_rs)
    * (- id_op
       - b_p * b_q
       + b_p * b_r
       + b_p * b_s
       + b_q * b_r
       + b_q * b_s
       - b_r * b_s
       - b_p * b_q * b_r * b_s) in
  let final_coeff := eighth in
  Ok (c_mul final_coeff h2_pqrs .* qubit_op).

Definition _number_excitation (el : edge_list) (p q r s : nat)
    (h2_pqrs : complex) : result SparsePauliOp :=
  let! b_p := edge_operator_bi el p in
  let! b_q := edge_operator_bi el q in
  let id_op := _pauli_id (shape1 el) in
  let! (qubit_op, final_coeff) :=
    if p =? r then
      let! b_s := edge_operator_bi el s in
      let! a_qs := edge_operator_aij el q s in
      let a_qs := if s <? q then - a_qs else a_qs in
      Ok ((a_qs * b_s + b_q * a_qs) * (id_op - b_p), c_mul c_j quarter)
    else if p =? s then
      let! b_r := edge_operator_bi el r in
      let! a_qr := edge_operator_aij el q r in
      let a_qr := if r <? q then - a_qr else a_qr in
      Ok ((a_qr * b_r + b_q * a_qr) * (id_op - b_p), c_mul c_j (c_neg quarter))
    else if q =? r then
      let! b_s := edge_operator_bi el s in
      let! a_ps := edge_operator_aij el p s in
      let a_ps := if s <? p then - a_ps else a_ps in
      Ok ((a_ps * b_s + b_p * a_ps) * (id_op - b_q), c_mul c_j (c_neg quarter))
    else if q =? s then
      let! b_r := edge_operator_bi el r in
      let! a_pr := edge_operator_aij el p r in
      let a_pr := if r <? p then - a_pr else a_pr in
      Ok ((a_pr * b_r + b_p * a_pr) * (id_op - b_q), c_mul c_j quarter)
    else Raise (ValueError "unexpected sequence of indices") in
  Ok (c_mul final_coeff h2_pqrs .* qubit_op).

Local Close Scope pauli_scope.

(** * The term loop *)

Definition _add_sparse_pauli (qubit_op1 qubit_op2 : option SparsePauliOp)
  : option SparsePauliOp :=
  match qubit_op1, qubit_op2 with
  | None, _ => qubit_op2
  | _, None => qubit_op1
  | Some a, Some b => Some (add a b)
  end.

(** [l[k]] for a non-negative [k]. *)
Definition getitem {A : Type} (l : list A) (k : nat) : result A :=
  match l !! k with
  | Some a => Ok a
  | None => Raise IndexError
  end.

Definition _to_physicist_index_order (facs : list factor)
  : result (list factor * Z) :=
  let ops := map snd facs in
  if decide (ops = ["+"; "+"; "-"; "-"]%char) then Ok (facs, 1%Z)
  else if decide (ops = ["+"; "-"; "+"; "-"]%char) then
    let! f0 := getitem facs 0 in
    let! f2 := getitem facs 2 in
    let! f1 := getitem facs 1 in
    let! f3 := getitem facs 3 in
    Ok ([f0; f2; f1; f3], (-1)%Z)
  else if decide (ops = ["+"; "-"; "-"; "+"]%char) then
    let! f0 := getitem facs 0 in
    let! f3 := getitem facs 3 in
    let! f1 := getitem facs 1 in
    let! f2 := getitem facs 2 in
    Ok ([f0; f3; f1; f2], 1%Z)
  else Raise (ValueError "unexpected sequence of operators").

(** The test at the head of the loop body: [true] when the term is passed
    over by one of the two [continue] statements. *)
Definition skip_test (facs : list factor) : result bool :=
  let! f0 := getitem facs 0 in
  if (snd f0 =? "-")%char then Ok true
  else
    let! f1 := getitem facs 1 in
    if fst f0 =? fst f1 then
      if 2 <? length facs then
        let! f2 := getitem facs 2 in
        Ok (snd f2 =? "-")%char
      else Ok false
    else Ok false.

(** The rest of the loop body: the formula a term that is not passed over
    is converted with. *)
Definition dispatch (el : edge_list) (term_type : interaction)
    (facs : list factor) (coeff : complex) : result SparsePauliOp :=
  match term_type with
  | number =>
      let! f0 := getitem facs 0 in
      _number_operator el (fst f0) coeff
  | excitation =>
      let! f0 := getitem facs 0 in
      let! f1 := getitem facs 1 in
      _excitation_operator el (fst f0) (fst f1) coeff
  | _ =>
      let! (facs_reordered, phase) := _to_physicist_index_order facs in
      let h2_pqrs := c_mul (c_of_Z phase) coeff in
      let! fp := getitem facs_reordered 0 in
      let! fq := getitem facs_reordered 1 in
      let! fr := getitem facs_reordered 2 in
      let! fs := getitem facs_reordered 3 in
      let '(p, q, r, s) := (fst fp, fst fq, fst fr, fst fs) in
      match term_type with
      | double_excitation => _double_excitation el p q r s h2_pqrs
      | coulomb_exchange => _coulomb_exchange el p q s h2_pqrs
      | number_excitation => _number_excitation el p q r s h2_pqrs
      | _ => Raise (ValueError "Unknown interaction")
      end
  end.

Definition convert_body (el : edge_list) (sparse_pauli : option SparsePauliOp)
    (term : string * complex) : result (option SparsePauliOp) :=
  let! (term_type, facs) := _analyze_term (operator_string term) in
  let! skip := skip_test facs in
  if skip then Ok sparse_pauli
  else
    let! qubit_op := dispatch el term_type facs (operator_coefficient term) in
    Ok (_add_sparse_pauli sparse_pauli (Some qubit_op)).

Definition _convert_operators (fer_op_qn : FermionicOp) (el : edge_list)
  : result (option SparsePauliOp) :=
  for_each (convert_body el) None fer_op_qn.

(** * The edge operators as the specification words them *)

(** Column [e] is incident to mode [i] and its other end point is below
    [bound]. *)
Definition incident_below (e : nat * nat) (i bound : nat) : bool :=
  (fst e =? i) && (snd e <? bound) || (snd e =? i) && (fst e <? bound).

(** Column [e] is incident to mode [i]. *)
Definition incident (e : nat * nat) (i : nat) : bool :=
  (fst e =? i) || (snd e =? i).

(** Column [e] is the edge between [i] and [j], in either orientation. *)
Definition joins (i j : nat) (e : nat * nat) : Prop :=
  e = (i, j) \/ e = (j, i).

Global Instance joins_dec i j e : Decision (joins i j e).
Proof. unfold joins. apply _. Defined.

(** The qubit position of the edge between [i] and [j]: the first column
    that joins them. *)
Definition edge_position (el : edge_list) (i j : nat) : option nat :=
  fst <$> list_find (joins i j) el.

(** [A(i, j)] for an edge at position [pos]: X at [pos], Z at every other
    column incident to [i] with other end point below [j] or incident to
    [j] with other end point below [i], identity elsewhere. *)
Definition A_spec (el : edge_list) (i j pos : nat) : Pauli :=
  MkPauli
    (imap (fun k e => negb (k =? pos)
                      && (incident_below e i j || incident_below e j i)) el)
    (imap (fun k _ => k =? pos) el).

(** [B(i)]: Z at every column incident to [i], identity elsewhere. *)
Definition B_spec (el : edge_list) (i : nat) : Pauli :=
  MkPauli (map (fun e => incident e i) el) (replicate (length el) false).

(** [(i, j)] is an edge of the graph, in either orientation. *)
Definition is_edge (el : edge_list) (i j : nat) : bool :=
  existsb (fun e => bool_decide (joins i j e)) el.

(** Squared magnitude of a coefficient. *)
Definition c_abs2 (c : complex) : Qc := (re c * re c + im c * im c)%Qc.

(** [A(i, j)] as its callers use it: negated when the second mode is the
    smaller one. *)
Definition signed (a : SparsePauliOp) (i j : nat) : SparsePauliOp :=
  if j <? i then neg a else a.

(** ** The two-body formulas as the specification words them *)

(** [B(i)] as an operator. *)
Definition B (el : edge_list) (i : nat) : SparsePauliOp := of_pauli (B_spec el i).

(** The sum of a list of operators. *)
Definition sum_ops (l : list SparsePauliOp) : SparsePauliOp := foldr add [] l.

(** [(h/8) A'(p,q) A'(r,s) (-I - B(p)B(q) + B(p)B(r) + B(p)B(s) + B(q)B(r)
    + B(q)B(s) - B(r)B(s) - B(p)B(q)B(r)B(s))], for given values [a_pq] and
    [a_rs] of [A(p,q)] and [A(r,s)]. *)
Definition double_excitation_formula (el : edge_list) (p q r s : nat)
    (h : complex) (a_pq a_rs : SparsePauliOp) : SparsePauliOp :=
  scale (c_div_Z h 8)
    (dot (dot (signed a_pq p q) (signed a_rs r s))
       (sum_ops
          [ neg (_pauli_id (length el));
            neg (dot (B el p) (B el q));
            dot (B el p) (B el r);
            dot (B el p) (B el s);
            dot (B el q) (B el r);
            dot (B el q) (B el s);
            neg (dot (B el r) (B el s));
            neg (dot (dot (dot (B el p) (B el q)) (B el r)) (B el s)) ])).

(** [(+-i h/4) (A' B(b) + B(a) A') (I - B(shared))], where [A'] is the
    signed [A(a, b)] of value [a_ab]. *)
Definition number_excitation_formula (el : edge_list) (a b shared : nat)
    (positive : bool) (h : complex) (a_ab : SparsePauliOp) : SparsePauliOp :=
  scale (c_div_Z (c_mul (if positive then c_j else c_neg c_j) h) 4)
    (dot (add (dot (signed a_ab a b) (B el b)) (dot (B el a) (signed a_ab a b)))
       (sub (_pauli_id (length el)) (B el shared))).

(** Exactly one of the four equalities between a creation and an
    annihilation mode holds. *)
Definition exactly_one_shared (p q r s : nat) : Prop :=
  (p = r /\ p <> s /\ q <> r /\ q <> s)
  \/ (p <> r /\ p = s /\ q <> r /\ q <> s)
  \/ (p <> r /\ p <> s /\ q = r /\ q <> s)
  \/ (p <> r /\ p <> s /\ q <> r /\ q = s).

(** ** The classifier and the reordering as the specification words them *)

(** The table of interaction categories, by the counts of [N], [+] and
    [-]. *)
Definition interaction_table (n_number n_raise n_lower : nat)
  : option interaction :=
  match n_number, n_raise, n_lower with
  | 1, 0, 0 => Some number
  | 2, 0, 0 => Some coulomb_exchange
  | 0, 1, 1 => Some excitation
  | 1, 1, 1 => Some number_excitation
  | 0, 2, 2 => Some double_excitation
  | _, _, _ => None
  end.

(** The kind pattern of a factor list. *)
Definition kinds (facs : list factor) : list ascii := map snd facs.

(** Two creation factors followed by two annihilation factors, each pair
    in ascending mode order. *)
Definition physicist_order (facs : list factor) : Prop :=
  exists c1 c2 a1 a2,
    facs = [(c1, "+"); (c2, "+"); (a1, "-"); (a2, "-")]%char
    /\ c1 <= c2 /\ a1 <= a2.

(** ** The term loop as the specification words it *)

(** A term is passed over when (a) its first expanded factor is a lowering
    operator, or (b) its first two expanded factors share their mode,
    there are more than two factors and the third is a lowering
    operator. *)
Definition claim_skip (facs : list factor) : bool :=
  match facs with
  | [] => false
  | (i0, k0) :: rest =>
      (k0 =? "-")%char
      || match rest with
         | (i1, _) :: (_, k2) :: _ => (i0 =? i1) && (k2 =? "-")%char
         | _ => false
         end
  end.

(** The Hermitian conjugate of a term string: creation and annihilation
    symbols exchanged, number and identity symbols kept. *)
Definition hc_char (c : ascii) : ascii :=
  if (c =? "+")%char then "-"%char
  else if (c =? "-")%char then "+"%char
  else c.

Definition hermitian_conjugate (t : string) : string :=
  string_of_list_ascii (map hc_char (list_ascii_of_string t)).

(** The counts [(#N, #+, #-)] of a term string. *)
Definition count_char (c : ascii) (s : list ascii) : nat :=
  length (List.filter (fun x => (x =? c)%char) s).

Definition term_counts (t : string) : counts :=
  let s := list_ascii_of_string t in
  (count_char "N" s, count_char "+" s, count_char "-" s).

(** The term is a row of the table of categories. *)
Definition in_table (t : string) (category : interaction) : Prop :=
  let '(n_number, n_raise, n_lower) := term_counts t in
  interaction_table n_number n_raise n_lower = Some category.

(** ** The unpacking loop, character by character *)

(** What one character at mode [i] adds to the counts and to the expanded
    factor list; [None] for a character outside [I+-N]. *)
Definition char_step (expand_number_op : bool) (i : nat) (c : ascii)
  : option (counts * list factor) :=
  if (c =? "I")%char then Some ((0, 0, 0), [])
  else if (c =? "+")%char then Some ((0, 1, 0), [(i, "+"%char)])
  else if (c =? "-")%char then Some ((0, 0, 1), [(i, "-"%char)])
  else if (c =? "N")%char then
    Some ((1, 0, 0),
          if expand_number_op then [(i, "+"%char); (i, "-"%char)]
          else [(i, "N"%char)])
  else None.

Definition add_counts (a b : counts) : counts :=
  let '(n1, r1, l1) := a in
  let '(n2, r2, l2) := b in
  (n1 + n2, r1 + r2, l1 + l2).

(** The counts and factors of the characters [s] at modes [i, i+1, ...];
    [None] when a character is outside [I+-N]. *)
Fixpoint unpack_from (expand_number_op : bool) (i : nat) (s : list ascii)
  : option (counts * list factor) :=
  match s with
  | [] => Some ((0, 0, 0), [])
  | c :: s' =>
      match char_step expand_number_op i c, unpack_from expand_number_op (S i) s' with
      | Some (dc, fs), Some (cnt, facs) => Some (add_counts dc cnt, fs ++ facs)
      | _, _ => None
      end
  end.

Definition n_number_of (c : counts) : nat := fst (fst c).
Definition n_raise_of (c : counts) : nat := snd (fst c).
Definition n_lower_of (c : counts) : nat := snd c.

(** The kind of the first factor is [-]. *)
Definition head_is_minus (facs : list factor) : bool :=
  match facs with
  | (_, k) :: _ => (k =? "-")%char
  | [] => false
  end.

(** ** Well-formed fermionic operators *)

Definition valid_char (c : ascii) : bool :=
  (c =? "I")%char || (c =? "+")%char || (c =? "-")%char || (c =? "N")%char.

(** A term of a one- or two-body operator on [L] modes: a string of
    length [L] over [I+-N] whose counts are a row of the table. *)
Definition well_formed_term (L : nat) (t : string) : Prop :=
  String.length t = L
  /\ forallb valid_char (list_ascii_of_string t) = true
  /\ exists category, in_table t category.

Definition well_formed (fer_op : FermionicOp) : Prop :=
  fer_op <> []
  /\ exists L, Forall (fun term => well_formed_term L (fst term)) fer_op.

(** The adjacency matrix is [n x n]. *)
Definition square (n : nat) (m : edge_matrix) : Prop :=
  length m = n /\ Forall (fun row => length row = n) m.

(** Every true entry of the adjacency matrix lies strictly above the
    diagonal. *)
Definition upper_triangular (m : edge_matrix) : Prop :=
  forall r c row, m !! r = Some row -> row !! c = Some true -> r < c.

(** * Loops that set bits

    Both edge operators fill their vectors with loops whose body sets at
    most one bit; [target] names that bit. *)

Definition set_target {X : Type} (target : X -> option nat) (v : list bool)
    (x : X) : result (list bool) :=
  match target x with
  | Some k => np_setitem v (Z.of_nat k) true
  | None => Ok v
  end.

Definition hits {X : Type} (target : X -> option nat) (xs : list X) (k : nat)
  : bool :=
  existsb (fun x => bool_decide (target x = Some k)) xs.

(** The bit one pass of a marking loop of [edge_operator_aij] sets. *)
Definition mark_target (el : edge_list) (bound : nat) (pos : nat * nat)
  : option nat :=
  match el !! snd pos with
  | Some e =>
      if (if fst pos =? 0 then snd e else fst e) <? bound then Some (snd pos)
      else None
  | None => None
  end.

(** * Terms, character by character

    What the unpacking loop computes, as functions of the string. *)

(** The non-identity characters of [s] with their modes, counted from
    [k]. *)
Definition skeleton_from (k : nat) (s : list ascii) : list factor :=
  List.filter (fun f => negb (snd f =? "I")%char) (enumerate_from k s).

Definition skeleton (t : string) : list factor :=
  skeleton_from 0 (list_ascii_of_string t).

(** A number operator as a raising and a lowering factor on its mode. *)
Definition expand_factor (f : factor) : list factor :=
  if (snd f =? "N")%char then [(fst f, "+"%char); (fst f, "-"%char)] else [f].

Definition valid_term (t : string) : bool :=
  forallb valid_char (list_ascii_of_string t).

(** The exception that the unpacking loop raises at the character [c]. *)
Definition unexpected_operator (c : ascii) : exn :=
  ValueErrorArgs [ArgStr "Unexpected operator ";
                  ArgStr (String c EmptyString);
                  ArgStr " in term."].

(** The first character of [s] outside [I+-N]. *)
Definition first_invalid (s : list ascii) : option ascii :=
  snd <$> list_find (fun c => valid_char c = false) s.

(** * The graph, entry by entry *)

(** Entry [(r, c)] of the adjacency matrix is set. *)
Definition true_at (m : edge_matrix) (r c : nat) : Prop :=
  exists row, m !! r = Some row /\ row !! c = Some true.

(** The edge between the two modes of a two-element index list. *)
Definition pair_of (inds : list nat) : list (nat * nat) :=
  match inds with
  | [i; j] => [(i, j)]
  | _ => []
  end.

(** The edges a term asks for: between its raising and its lowering mode
    for an excitation or a number excitation, between its two raising
    modes and between its two lowering modes for a double excitation, none
    otherwise. *)
Definition term_edges (t : string) : list (nat * nat) :=
  let '(n_number, n_raise, n_lower) := term_counts t in
  match _interaction_type n_number n_raise n_lower with
  | Ok excitation | Ok number_excitation =>
      pair_of (inds_where in_plus_minus (skeleton t))
  | Ok double_excitation =>
      pair_of (inds_where (fun c => (c =? "+")%char) (skeleton t))
      ++ pair_of (inds_where (fun c => (c =? "-")%char) (skeleton t))
  | _ => []
  end.

(** Row-major order of matrix positions. *)
Definition lex_lt (e f : nat * nat) : Prop :=
  fst e < fst f \/ (fst e = fst f /\ snd e < snd f).

(** The term passes [_unpack_term] and [_interaction_type]. *)
Definition term_accepted (t : string) : bool :=
  valid_term t
  && (let '(n_number, n_raise, n_lower) := term_counts t in
      returns (_interaction_type n_number n_raise n_lower)).

(** * Sums of Pauli strings on a register *)

(** Every Pauli string of [op] has [n] bits in each of its vectors. *)
Definition on_qubits (n : nat) (op : SparsePauliOp) : Prop :=
  Forall (fun t => length (pauli_z (fst t)) = n /\ length (pauli_x (fst t)) = n)
    op.

(** The term is passed over by the loop of [_convert_operators]. *)
Definition passed_over (t : string) : bool :=
  claim_skip (flat_map expand_factor (skeleton t)).

(** The first two statements of [BravyiKitaevSFMapper.map]: the edge list
    of the operator and the sum of its converted terms, before that sum is
    simplified and sorted. *)
Definition map_terms (second_q_op : FermionicOp)
  : result (edge_list * option SparsePauliOp) :=
  let! edge_list := bksf_edge_list_fermionic_op second_q_op in
  let! sparse_pauli := _convert_operators second_q_op edge_list in
  Ok (edge_list, sparse_pauli).


(** The counts [(#N, #+, #-)] of a list of factors. *)
Definition kind_counts (facs : list factor) : counts :=
  (count_char "N" (map snd facs), count_char "+" (map snd facs),
   count_char "-" (map snd facs)).

(** The identity string and the product of [B(p)] and [B(q)] on the
    register of an edge list. *)
Definition I_pauli (el : edge_list) : Pauli :=
  MkPauli (replicate (length el) false) (replicate (length el) false).

Definition BB_pauli (el : edge_list) (p q : nat) : Pauli :=
  MkPauli (map (fun e => xorb (incident e p) (incident e q)) el)
          (replicate (length el) false).


(** The bitwise sum of two Pauli strings: the string of their product,
    without its phase. *)
Definition pauli_xor (p q : Pauli) : Pauli :=
  MkPauli (zip_with xorb (pauli_z p) (pauli_z q))
          (zip_with xorb (pauli_x p) (pauli_x q)).

(** The operator with every coefficient multiplied by [c]. *)
Definition scale_terms (c : complex) (fer_op : FermionicOp) : FermionicOp :=
  map (fun term => (operator_string term, c_mul c (operator_coefficient term)))
    fer_op.

(** * Index order of two-body integrals

    The converters and the detector of [_electronic_integrals_utils.py].
    A [numpy] array is its shape and its entries by index vector.
    [numpy.einsum] is modelled for subscripts that permute the axes, as the
    code uses it: the entry of the result at an index vector is the entry
    of the argument at the index vector that gives every input label the
    value of the same label in the output, and an array whose rank is not
    the number of input labels is refused. *)

Record ndarray (A : Type) : Type :=
  NdArray { nd_shape : list nat; nd_at : list nat -> A }.

Arguments NdArray {A} _ _.
Arguments nd_shape {A} _.
Arguments nd_at {A} _ _.

(** The labels before [->] and after it. *)
Fixpoint input_labels (s : list ascii) : list ascii :=
  match s with
  | [] => []
  | c :: s' => if (c =? "-")%char then [] else c :: input_labels s'
  end.

Fixpoint output_labels (s : list ascii) : list ascii :=
  match s with
  | [] => []
  | c :: s' => if (c =? ">")%char then s' else output_labels s'
  end.

(** The position of the first occurrence of a label. *)
Fixpoint label_index (c : ascii) (labels : list ascii) : nat :=
  match labels with
  | [] => 0
  | d :: labels' => if (c =? d)%char then 0 else S (label_index c labels')
  end.

Definition einsum {A : Type} (subscripts : string) (t : ndarray A)
  : result (ndarray A) :=
  let inp := input_labels (list_ascii_of_string subscripts) in
  let out := output_labels (list_ascii_of_string subscripts) in
  if length (nd_shape t) <? length inp then
    Raise (ValueError
             "einstein sum subscripts string contains too many subscripts for operand 0")
  else if length inp <? length (nd_shape t) then
    Raise (ValueError
             "operand has more dimensions than subscripts given in einstein sum, but no '...' ellipsis provided to broadcast the extra dimensions.")
  else
    Ok (NdArray
          (map (fun c => nth (label_index c inp) (nd_shape t) 0) out)
          (fun idx =>
             nd_at t (map (fun c => nth (label_index c out) idx 0) inp))).

Definition CHEM_INDEX_PERMUTATIONS : list string :=
  [ "pqrs->qprs"; "pqrs->pqsr"; "pqrs->qpsr"; "pqrs->rspq"; "pqrs->rsqp";
    "pqrs->srpq"; "pqrs->srqp" ]%string.

Definition phys_to_chem {A : Type} (two_body_tensor : ndarray A)
  : result (ndarray A) :=
  let! permuted_tensor := einsum "ijkl->iljk" two_body_tensor in
  Ok permuted_tensor.

Definition chem_to_phys {A : Type} (two_body_tensor : ndarray A)
  : result (ndarray A) :=
  let! permuted_tensor := einsum "ijkl->iklj" two_body_tensor in
  Ok permuted_tensor.

(** Broadcasting of two shapes of the same rank: equal sizes, or a size of
    one, which is stretched. *)
Definition broadcast_dim (m n : nat) : option nat :=
  if m =? n then Some m
  else if m =? 1 then Some n
  else if n =? 1 then Some m
  else None.

Fixpoint broadcast_shapes (s1 s2 : list nat) : option (list nat) :=
  match s1, s2 with
  | [], [] => Some []
  | m :: s1', n :: s2' =>
      match broadcast_dim m n, broadcast_shapes s1' s2' with
      | Some d, Some sh => Some (d :: sh)
      | _, _ => None
      end
  | _, _ => None
  end.

(** The index vectors of a shape, in row-major order. *)
Fixpoint indices (shape : list nat) : list (list nat) :=
  match shape with
  | [] => [[]]
  | n :: shape' => flat_map (fun i => map (cons i) (indices shape')) (seq 0 n)
  end.

(** The index vector of an array of shape [shape] that a broadcast index
    vector reads: an axis of size one is read at zero. *)
Definition bcast_index (shape idx : list nat) : list nat :=
  zip_with (fun n i => if n =? 1 then 0 else i) shape idx.

Section Detector.

Context {A : Type}.

(** The comparison of two entries by [numpy.isclose], whose tolerances act
    on floating-point numbers: a parameter of the model. *)
Variable isclose : A -> A -> bool.

(** [numpy.allclose(a, b)] for two arrays of the same rank: every entry of
    [a] is close to the entry of [b] at the same place, after
    broadcasting. *)
Definition allclose (a b : ndarray A) : result bool :=
  match broadcast_shapes (nd_shape a) (nd_shape b) with
  | Some shape =>
      Ok (forallb
            (fun idx => isclose (nd_at a (bcast_index (nd_shape a) idx))
                                (nd_at b (bcast_index (nd_shape b) idx)))
            (indices shape))
  | None => Raise (ValueError "operands could not be broadcast together")
  end.

Definition _check_two_body_symmetry (tensor : ndarray A) (test_number : nat)
  : result bool :=
  let! subscripts := getitem CHEM_INDEX_PERMUTATIONS test_number in
  let! permuted_tensor := einsum subscripts tensor in
  allclose tensor permuted_tensor.

(** The loop over the test numbers, left at the first test that fails. *)
Fixpoint check_from (two_body_tensor : ndarray A) (test_numbers : list nat)
  : result bool :=
  match test_numbers with
  | [] => Ok true
  | test_number :: rest =>
      let! passed := _check_two_body_symmetry two_body_tensor test_number in
      if negb passed then Ok false else check_from two_body_tensor rest
  end.

Definition _check_two_body_symmetries (two_body_tensor : ndarray A)
    (chemist : bool) : result bool :=
  let! two_body_tensor :=
    if negb chemist then phys_to_chem two_body_tensor else Ok two_body_tensor in
  check_from two_body_tensor (seq 0 (length CHEM_INDEX_PERMUTATIONS)).

Definition find_index_order (two_body_tensor : ndarray A) : result string :=
  let! chemist := _check_two_body_symmetries two_body_tensor true in
  if chemist then Ok "chemist"%string
  else
    let! permuted_tensor := phys_to_chem two_body_tensor in
    let! physicist := _check_two_body_symmetries permuted_tensor true in
    if physicist then Ok "physicist"%string
    else
      let! permuted_tensor := phys_to_chem permuted_tensor in
      let! intermediate := _check_two_body_symmetries permuted_tensor true in
      if intermediate then Ok "intermediate"%string
      else Ok "unknown"%string.

End Detector.

(** Two arrays of rank four have the same shape and the same entries. *)
Definition same_array {A : Type} (t u : ndarray A) : Prop :=
  nd_shape t = nd_shape u
  /\ forall i j k l, nd_at t [i; j; k; l] = nd_at u [i; j; k; l].

(** The three symmetries that generate the symmetries of real two-body
    integrals in chemists' order. *)
Definition chemist_symmetric {A : Type} (t : ndarray A) : Prop :=
  forall p q r s,
    nd_at t [q; p; r; s] = nd_at t [p; q; r; s]
    /\ nd_at t [p; q; s; r] = nd_at t [p; q; r; s]
    /\ nd_at t [r; s; p; q] = nd_at t [p; q; r; s].


(** * Proofs *)

(** Case analysis on the boolean comparisons of natural numbers in the
    goal. *)
Ltac nat_cases :=
  repeat match goal with
    | |- context [?a =? ?b] => destruct (Nat.eqb_spec a b)
    | |- context [?a <? ?b] => destruct (Nat.ltb_spec a b)
    | |- context [?a <=? ?b] => destruct (Nat.leb_spec a b)
    end;
  simpl; try done; try lia.

(** ** The result monad *)

Lemma bind_Ok {A B : Type} (a : A) (k : A -> result B) : bind (Ok a) k = k a.
Proof. reflexivity. Qed.

Lemma Ok_inj {A : Type} (a b : A) : Ok a = Ok b -> a = b.
Proof. congruence. Qed.

Lemma bind_inv_Ok {A B : Type} (m : result A) (k : A -> result B) (b : B) :
  bind m k = Ok b -> exists a, m = Ok a /\ k a = Ok b.
Proof. destruct m as [a|e]; simpl; [eauto | discriminate]. Qed.

(** ** Array updates *)

Lemma np_setitem_nat {A : Type} (v : list A) (k : nat) (a : A) :
  k < length v -> np_setitem v (Z.of_nat k) a = Ok (<[k := a]> v).
Proof.
  intros Hk. unfold np_setitem.
  destruct (Z.leb_spec 0 (Z.of_nat k)); [|lia].
  destruct (Z.ltb_spec (Z.of_nat k) (Z.of_nat (length v))); [|lia].
  simpl. by rewrite Nat2Z.id.
Qed.

Lemma np_setitem_minus_one {A : Type} (v : list A) (a : A) :
  np_setitem v (-1) a
  = if decide (length v = 0) then Raise IndexError
    else Ok (<[length v - 1 := a]> v).
Proof.
  unfold np_setitem. simpl.
  destruct (Z.ltb_spec (-1) 0); [|lia]. rewrite andb_true_r.
  destruct (Z.leb_spec (- Z.of_nat (length v)) (-1)); case_decide; try lia.
  - do 2 f_equal. lia.
  - reflexivity.
Qed.

Section SetBits.
Context {X : Type} (target : X -> option nat).

Lemma for_each_set_target (xs : list X) (v : list bool) :
  Forall (fun x => forall k, target x = Some k -> k < length v) xs ->
  exists v', for_each (set_target target) v xs = Ok v'
    /\ length v' = length v
    /\ forall k, v' !! k = (fun b => b || hits target xs k) <$> (v !! k).
Proof.
  revert v. induction xs as [|x xs IH]; intros v Hall.
  - exists v. split; [done|]. split; [done|]. intros k. simpl.
    destruct (v !! k); simpl; by rewrite ?orb_false_r.
  - inversion Hall as [|? ? Hx Hxs]; subst. simpl. unfold set_target at 1.
    destruct (target x) as [t|] eqn:Ht.
    + rewrite np_setitem_nat by auto. simpl.
      destruct (IH (<[t := true]> v)) as (v' & Hrun & Hlen & Hbits).
      { rewrite length_insert. exact Hxs. }
      exists v'. rewrite length_insert in Hlen.
      split; [done|]. split; [done|]. intros k. rewrite Hbits. destruct (decide (t = k)) as [->|Hne].
      * rewrite list_lookup_insert_eq by auto.
        rewrite bool_decide_eq_true_2 by done.
        destruct (lookup_lt_is_Some_2 v k (Hx k eq_refl)) as [b ->].
        simpl. by rewrite orb_true_r.
      * rewrite list_lookup_insert_ne by done.
        rewrite bool_decide_eq_false_2 by congruence. done.
    + simpl. destruct (IH v Hxs) as (v' & Hrun & Hlen & Hbits).
      exists v'. split; [done|]. split; [done|].
      intros k. by rewrite Hbits.
Qed.
End SetBits.

Lemma for_each_ext {S X : Type} (f g : S -> X -> result S) (xs : list X) (s : S) :
  (forall s x, x ∈ xs -> f s x = g s x) -> for_each f s xs = for_each g s xs.
Proof.
  revert s. induction xs as [|x xs IH]; intros s Hfg; [done|]. simpl.
  rewrite (Hfg s x) by left. destruct (g s x); simpl; [|done].
  apply IH. intros s' y Hy. apply Hfg. by right.
Qed.

(** ** Positions of matching entries *)

Lemma elem_of_positions_from {A : Type} (P : A -> bool) (l : list A) k n :
  n ∈ positions_from P k l
  <-> k <= n /\ exists a, l !! (n - k) = Some a /\ P a = true.
Proof.
  revert k. induction l as [|a l IH]; intros k; simpl.
  - split; [by intros ?%elem_of_nil | by intros (_ & ? & ? & _)].
  - assert (Hrest : n ∈ positions_from P (S k) l
              <-> k < n /\ exists b, (a :: l) !! (n - k) = Some b /\ P b = true).
    { rewrite IH. split.
      - intros (Hle & b & Hb & HP). split; [lia|]. exists b. split; [|done].
        replace (n - k) with (S (n - S k)) by lia. done.
      - intros (Hlt & b & Hb & HP). split; [lia|]. exists b. split; [|done].
        replace (n - k) with (S (n - S k)) in Hb by lia. done. }
    destruct (P a) eqn:HPa.
    + rewrite elem_of_cons, Hrest. split.
      * intros [->|(Hlt & Hex)]; [|split; [lia|done]].
        split; [lia|]. exists a. by rewrite Nat.sub_diag.
      * intros (Hle & Hex). destruct (decide (n = k)) as [->|]; [by left|].
        right. split; [lia|done].
    + rewrite Hrest. split.
      * intros (Hlt & Hex). split; [lia|done].
      * intros (Hle & b & Hb & HPb). destruct (decide (n = k)) as [->|].
        -- rewrite Nat.sub_diag in Hb. simpl in Hb. congruence.
        -- split; [lia|]. eauto.
Qed.

Lemma elem_of_positions {A : Type} (P : A -> bool) (l : list A) n :
  n ∈ positions P l <-> exists a, l !! n = Some a /\ P a = true.
Proof.
  unfold positions. rewrite elem_of_positions_from, Nat.sub_0_r.
  split; [by intros [_ ?] | split; [lia|done]].
Qed.

Lemma elem_of_np_where_eq (el : edge_list) (i r c : nat) :
  (r, c) ∈ np_where_eq el i
  <-> exists e, el !! c = Some e
        /\ (r = 0 /\ fst e = i \/ r = 1 /\ snd e = i).
Proof.
  unfold np_where_eq. rewrite elem_of_app, !list_elem_of_fmap. split.
  - intros [(n & [= -> ->] & Hn)|(n & [= -> ->] & Hn)];
      apply elem_of_positions in Hn as (e & He & HP);
      apply Nat.eqb_eq in HP; eauto.
  - intros (e & He & [[-> Hi]|[-> Hi]]); [left|right]; exists c;
      (split; [done|]); apply elem_of_positions; exists e;
      (split; [done|]); by apply Nat.eqb_eq.
Qed.

Lemma np_where_eq_in_range (el : edge_list) (i : nat) :
  Forall (fun pos => fst pos < 2 /\ snd pos < length el) (np_where_eq el i).
Proof.
  apply Forall_forall. intros [r c] (e & He & Hr)%elem_of_np_where_eq. simpl.
  apply lookup_lt_Some in He. lia.
Qed.

(** ** The marking loops of [edge_operator_aij] *)

Lemma mark_body_target (el : edge_list) (bound : nat) (v : list bool) pos :
  fst pos < 2 -> snd pos < length el ->
  mark_body el bound v pos = set_target (mark_target el bound) v pos.
Proof.
  destruct pos as [r c]. simpl. intros Hr Hc.
  unfold mark_body, set_target, mark_target, edge_list_get. simpl.
  destruct (lookup_lt_is_Some_2 el c Hc) as [[a b] ->].
  destruct r as [|[|r]]; simpl; [| |lia].
  - by destruct (b <? bound).
  - by destruct (a <? bound).
Qed.

Lemma hits_mark_target (el : edge_list) (i bound k : nat) (e : nat * nat) :
  el !! k = Some e ->
  hits (mark_target el bound) (np_where_eq el i) k = incident_below e i bound.
Proof.
  intros He. apply eq_true_iff_eq. unfold hits, incident_below.
  rewrite existsb_exists, orb_true_iff, !andb_true_iff.
  rewrite !Nat.eqb_eq, !Nat.ltb_lt. split.
  - intros ([r c] & Hin%list_elem_of_In & Ht%bool_decide_eq_true).
    apply elem_of_np_where_eq in Hin as (e' & He' & Hr).
    unfold mark_target in Ht. simpl in Ht. rewrite He' in Ht.
    destruct Hr as [[-> Hi]|[-> Hi]]; simpl in Ht.
    + destruct (Nat.ltb_spec (snd e') bound); [|done].
      injection Ht as ->. left. naive_solver.
    + destruct (Nat.ltb_spec (fst e') bound); [|done].
      injection Ht as ->. right. naive_solver.
  - intros [[Hi Hlt]|[Hi Hlt]].
    + exists (0, k). split.
      * apply list_elem_of_In, elem_of_np_where_eq. eauto.
      * apply bool_decide_eq_true. unfold mark_target. simpl. rewrite He.
        by destruct (Nat.ltb_spec (snd e) bound); [|lia].
    + exists (1, k). split.
      * apply list_elem_of_In, elem_of_np_where_eq. eauto.
      * apply bool_decide_eq_true. unfold mark_target. simpl. rewrite He.
        by destruct (Nat.ltb_spec (fst e) bound); [|lia].
Qed.

Lemma mark_loop_where (el : edge_list) (i bound : nat) (v : list bool) :
  length v = length el ->
  mark_loop el bound v (np_where_eq el i)
  = Ok (zip_with orb v (map (fun e => incident_below e i bound) el)).
Proof.
  intros Hlen. unfold mark_loop.
  rewrite (for_each_ext _ (set_target (mark_target el bound))).
  2:{ intros s pos Hpos.
      pose proof (np_where_eq_in_range el i) as Hall.
      rewrite Forall_forall in Hall. destruct (Hall pos Hpos).
      by apply mark_body_target. }
  destruct (for_each_set_target (mark_target el bound) (np_where_eq el i) v)
    as (v' & -> & Hlen' & Hbits).
  { apply Forall_forall. intros [r c] _ k Hk. unfold mark_target in Hk.
    simpl in Hk. destruct (el !! c) eqn:Hc; [|done].
    apply lookup_lt_Some in Hc. case_match; [|done]. injection Hk as <-. lia. }
  f_equal. apply list_eq. intros k. rewrite Hbits, lookup_zip_with, list_lookup_fmap.
  destruct (v !! k) as [b|] eqn:Hv; simpl; [|done].
  destruct (lookup_lt_is_Some_2 el k) as [e He].
  { apply lookup_lt_Some in Hv. lia. }
  rewrite He. simpl. by rewrite (hits_mark_target el i bound k e).
Qed.

(** [edge_operator_aij] in closed form: only the assignment to [w] can
    raise. *)
Lemma edge_operator_aij_closed (el : edge_list) (i j : nat) :
  edge_operator_aij el i j
  = let! w := np_setitem (replicate (length el) false) (find_edge el i j) true in
    Ok (of_pauli
          (MkPauli
             (map (fun e => incident_below e i j || incident_below e j i) el)
             w)).
Proof.
  unfold edge_operator_aij, shape1.
  destruct (np_setitem _ (find_edge el i j) true) as [w|]; simpl; [|done].
  rewrite mark_loop_where by apply length_replicate. simpl.
  rewrite mark_loop_where.
  2:{ rewrite length_zip_with, length_replicate, length_map. lia. }
  simpl. do 3 f_equal. apply list_eq. intros k.
  rewrite !lookup_zip_with, !list_lookup_fmap.
  destruct (el !! k) as [e|] eqn:He; simpl.
  - rewrite lookup_replicate_2 by (by apply lookup_lt_Some in He). done.
  - apply lookup_ge_None in He.
    by rewrite (proj1 (lookup_replicate_None (length el) false k) He).
Qed.

(** ** [edge_operator_bi] in closed form *)

Lemma hits_incident (el : edge_list) (i k : nat) (e : nat * nat) :
  el !! k = Some e ->
  hits Some (map snd (np_where_eq el i)) k = incident e i.
Proof.
  intros He. apply eq_true_iff_eq. unfold hits, incident.
  rewrite existsb_exists, orb_true_iff, !Nat.eqb_eq. split.
  - intros (c & Hin%list_elem_of_In & Hc%bool_decide_eq_true).
    injection Hc as ->.
    apply list_elem_of_fmap in Hin as ([r c] & -> & Hin). simpl in He.
    apply elem_of_np_where_eq in Hin as (e' & He' & Hr).
    rewrite He in He'. injection He' as <-. tauto.
  - intros Hi. exists k. split; [|by apply bool_decide_eq_true].
    apply list_elem_of_In, list_elem_of_fmap.
    destruct Hi as [Hi|Hi]; [exists (0, k)|exists (1, k)];
      (split; [done|]); apply elem_of_np_where_eq; eauto.
Qed.

Lemma edge_operator_bi_closed (el : edge_list) (i : nat) :
  edge_operator_bi el i = Ok (of_pauli (B_spec el i)).
Proof.
  unfold edge_operator_bi, np_setitems, shape1.
  change (fun (v : list bool) (k : nat) => np_setitem v (Z.of_nat k) true)
    with (set_target (@Some nat)).
  destruct (for_each_set_target Some (map snd (np_where_eq el i))
              (replicate (length el) false)) as (v' & -> & Hlen & Hbits).
  { apply Forall_forall. intros c Hc k [= <-].
    apply list_elem_of_fmap in Hc as ([r c'] & -> & Hin).
    apply elem_of_np_where_eq in Hin as (e & He%lookup_lt_Some & _).
    by rewrite length_replicate. }
  simpl. unfold B_spec. do 3 f_equal. apply list_eq. intros k.
  rewrite Hbits, list_lookup_fmap.
  destruct (el !! k) as [e|] eqn:He; simpl.
  - rewrite lookup_replicate_2 by (by apply lookup_lt_Some in He). simpl.
    by rewrite (hits_incident el i k e).
  - apply lookup_ge_None in He.
    by rewrite (proj1 (lookup_replicate_None (length el) false k) He).
Qed.

(** ** The search loop of [edge_operator_aij] *)

Lemma same_endpoints_joins (i j : nat) (e : nat * nat) :
  same_endpoints i j e = bool_decide (joins i j e).
Proof.
  unfold same_endpoints, joins. apply bool_decide_ext.
  destruct e as [a b]. simpl. split.
  - intros Heq.
    assert (Hin : forall x, x = i \/ x = j <-> x = a \/ x = b).
    { intros x.
      rewrite <- !(elem_of_singleton (C:=gset nat)).
      rewrite <- !(elem_of_union (C:=gset nat)). by rewrite Heq. }
    destruct (proj1 (Hin i) (or_introl eq_refl)),
      (proj1 (Hin j) (or_intror eq_refl)),
      (proj2 (Hin a) (or_introl eq_refl)),
      (proj2 (Hin b) (or_intror eq_refl)); subst; auto.
  - intros [[= -> ->]|[= -> ->]]; [done|]. apply (comm_L union).
Qed.

Lemma find_edge_from_list_find (k : nat) (el : edge_list) (i j : nat) :
  find_edge_from k el i j
  = match list_find (joins i j) el with
    | Some (n, _) => Z.of_nat (k + n)
    | None => (-1)%Z
    end.
Proof.
  revert k. induction el as [|e el IH]; intros k; simpl; [done|].
  rewrite same_endpoints_joins. case_decide as Hj.
  - rewrite bool_decide_eq_true_2 by done. by rewrite Nat.add_0_r.
  - rewrite bool_decide_eq_false_2 by done. rewrite IH.
    destruct (list_find (joins i j) el) as [[n x]|]; simpl; [|done].
    f_equal. lia.
Qed.

Lemma find_edge_position (el : edge_list) (i j : nat) :
  find_edge el i j
  = match edge_position el i j with
    | Some pos => Z.of_nat pos
    | None => (-1)%Z
    end.
Proof.
  unfold find_edge, edge_position. rewrite find_edge_from_list_find.
  by destruct (list_find (joins i j) el) as [[n x]|].
Qed.

Lemma joins_sym (i j : nat) (e : nat * nat) : joins i j e <-> joins j i e.
Proof. unfold joins. tauto. Qed.

Lemma edge_position_sym (el : edge_list) (i j : nat) :
  edge_position el i j = edge_position el j i.
Proof.
  unfold edge_position. f_equal. apply list_find_ext. intros e. apply joins_sym.
Qed.

Lemma edge_position_Some (el : edge_list) (i j pos : nat) :
  edge_position el i j = Some pos
  <-> exists e, el !! pos = Some e /\ joins i j e
        /\ forall k e', el !! k = Some e' -> k < pos -> ~ joins i j e'.
Proof.
  unfold edge_position. rewrite fmap_Some. split.
  - intros ([n e] & Hfind%list_find_Some & ->). simpl. exists e. naive_solver.
  - intros (e & He & Hj & Hfirst). exists (pos, e). split; [|done].
    apply list_find_Some. naive_solver.
Qed.

Lemma edge_position_None (el : edge_list) (i j : nat) :
  edge_position el i j = None <-> forall e, e ∈ el -> ~ joins i j e.
Proof.
  unfold edge_position. rewrite fmap_None, list_find_None, Forall_forall.
  reflexivity.
Qed.

Lemma joins_not_incident_below (i j : nat) (e : nat * nat) :
  joins i j e -> incident_below e i j || incident_below e j i = false.
Proof.
  unfold incident_below. intros [->| ->]; simpl; nat_cases.
Qed.

Lemma is_edge_position (el : edge_list) (i j : nat) :
  is_edge el i j = true <-> exists pos, edge_position el i j = Some pos.
Proof.
  unfold is_edge. rewrite existsb_exists. split.
  - intros (e & Hin%list_elem_of_In & Hj%bool_decide_eq_true).
    destruct (edge_position el i j) as [pos|] eqn:Hpos; [eauto|].
    rewrite edge_position_None in Hpos. by destruct (Hpos e Hin).
  - intros (pos & (e & He & Hj & _)%edge_position_Some). exists e. split.
    + apply list_elem_of_In. by apply list_elem_of_lookup_2 with pos.
    + by apply bool_decide_eq_true.
Qed.

Lemma is_edge_false_position (el : edge_list) (i j : nat) :
  is_edge el i j = false <-> edge_position el i j = None.
Proof.
  rewrite <- not_true_iff_false, is_edge_position. split.
  - intros Hno. destruct (edge_position el i j) as [pos|]; [|done].
    destruct Hno. eauto.
  - intros -> [pos Hpos]. done.
Qed.

Lemma single_term_eq (z z' x x' : list bool) (c : complex) :
  z = z' -> x = x' ->
  Ok [(MkPauli z x, c)] = Ok [(MkPauli z' x', c)] :> result SparsePauliOp.
Proof. by intros -> ->. Qed.

Lemma edge_operator_aij_at_edge (el : edge_list) (i j pos : nat) :
  edge_position el i j = Some pos ->
  edge_operator_aij el i j = Ok [(A_spec el i j pos, c_one)].
Proof.
  intros Hpos. rewrite edge_operator_aij_closed, find_edge_position, Hpos.
  apply edge_position_Some in Hpos as (e & He & Hj & _).
  rewrite np_setitem_nat.
  2:{ rewrite length_replicate. by apply lookup_lt_Some in He. }
  simpl. unfold of_pauli, A_spec. apply single_term_eq.
  - apply list_eq. intros k. rewrite list_lookup_fmap, list_lookup_imap.
    destruct (el !! k) as [e'|] eqn:He'; simpl; [|done]. f_equal.
    destruct (Nat.eqb_spec k pos) as [->|]; simpl; [|done].
    replace e' with e by congruence. by apply joins_not_incident_below.
  - apply list_eq. intros k. rewrite list_lookup_imap.
    destruct (decide (pos = k)) as [->|Hne].
    + rewrite list_lookup_insert_eq.
      2:{ rewrite length_replicate. by apply lookup_lt_Some in He. }
      rewrite He. simpl. by rewrite Nat.eqb_refl.
    + rewrite list_lookup_insert_ne by done.
      destruct (el !! k) as [e'|] eqn:He'; simpl.
      * rewrite lookup_replicate_2 by (by apply lookup_lt_Some in He').
        f_equal. symmetry. apply Nat.eqb_neq. congruence.
      * apply lookup_ge_None in He'.
        by rewrite (proj1 (lookup_replicate_None (length el) false k) He').
Qed.

(** C1 (amended). For every edge list and every pair of modes [(i, j)]
    that is an edge, [A(i, j)] returns the single Pauli term of coefficient
    one (so of magnitude one) with X at the position of the edge, Z at
    every other column incident to [i] whose other end point is below [j]
    or incident to [j] whose other end point is below [i], and identity
    elsewhere; both bit vectors have length [E]. On the complete graph on
    four modes, [A(0,1)] is X at qubit 0 and [A(2,3)] is X at qubit 5 with
    Z at qubits 1, 2, 3 and 4. *)
Theorem edge_operator_aij_spec :
  (forall (el : edge_list) (i j : nat),
      is_edge el i j = true ->
      exists pos,
        edge_position el i j = Some pos
        /\ edge_operator_aij el i j = Ok [(A_spec el i j pos, c_one)]
        /\ length (pauli_z (A_spec el i j pos)) = shape1 el
        /\ length (pauli_x (A_spec el i j pos)) = shape1 el
        /\ c_abs2 c_one = Q2Qc 1)
  /\ edge_operator_aij complete4 0 1
     = Ok [(MkPauli [false; false; false; false; false; false]
                    [true; false; false; false; false; false], c_one)]
  /\ edge_operator_aij complete4 2 3
     = Ok [(MkPauli [false; true; true; true; true; false]
                    [false; false; false; false; false; true], c_one)].
Proof.
  split; [|split].
  - intros el i j (pos & Hpos)%is_edge_position. exists pos.
    split; [done|]. split; [by apply edge_operator_aij_at_edge|].
    unfold A_spec, shape1. simpl. rewrite !length_imap.
    split; [done|]. split; [done|]. apply Qc_is_canon. reflexivity.
  - rewrite (edge_operator_aij_at_edge complete4 0 1 0) by reflexivity.
    reflexivity.
  - rewrite (edge_operator_aij_at_edge complete4 2 3 5) by reflexivity.
    reflexivity.
Qed.

Lemma edge_operator_aij_spec_witness :
  is_edge complete4 1 3 = true
  /\ exists pos,
      edge_position complete4 1 3 = Some pos
      /\ edge_operator_aij complete4 1 3 = Ok [(A_spec complete4 1 3 pos, c_one)]
      /\ length (pauli_z (A_spec complete4 1 3 pos)) = shape1 complete4
      /\ length (pauli_x (A_spec complete4 1 3 pos)) = shape1 complete4
      /\ c_abs2 c_one = Q2Qc 1.
Proof.
  split; [reflexivity|].
  apply (proj1 edge_operator_aij_spec complete4 1 3). reflexivity.
Defined.

(** C1 as first stated fails: on the complete graph on four modes,
    [A(2,3)] is not the term with X at qubit 5 and Z at qubits 1 and 3
    only. *)
Lemma edge_operator_aij_23_counterexample :
  edge_operator_aij complete4 2 3
  <> Ok [(MkPauli [false; true; false; true; false; false]
                  [false; false; false; false; false; true], c_one)].
Proof.
  rewrite (edge_operator_aij_at_edge complete4 2 3 5) by reflexivity.
  intros H. discriminate H.
Qed.

(** C2. For every edge list and every mode [i], [B(i)] returns the single
    Pauli term whose z vector is set exactly at the columns incident to
    [i] and whose x vector is all zero; both vectors have length [E]. On
    the complete graph on four modes, [B(0)] is Z at qubits 0, 1, 2 and
    [B(3)] is Z at qubits 2, 4, 5. *)
Theorem edge_operator_bi_spec :
  (forall (el : edge_list) (i : nat),
      exists z x,
        edge_operator_bi el i = Ok [(MkPauli z x, c_one)]
        /\ length z = shape1 el
        /\ length x = shape1 el
        /\ (forall k, z !! k = Some true
                      <-> exists e, el !! k = Some e /\ (fst e = i \/ snd e = i))
        /\ (forall k, x !! k <> Some true))
  /\ edge_operator_bi complete4 0
     = Ok [(MkPauli [true; true; true; false; false; false]
                    [false; false; false; false; false; false], c_one)]
  /\ edge_operator_bi complete4 3
     = Ok [(MkPauli [false; false; true; false; true; true]
                    [false; false; false; false; false; false], c_one)].
Proof.
  split; [|split; by rewrite edge_operator_bi_closed].
  intros el i. exists (pauli_z (B_spec el i)), (pauli_x (B_spec el i)).
  split; [by rewrite edge_operator_bi_closed|]. simpl. unfold shape1.
  rewrite length_map, length_replicate. repeat split; try done.
  - rewrite list_lookup_fmap. intros (e & He & Hi)%fmap_Some. exists e.
    split; [done|]. unfold incident in Hi. symmetry in Hi.
    apply orb_true_iff in Hi. by rewrite !Nat.eqb_eq in Hi.
  - intros (e & He & Hi). rewrite list_lookup_fmap, He. simpl. f_equal.
    unfold incident. apply orb_true_iff. by rewrite !Nat.eqb_eq.
  - intros k Hk. apply lookup_replicate in Hk as [Hk _]. done.
Qed.

(** C8, on the code. A pair that is not an edge does not make
    [edge_operator_aij] fail when the edge list has a column: the initial
    [-1] is used as an index and X is put at the last position. *)
Theorem edge_operator_aij_missing_edge (el : edge_list) (i j : nat) :
  is_edge el i j = false ->
  el <> [] ->
  edge_operator_aij el i j
  = Ok [(MkPauli
           (map (fun e => incident_below e i j || incident_below e j i) el)
           (<[length el - 1 := true]> (replicate (length el) false)), c_one)].
Proof.
  intros Hno%is_edge_false_position Hne.
  rewrite edge_operator_aij_closed, find_edge_position, Hno.
  rewrite np_setitem_minus_one, length_replicate.
  case_decide as Hlen; [|done]. by destruct el.
Qed.

Lemma edge_operator_aij_missing_edge_witness :
  is_edge [(0, 2); (1, 3)] 0 1 = false
  /\ [(0, 2); (1, 3)] <> ([] : edge_list)
  /\ edge_operator_aij [(0, 2); (1, 3)] 0 1
     = Ok [(MkPauli [false; false] [false; true], c_one)].
Proof.
  split; [reflexivity|]. split; [discriminate|].
  apply (edge_operator_aij_missing_edge [(0, 2); (1, 3)] 0 1);
    [reflexivity | discriminate].
Defined.

(** ** Symmetry of [edge_operator_aij] *)

Lemma find_edge_sym (el : edge_list) (i j : nat) :
  find_edge el i j = find_edge el j i.
Proof. by rewrite !find_edge_position, edge_position_sym. Qed.

(** ** Coefficient arithmetic *)

Lemma c_ext (a b : complex) : re a = re b -> im a = im b -> a = b.
Proof. destruct a, b; simpl; congruence. Qed.

(** A complex number given by numerals is not zero. *)
Ltac c_nonzero :=
  let H := fresh in
  intros H; apply (f_equal (fun z => (Qnum (re z), Qnum (im z)))) in H;
  vm_compute in H; discriminate H.


Lemma Q2Qc_inv_Z (n : positive) :
  Q2Qc (1 # n) = (/ Q2Qc (inject_Z (Z.pos n)))%Qc.
Proof. apply Qc_is_canon. simpl. rewrite !Qred_correct. reflexivity. Qed.

Lemma c_mul_eighth (h : complex) : c_mul eighth h = c_div_Z h 8.
Proof.
  apply c_ext; simpl; rewrite Q2Qc_inv_Z; unfold Qcdiv;
    change (Q2Qc 0) with 0%Qc; ring.
Qed.

Lemma c_mul_j_quarter (h : complex) :
  c_mul (c_mul c_j quarter) h = c_div_Z (c_mul c_j h) 4.
Proof.
  apply c_ext; simpl; rewrite Q2Qc_inv_Z; unfold Qcdiv;
    change (Q2Qc 0) with 0%Qc; change (Q2Qc 1) with 1%Qc; ring.
Qed.

Lemma c_mul_j_neg_quarter (h : complex) :
  c_mul (c_mul c_j (c_neg quarter)) h = c_div_Z (c_mul (c_neg c_j) h) 4.
Proof.
  apply c_ext; simpl; rewrite Q2Qc_inv_Z; unfold Qcdiv;
    change (Q2Qc 0) with 0%Qc; change (Q2Qc 1) with 1%Qc; ring.
Qed.

Lemma c_mul_minus_one_twice (c : complex) :
  c_mul (c_of_Z (-1)) (c_mul (c_of_Z (-1)) c) = c.
Proof.
  destruct c as [a b]. apply c_ext; simpl;
    change (Q2Qc (inject_Z (-1))) with (- (1%Qc))%Qc;
    change (Q2Qc 0) with 0%Qc; ring.
Qed.

Lemma neg_neg (a : SparsePauliOp) : neg (neg a) = a.
Proof.
  unfold neg, scale. rewrite map_map. rewrite <- (map_id a) at 2. apply map_ext.
  intros [p c]. simpl. by rewrite c_mul_minus_one_twice.
Qed.

Lemma edge_operator_aij_returns (el : edge_list) (i j : nat) :
  el <> [] -> exists a, edge_operator_aij el i j = Ok a.
Proof.
  intros Hne. rewrite edge_operator_aij_closed, find_edge_position.
  destruct (edge_position el i j) as [pos|] eqn:Hpos.
  - apply edge_position_Some in Hpos as (e & He%lookup_lt_Some & _).
    rewrite np_setitem_nat by (by rewrite length_replicate). simpl. eauto.
  - rewrite np_setitem_minus_one, length_replicate.
    case_decide; [by destruct el|]. simpl. eauto.
Qed.

(** ** The two-body formulas in closed form *)

Lemma _double_excitation_closed (el : edge_list) (p q r s : nat) (h : complex)
    (a_pq a_rs : SparsePauliOp) :
  edge_operator_aij el p q = Ok a_pq ->
  edge_operator_aij el r s = Ok a_rs ->
  _double_excitation el p q r s h
  = Ok (double_excitation_formula el p q r s h a_pq a_rs).
Proof.
  intros Hpq Hrs. unfold _double_excitation.
  rewrite !edge_operator_bi_closed, Hpq, Hrs. cbn [bind].
  unfold double_excitation_formula, shape1. rewrite c_mul_eighth.
  fold (B el p) (B el q) (B el r) (B el s).
  fold (signed a_pq p q) (signed a_rs r s).
  unfold sum_ops, sub, add. cbn [foldr].
  by rewrite app_nil_r, <- !app_assoc.
Qed.

Lemma _number_excitation_closed (el : edge_list) (p q r s : nat) (h : complex) :
  _number_excitation el p q r s h
  = if p =? r then
      let! a := edge_operator_aij el q s in
      Ok (number_excitation_formula el q s p true h a)
    else if p =? s then
      let! a := edge_operator_aij el q r in
      Ok (number_excitation_formula el q r p false h a)
    else if q =? r then
      let! a := edge_operator_aij el p s in
      Ok (number_excitation_formula el p s q false h a)
    else if q =? s then
      let! a := edge_operator_aij el p r in
      Ok (number_excitation_formula el p r q true h a)
    else Raise (ValueError "unexpected sequence of indices").
Proof.
  unfold _number_excitation. rewrite !edge_operator_bi_closed. cbn [bind].
  unfold number_excitation_formula, shape1.
  fold (B el p) (B el q) (B el r) (B el s).
  destruct (p =? r); [|destruct (p =? s); [|destruct (q =? r);
    [|destruct (q =? s); [|done]]]];
    rewrite ?edge_operator_bi_closed; cbn [bind];
    match goal with
    | |- context [edge_operator_aij el ?a ?b] =>
        destruct (edge_operator_aij el a b) as [x|]; cbn [bind]; [|done]
    end;
    rewrite ?c_mul_j_quarter, ?c_mul_j_neg_quarter; reflexivity.
Qed.

Lemma _double_excitation_returns (el : edge_list) (p q r s : nat) (h : complex) :
  el <> [] ->
  exists a_pq a_rs,
    edge_operator_aij el p q = Ok a_pq
    /\ edge_operator_aij el r s = Ok a_rs
    /\ _double_excitation el p q r s h
       = Ok (double_excitation_formula el p q r s h a_pq a_rs).
Proof.
  intros Hne.
  destruct (edge_operator_aij_returns el p q Hne) as [a_pq Hpq].
  destruct (edge_operator_aij_returns el r s Hne) as [a_rs Hrs].
  exists a_pq, a_rs. auto using _double_excitation_closed.
Qed.

(** C3. For every quadruple [(p, q, r, s)] whose pairs [(p, q)] and
    [(r, s)] are edges and every coefficient [h], [_double_excitation]
    returns [h/8] times [A'(p,q) A'(r,s)] times
    [-I - B(p)B(q) + B(p)B(r) + B(p)B(s) + B(q)B(r) + B(q)B(s) - B(r)B(s)
     - B(p)B(q)B(r)B(s)], where [A'(p,q)] is [A(p,q)] negated exactly when
    [q < p] and [A'(r,s)] is [A(r,s)] negated exactly when [s < r]. *)
Theorem double_excitation_spec (el : edge_list) (p q r s : nat) (h : complex) :
  is_edge el p q = true ->
  is_edge el r s = true ->
  exists pos_pq pos_rs,
    edge_position el p q = Some pos_pq
    /\ edge_position el r s = Some pos_rs
    /\ _double_excitation el p q r s h
       = Ok (double_excitation_formula el p q r s h
               (of_pauli (A_spec el p q pos_pq))
               (of_pauli (A_spec el r s pos_rs)))
    /\ signed (of_pauli (A_spec el p q pos_pq)) p q
       = (if q <? p then neg (of_pauli (A_spec el p q pos_pq))
          else of_pauli (A_spec el p q pos_pq))
    /\ signed (of_pauli (A_spec el r s pos_rs)) r s
       = (if s <? r then neg (of_pauli (A_spec el r s pos_rs))
          else of_pauli (A_spec el r s pos_rs)).
Proof.
  intros (pos_pq & Hpq)%is_edge_position (pos_rs & Hrs)%is_edge_position.
  exists pos_pq, pos_rs. split; [done|]. split; [done|].
  split; [|done].
  apply _double_excitation_closed; by apply edge_operator_aij_at_edge.
Qed.

Lemma double_excitation_spec_witness :
  is_edge [(0, 2); (1, 3)] 2 0 = true
  /\ is_edge [(0, 2); (1, 3)] 1 3 = true
  /\ _double_excitation [(0, 2); (1, 3)] 2 0 1 3 c_one
     = Ok (double_excitation_formula [(0, 2); (1, 3)] 2 0 1 3 c_one
             (of_pauli (A_spec [(0, 2); (1, 3)] 2 0 0))
             (of_pauli (A_spec [(0, 2); (1, 3)] 1 3 1))).
Proof.
  split; [reflexivity|]. split; [reflexivity|].
  destruct (double_excitation_spec [(0, 2); (1, 3)] 2 0 1 3 c_one
              eq_refl eq_refl) as (pos_pq & pos_rs & Hpq & Hrs & Hrun & _).
  injection Hpq as <-. injection Hrs as <-. exact Hrun.
Defined.

Lemma _number_excitation_at_edge (el : edge_list) (p q r s a b shared : nat)
    (positive : bool) (h : complex) :
  _number_excitation el p q r s h
  = (let! x := edge_operator_aij el a b in
     Ok (number_excitation_formula el a b shared positive h x)) ->
  is_edge el a b = true ->
  exists pos,
    edge_position el a b = Some pos
    /\ _number_excitation el p q r s h
       = Ok (number_excitation_formula el a b shared positive h
               (of_pauli (A_spec el a b pos))).
Proof.
  intros -> (pos & Hpos)%is_edge_position. exists pos. split; [done|].
  by rewrite (edge_operator_aij_at_edge el a b pos Hpos).
Qed.

(** C4. For a quadruple [(p, q, r, s)] with exactly one of [p = r],
    [p = s], [q = r], [q = s], [_number_excitation] returns
    [(A' B_third + B_other A') (I - B_shared)] scaled by [+i h/4] when
    [p = r], [-i h/4] when [p = s], [-i h/4] when [q = r] and [+i h/4] when
    [q = s], where [A'] is [A] between the two modes that are not shared,
    negated when they come out of ascending order; for a quadruple with
    none of the four equalities it raises [ValueError]. *)
Theorem number_excitation_spec (el : edge_list) (p q r s : nat) (h : complex) :
  (exactly_one_shared p q r s ->
     (p = r -> is_edge el q s = true ->
        exists pos, edge_position el q s = Some pos
          /\ _number_excitation el p q r s h
             = Ok (number_excitation_formula el q s p true h
                     (of_pauli (A_spec el q s pos))))
  /\ (p = s -> is_edge el q r = true ->
        exists pos, edge_position el q r = Some pos
          /\ _number_excitation el p q r s h
             = Ok (number_excitation_formula el q r p false h
                     (of_pauli (A_spec el q r pos))))
  /\ (q = r -> is_edge el p s = true ->
        exists pos, edge_position el p s = Some pos
          /\ _number_excitation el p q r s h
             = Ok (number_excitation_formula el p s q false h
                     (of_pauli (A_spec el p s pos))))
  /\ (q = s -> is_edge el p r = true ->
        exists pos, edge_position el p r = Some pos
          /\ _number_excitation el p q r s h
             = Ok (number_excitation_formula el p r q true h
                     (of_pauli (A_spec el p r pos)))))
  /\ (p <> r -> p <> s -> q <> r -> q <> s ->
      _number_excitation el p q r s h
      = Raise (ValueError "unexpected sequence of indices")).
Proof.
  split.
  - intros Hone. repeat split; intros Heq; apply _number_excitation_at_edge;
      rewrite _number_excitation_closed;
      unfold exactly_one_shared in Hone; nat_cases.
  - intros. rewrite _number_excitation_closed. nat_cases.
Qed.

Lemma number_excitation_spec_witness :
  exactly_one_shared 0 1 0 2
  /\ is_edge [(1, 2)] 1 2 = true
  /\ _number_excitation [(1, 2)] 0 1 0 2 c_one
     = Ok (number_excitation_formula [(1, 2)] 1 2 0 true c_one
             (of_pauli (A_spec [(1, 2)] 1 2 0)))
  /\ _number_excitation [(1, 2)] 0 1 2 3 c_one
     = Raise (ValueError "unexpected sequence of indices").
Proof.
  assert (Hone : exactly_one_shared 0 1 0 2) by (left; repeat split; lia).
  split; [exact Hone|]. split; [reflexivity|].
  destruct (number_excitation_spec [(1, 2)] 0 1 0 2 c_one) as [Hcases _].
  destruct (Hcases Hone) as (Hpr & _).
  destruct (Hpr eq_refl eq_refl) as (pos & Hpos & Hrun).
  injection Hpos as <-. split; [exact Hrun|].
  apply (number_excitation_spec [(1, 2)] 0 1 2 3 c_one); lia.
Defined.

(** C10. [edge_operator_aij] gives the same result for the argument orders
    [(i, j)] and [(j, i)], also when it raises; the sign of [A(j, i) = -
    A(i, j)] comes from the callers, whose signed value changes sign when
    two distinct modes are swapped. The callers are the three formulas
    with an [A] factor. [_double_excitation] uses the value of
    [edge_operator_aij el p q] negated exactly when [q < p] and the value
    of [edge_operator_aij el r s] negated exactly when [s < r].
    [_number_excitation] uses, in each of its four branches, the value of
    [edge_operator_aij el a b] negated exactly when [b < a]. The third,
    [_excitation_operator], never negates: it raises when [q <= p]. *)
Theorem edge_operator_aij_symmetric (el : edge_list) (i j : nat)
    (a : SparsePauliOp) :
  edge_operator_aij el i j = edge_operator_aij el j i
  /\ (i <> j -> signed a j i = neg (signed a i j))
  /\ (forall p q r s h a_pq a_rs,
        edge_operator_aij el p q = Ok a_pq ->
        edge_operator_aij el r s = Ok a_rs ->
        _double_excitation el p q r s h
        = Ok (scale (c_div_Z h 8)
                (dot (dot (if q <? p then neg a_pq else a_pq)
                          (if s <? r then neg a_rs else a_rs))
                   (sum_ops
                      [ neg (_pauli_id (length el));
                        neg (dot (B el p) (B el q));
                        dot (B el p) (B el r);
                        dot (B el p) (B el s);
                        dot (B el q) (B el r);
                        dot (B el q) (B el s);
                        neg (dot (B el r) (B el s));
                        neg (dot (dot (dot (B el p) (B el q)) (B el r))
                               (B el s)) ]))))
  /\ (forall p q r s h,
        let branch (a b shared : nat) (positive : bool) :=
          let! a_ab := edge_operator_aij el a b in
          let a_ab := if b <? a then neg a_ab else a_ab in
          Ok (scale (c_div_Z (c_mul (if positive then c_j else c_neg c_j) h) 4)
                (dot (add (dot a_ab (B el b)) (dot (B el a) a_ab))
                   (sub (_pauli_id (length el)) (B el shared)))) in
        _number_excitation el p q r s h
        = if p =? r then branch q s p true
          else if p =? s then branch q r p false
          else if q =? r then branch p s q false
          else if q =? s then branch p r q true
          else Raise (ValueError "unexpected sequence of indices"))
  /\ (forall p q h,
        q <= p -> raises (_excitation_operator el p q h) = true).
Proof.
  split; [|split; [|split; [|split]]].
  - rewrite !edge_operator_aij_closed, find_edge_sym.
    destruct (np_setitem _ (find_edge el j i) true) as [w|]; simpl; [|done].
    do 3 f_equal. apply map_ext. intros e. apply orb_comm.
  - intros Hne. unfold signed.
    destruct (Nat.ltb_spec i j), (Nat.ltb_spec j i); try lia; [done|].
    by rewrite neg_neg.
  - intros p q r s h a_pq a_rs Hpq Hrs.
    by rewrite (_double_excitation_closed el p q r s h a_pq a_rs Hpq Hrs).
  - intros p q r s h. cbv zeta. rewrite _number_excitation_closed.
    reflexivity.
  - intros p q h Hqp. unfold _excitation_operator.
    by rewrite (proj2 (Nat.leb_le q p) Hqp).
Qed.

Lemma edge_operator_aij_symmetric_witness :
  2 <> 3
  /\ edge_operator_aij complete4 2 3 = edge_operator_aij complete4 3 2
  /\ signed (_pauli_id 6) 3 2 = neg (signed (_pauli_id 6) 2 3)
  /\ (exists a_20 a_13 rest,
        edge_operator_aij [(0, 2); (1, 3)] 2 0 = Ok a_20
        /\ edge_operator_aij [(0, 2); (1, 3)] 1 3 = Ok a_13
        /\ _double_excitation [(0, 2); (1, 3)] 2 0 1 3 c_one
           = Ok (scale (c_div_Z c_one 8) (dot (dot (neg a_20) a_13) rest)))
  /\ raises (_excitation_operator [(0, 2); (1, 3)] 2 0 c_one) = true.
Proof.
  split; [lia|].
  destruct (edge_operator_aij_symmetric complete4 2 3 (_pauli_id 6))
    as (Hsym & Hsign & _).
  split; [exact Hsym|]. split; [apply Hsign; lia|].
  destruct (edge_operator_aij_symmetric [(0, 2); (1, 3)] 0 0 [])
    as (_ & _ & Hdouble & _ & Hexcitation).
  split; [|apply Hexcitation; lia].
  destruct (edge_operator_aij_returns [(0, 2); (1, 3)] 2 0) as [a_20 H20];
    [done|].
  destruct (edge_operator_aij_returns [(0, 2); (1, 3)] 1 3) as [a_13 H13];
    [done|].
  exists a_20, a_13. eexists. split; [exact H20|]. split; [exact H13|].
  rewrite (Hdouble 2 0 1 3 c_one a_20 a_13 H20 H13). reflexivity.
Defined.

(** ** The interaction classifier *)

(** C7, on the code. [_interaction_type] follows the table on every triple
    of counts except those with two raising and two lowering operators and
    at least one number operator: there it returns [double_excitation]
    where the table has no row. The term [N++--] is such an input. *)
Theorem _interaction_type_table :
  (forall n_number n_raise n_lower,
      (n_number = 0 \/ n_raise <> 2 \/ n_lower <> 2) ->
      match interaction_table n_number n_raise n_lower with
      | Some category =>
          _interaction_type n_number n_raise n_lower = Ok category
      | None => raises (_interaction_type n_number n_raise n_lower) = true
      end)
  /\ (forall n_number,
        interaction_table (S n_number) 2 2 = None
        /\ _interaction_type (S n_number) 2 2 = Ok double_excitation)
  /\ fst <$> (match _analyze_term "N++--" with
              | Ok r => Some r
              | Raise _ => None
              end) = Some double_excitation.
Proof.
  split; [|split].
  - intros n a b Hrow.
    destruct n as [|[|[|n]]], a as [|[|[|a]]], b as [|[|[|b]]];
      try reflexivity; lia.
  - intros n. split; [by destruct n as [|[|n]] | reflexivity].
  - reflexivity.
Qed.

Lemma _interaction_type_table_witness :
  (3 = 0 \/ 3 <> 2 \/ 0 <> 2)
  /\ raises (_interaction_type 3 3 0) = true
  /\ _interaction_type 1 2 2 = Ok double_excitation.
Proof.
  split; [lia|]. split.
  - apply (proj1 _interaction_type_table 3 3 0). lia.
  - apply (proj1 (proj2 _interaction_type_table) 0).
Defined.

(** ** Reordering to physicist order *)

(** C5. On a four-factor list in ascending index order,
    [_to_physicist_index_order] returns the list itself with phase [1] for
    the kinds [(+,+,-,-)], [[f0, f2, f1, f3]] with phase [-1] for
    [(+,-,+,-)] and [[f0, f3, f1, f2]] with phase [1] for [(+,-,-,+)],
    each result being two creation factors then two annihilation factors,
    both pairs in ascending mode order; on every other kind pattern it
    raises [ValueError]. *)
Theorem _to_physicist_index_order_spec (f0 f1 f2 f3 : factor) :
  fst f0 <= fst f1 -> fst f1 <= fst f2 -> fst f2 <= fst f3 ->
  (kinds [f0; f1; f2; f3] = ["+"; "+"; "-"; "-"]%char ->
     _to_physicist_index_order [f0; f1; f2; f3] = Ok ([f0; f1; f2; f3], 1%Z)
     /\ physicist_order [f0; f1; f2; f3])
  /\ (kinds [f0; f1; f2; f3] = ["+"; "-"; "+"; "-"]%char ->
     _to_physicist_index_order [f0; f1; f2; f3] = Ok ([f0; f2; f1; f3], (-1)%Z)
     /\ physicist_order [f0; f2; f1; f3])
  /\ (kinds [f0; f1; f2; f3] = ["+"; "-"; "-"; "+"]%char ->
     _to_physicist_index_order [f0; f1; f2; f3] = Ok ([f0; f3; f1; f2], 1%Z)
     /\ physicist_order [f0; f3; f1; f2])
  /\ (kinds [f0; f1; f2; f3] <> ["+"; "+"; "-"; "-"]%char ->
      kinds [f0; f1; f2; f3] <> ["+"; "-"; "+"; "-"]%char ->
      kinds [f0; f1; f2; f3] <> ["+"; "-"; "-"; "+"]%char ->
      _to_physicist_index_order [f0; f1; f2; f3]
      = Raise (ValueError "unexpected sequence of operators")).
Proof.
  destruct f0 as [i0 k0], f1 as [i1 k1], f2 as [i2 k2], f3 as [i3 k3].
  simpl. intros H01 H12 H23. unfold kinds, physicist_order. simpl.
  split; [|split; [|split]].
  - intros [= -> -> -> ->]. split; [reflexivity|].
    exists i0, i1, i2, i3. repeat split; lia.
  - intros [= -> -> -> ->]. split; [reflexivity|].
    exists i0, i2, i1, i3. repeat split; lia.
  - intros [= -> -> -> ->]. split; [reflexivity|].
    exists i0, i3, i1, i2. repeat split; lia.
  - intros. unfold _to_physicist_index_order. simpl. by rewrite !decide_False.
Qed.

Lemma _to_physicist_index_order_spec_witness :
  0 <= 0 /\ 0 <= 1 /\ 1 <= 2
  /\ _to_physicist_index_order [(0, "+"); (0, "-"); (1, "+"); (2, "-")]%char
     = Ok ([(0, "+"); (1, "+"); (0, "-"); (2, "-")]%char, (-1)%Z)
  /\ _to_physicist_index_order [(0, "+"); (1, "-"); (2, "-"); (3, "+")]%char
     = Ok ([(0, "+"); (3, "+"); (1, "-"); (2, "-")]%char, 1%Z)
  /\ _to_physicist_index_order [(0, "-"); (1, "+"); (2, "-"); (3, "+")]%char
     = Raise (ValueError "unexpected sequence of operators").
Proof.
  split; [lia|]. split; [lia|]. split; [lia|]. split; [|split].
  - apply (_to_physicist_index_order_spec
             (0, "+"%char) (0, "-"%char) (1, "+"%char) (2, "-"%char));
      simpl; (lia || reflexivity).
  - apply (_to_physicist_index_order_spec
             (0, "+"%char) (1, "-"%char) (2, "-"%char) (3, "+"%char));
      simpl; (lia || reflexivity).
  - apply (_to_physicist_index_order_spec
             (0, "-"%char) (1, "+"%char) (2, "-"%char) (3, "+"%char));
      simpl; (lia || discriminate).
Defined.

(** ** The graph builder *)

Lemma for_each_invariant {S X : Type} (Inv : S -> Prop)
    (body : S -> X -> result S) (xs : list X) (s s' : S) :
  (forall s x s', body s x = Ok s' -> Inv s -> Inv s') ->
  Inv s -> for_each body s xs = Ok s' -> Inv s'.
Proof.
  intros Hbody. revert s. induction xs as [|x xs IH]; simpl; intros s Hs Hrun.
  - by injection Hrun as <-.
  - apply bind_inv_Ok in Hrun as (s1 & Hstep & Hrest). eauto.
Qed.

Lemma upper_triangular_zeros (n : nat) : upper_triangular (np_zeros2 n).
Proof.
  intros r c row Hrow Hc. unfold np_zeros2 in Hrow.
  apply lookup_replicate in Hrow as [-> _].
  apply lookup_replicate in Hc as [? _]. done.
Qed.

Lemma matrix_set_upper (m m' : edge_matrix) (i j : nat) :
  i < j -> matrix_set m i j = Ok m' -> upper_triangular m ->
  upper_triangular m'.
Proof.
  unfold matrix_set. intros Hij Hset Hup.
  destruct (m !! i) as [row|] eqn:Hrow; [|done].
  destruct (Nat.ltb_spec j (length row)); [|done]. injection Hset as <-.
  intros r c row' Hr Hc. destruct (decide (i = r)) as [->|Hne].
  - rewrite list_lookup_insert_eq in Hr by (by apply lookup_lt_Some in Hrow).
    injection Hr as <-. destruct (decide (j = c)) as [->|Hnc]; [done|].
    rewrite list_lookup_insert_ne in Hc by done. by apply (Hup r c row).
  - rewrite list_lookup_insert_ne in Hr by done. by apply (Hup r c row').
Qed.

Lemma _add_one_edge_upper (m m' : edge_matrix) (i j : nat) :
  _add_one_edge m i j = Ok m' -> upper_triangular m -> upper_triangular m'.
Proof.
  unfold _add_one_edge.
  destruct (Nat.ltb_spec i j); [by apply matrix_set_upper|].
  destruct (Nat.ltb_spec j i); [by apply matrix_set_upper|done].
Qed.

Lemma add_one_edge_star_upper (m m' : edge_matrix) (inds : list nat) :
  add_one_edge_star m inds = Ok m' -> upper_triangular m ->
  upper_triangular m'.
Proof.
  destruct inds as [|i [|j [|k inds]]]; simpl; try done.
  apply _add_one_edge_upper.
Qed.

Lemma _add_edges_for_term_upper (m m' : edge_matrix) (term_str : string) :
  _add_edges_for_term m term_str = Ok m' -> upper_triangular m ->
  upper_triangular m'.
Proof.
  unfold _add_edges_for_term. intros Hrun Hup.
  apply bind_inv_Ok in Hrun as ([[[n a] b] facs] & _ & Hrun).
  apply bind_inv_Ok in Hrun as (ttype & _ & Hrun).
  destruct ttype.
  - by injection Hrun as <-.
  - by injection Hrun as <-.
  - destruct (negb _); [done|]. by apply add_one_edge_star_upper in Hrun.
  - destruct (negb _); [done|]. by apply add_one_edge_star_upper in Hrun.
  - apply bind_inv_Ok in Hrun as (m1 & H1 & H2).
    apply add_one_edge_star_upper in H1; [|done].
    by apply add_one_edge_star_upper in H2.
Qed.

Lemma _get_adjacency_matrix_upper (fer_op : FermionicOp) (m : edge_matrix) :
  _get_adjacency_matrix fer_op = Ok m -> upper_triangular m.
Proof.
  unfold _get_adjacency_matrix. intros Hrun.
  apply bind_inv_Ok in Hrun as (n & _ & Hrun).
  eapply (for_each_invariant upper_triangular); [|apply upper_triangular_zeros|exact Hrun].
  intros s x s'. apply _add_edges_for_term_upper.
Qed.

Lemma NoDup_positions_from {A : Type} (P : A -> bool) (l : list A) (k : nat) :
  NoDup (positions_from P k l).
Proof.
  revert k. induction l as [|a l IH]; intros k; simpl; [constructor|].
  destruct (P a); [|done]. constructor; [|done].
  rewrite elem_of_positions_from. lia.
Qed.

Lemma elem_of_nonzero_from (m : edge_matrix) (k r c : nat) :
  (r, c) ∈ nonzero_from k m
  <-> k <= r /\ exists row, m !! (r - k) = Some row /\ row !! c = Some true.
Proof.
  revert k. induction m as [|row m IH]; intros k; simpl.
  - split; [by intros ?%elem_of_nil | by intros (_ & ? & ? & _)].
  - rewrite elem_of_app, list_elem_of_fmap, IH. split.
    + intros [(c' & [= -> ->] & Hc)|(Hle & row' & Hrow & Hc)].
      * split; [lia|]. exists row. rewrite Nat.sub_diag. split; [done|].
        apply elem_of_positions in Hc as (b & Hb & Htrue). simpl in Htrue.
        by subst.
      * split; [lia|]. exists row'. split; [|done].
        replace (r - k) with (S (r - S k)) by lia. done.
    + intros (Hle & row' & Hrow & Hc). destruct (decide (r = k)) as [->|Hne].
      * left. exists c. split; [done|]. rewrite Nat.sub_diag in Hrow.
        injection Hrow as <-. apply elem_of_positions. by exists true.
      * right. split; [lia|]. exists row'. split; [|done].
        replace (r - k) with (S (r - S k)) in Hrow by lia. done.
Qed.

Lemma NoDup_nonzero_from (m : edge_matrix) (k : nat) : NoDup (nonzero_from k m).
Proof.
  revert k. induction m as [|row m IH]; intros k; simpl; [constructor|].
  apply NoDup_app. split; [|split; [|done]].
  - apply NoDup_fmap_2; [|apply NoDup_positions_from]. by intros ?? [= ->].
  - intros [r c] (c' & [= -> ->] & _)%list_elem_of_fmap.
    rewrite elem_of_nonzero_from. lia.
Qed.

Lemma matrix_set_twice (m m' : edge_matrix) (i j : nat) :
  matrix_set m i j = Ok m' -> matrix_set m' i j = Ok m'.
Proof.
  unfold matrix_set. intros Hset.
  destruct (m !! i) as [row|] eqn:Hrow; [|done].
  destruct (Nat.ltb_spec j (length row)); [|done]. injection Hset as <-.
  rewrite list_lookup_insert_eq by (by apply lookup_lt_Some in Hrow).
  rewrite length_insert. destruct (Nat.ltb_spec j (length row)); [|lia].
  by rewrite list_insert_insert_eq, list_insert_insert_eq.
Qed.

(** ** The unpacking loop *)

Lemma unpack_body_char_step (e : bool) (cnt : counts) (acc : list factor)
    (i : nat) (c : ascii) :
  unpack_body e (cnt, acc) (i, c)
  = match char_step e i c with
    | Some (dc, fs) => Ok (add_counts cnt dc, acc ++ fs)
    | None => Raise (unexpected_operator c)
    end.
Proof.
  destruct cnt as [[n a] b]. unfold unpack_body, char_step.
  destruct (Ascii.eqb c "I"); simpl;
    [by rewrite !Nat.add_0_r, app_nil_r|].
  destruct (Ascii.eqb c "+"); simpl;
    [by rewrite !Nat.add_0_r, Nat.add_1_r|].
  destruct (Ascii.eqb c "-"); simpl;
    [by rewrite !Nat.add_0_r, Nat.add_1_r|].
  destruct (Ascii.eqb c "N"); simpl; [|done].
  rewrite !Nat.add_0_r, Nat.add_1_r. by destruct e.
Qed.

Lemma add_counts_assoc (a b c : counts) :
  add_counts (add_counts a b) c = add_counts a (add_counts b c).
Proof.
  destruct a as [[? ?] ?], b as [[? ?] ?], c as [[? ?] ?]. simpl.
  by rewrite !Nat.add_assoc.
Qed.

Lemma add_counts_0_r (a : counts) : add_counts a (0, 0, 0) = a.
Proof. destruct a as [[? ?] ?]. simpl. by rewrite !Nat.add_0_r. Qed.

Lemma char_step_None (e : bool) (i : nat) (c : ascii) :
  char_step e i c = None -> valid_char c = false.
Proof.
  unfold char_step, valid_char.
  destruct (Ascii.eqb c "I"); [done|]. destruct (Ascii.eqb c "+"); [done|].
  destruct (Ascii.eqb c "-"); [done|]. by destruct (Ascii.eqb c "N").
Qed.

Lemma char_step_Some (e : bool) (i : nat) (c : ascii)
    (r : counts * list factor) :
  char_step e i c = Some r -> valid_char c = true.
Proof.
  unfold char_step, valid_char.
  destruct (Ascii.eqb c "I"); [done|]. destruct (Ascii.eqb c "+"); [done|].
  destruct (Ascii.eqb c "-"); [done|]. by destruct (Ascii.eqb c "N").
Qed.

Lemma first_invalid_cons (c : ascii) (s : list ascii) :
  first_invalid (c :: s) = if valid_char c then first_invalid s else Some c.
Proof.
  unfold first_invalid. cbn [list_find].
  destruct (valid_char c); [|done].
  rewrite decide_False by done. by destruct (list_find _ s) as [[k d]|].
Qed.

Lemma unpack_loop_unpack_from (e : bool) (s : list ascii) (i : nat)
    (cnt : counts) (acc : list factor) :
  match unpack_from e i s with
  | Some (dc, fs) =>
      for_each (unpack_body e) (cnt, acc) (enumerate_from i s)
      = Ok (add_counts cnt dc, acc ++ fs)
  | None =>
      exists c,
        first_invalid s = Some c
        /\ for_each (unpack_body e) (cnt, acc) (enumerate_from i s)
           = Raise (unexpected_operator c)
  end.
Proof.
  revert i cnt acc. induction s as [|c s IH]; intros i cnt acc.
  - simpl. by rewrite add_counts_0_r, app_nil_r.
  - cbn [for_each enumerate_from unpack_from].
    rewrite unpack_body_char_step, first_invalid_cons.
    destruct (char_step e i c) as [[dc fs]|] eqn:Hc; cbn [bind].
    + rewrite (char_step_Some _ _ _ _ Hc).
      specialize (IH (S i) (add_counts cnt dc) (acc ++ fs)).
      destruct (unpack_from e (S i) s) as [[dc' fs']|]; [|done].
      by rewrite IH, add_counts_assoc, app_assoc.
    + rewrite (char_step_None _ _ _ Hc). by exists c.
Qed.

Lemma _unpack_term_unpack_from (t : string) (e : bool) :
  match unpack_from e 0 (list_ascii_of_string t) with
  | Some r => _unpack_term t e = Ok r
  | None =>
      exists c,
        first_invalid (list_ascii_of_string t) = Some c
        /\ _unpack_term t e = Raise (unexpected_operator c)
  end.
Proof.
  unfold _unpack_term.
  pose proof (unpack_loop_unpack_from e (list_ascii_of_string t) 0 (0, 0, 0) [])
    as Hloop.
  destruct (unpack_from e 0 _) as [[[[n a] b] fs]|]; done.
Qed.

Lemma char_step_inv (e : bool) (i : nat) (c : ascii) (r : counts * list factor) :
  char_step e i c = Some r ->
  (c = "I"%char /\ r = ((0, 0, 0), []))
  \/ (c = "+"%char /\ r = ((0, 1, 0), [(i, "+"%char)]))
  \/ (c = "-"%char /\ r = ((0, 0, 1), [(i, "-"%char)]))
  \/ (c = "N"%char
      /\ r = ((1, 0, 0),
              if e then [(i, "+"%char); (i, "-"%char)] else [(i, "N"%char)])).
Proof.
  unfold char_step.
  destruct (Ascii.eqb_spec c "I"); [intros [= <-]; auto|].
  destruct (Ascii.eqb_spec c "+"); [intros [= <-]; auto|].
  destruct (Ascii.eqb_spec c "-"); [intros [= <-]; auto|].
  destruct (Ascii.eqb_spec c "N"); [intros [= <-]; auto 6|done].
Qed.

Lemma unpack_from_cons_inv (e : bool) (i : nat) (c : ascii) (s : list ascii)
    (r : counts * list factor) :
  unpack_from e i (c :: s) = Some r ->
  exists dc fs cnt facs,
    char_step e i c = Some (dc, fs)
    /\ unpack_from e (S i) s = Some (cnt, facs)
    /\ r = (add_counts dc cnt, fs ++ facs).
Proof.
  simpl. destruct (char_step e i c) as [[dc fs]|]; [|done].
  destruct (unpack_from e (S i) s) as [[cnt facs]|]; [|done].
  intros [= <-]. eauto 10.
Qed.

(** Case analysis on the first character of an unpacked string. *)
Ltac unpack_cons H :=
  let dc := fresh "dc" in
  let fs := fresh "fs" in
  let cnt := fresh "cnt" in
  let facs := fresh "facs" in
  let Hc := fresh "Hc" in
  let Hs := fresh "Hs" in
  apply unpack_from_cons_inv in H as (dc & fs & cnt & facs & Hc & Hs & ->);
  apply char_step_inv in Hc as [[-> [= -> ->]]|[[-> [= -> ->]]|
                                 [[-> [= -> ->]]|[-> [= -> ->]]]]].

Lemma unpack_from_counts (e : bool) (s : list ascii) (i : nat)
    (r : counts * list factor) :
  unpack_from e i s = Some r ->
  fst r = (count_char "N" s, count_char "+" s, count_char "-" s).
Proof.
  revert i r. induction s as [|c s IH]; intros i r H.
  - by injection H as <-.
  - unpack_cons H; pose proof (IH _ _ Hs) as Hcnt; simpl in Hcnt;
      subst cnt; reflexivity.
Qed.

Lemma unpack_from_length (s : list ascii) (i : nat) (r : counts * list factor) :
  unpack_from true i s = Some r ->
  length (snd r)
  = 2 * n_number_of (fst r) + n_raise_of (fst r) + n_lower_of (fst r).
Proof.
  revert i r. induction s as [|c s IH]; intros i r H.
  - by injection H as <-.
  - unpack_cons H; pose proof (IH _ _ Hs) as Hlen; destruct cnt as [[n a] b];
      unfold n_number_of, n_raise_of, n_lower_of in *; simpl in *; lia.
Qed.

Lemma unpack_from_ge (e : bool) (s : list ascii) (i : nat)
    (r : counts * list factor) :
  unpack_from e i s = Some r -> Forall (fun f => i <= fst f) (snd r).
Proof.
  revert i r. induction s as [|c s IH]; intros i r H.
  - injection H as <-. constructor.
  - unpack_cons H; pose proof (IH _ _ Hs) as Hge; simpl in *;
      try destruct e; repeat (constructor; [simpl; lia|]);
      (eapply Forall_impl; [exact Hge|]); simpl; lia.
Qed.

Lemma unpack_from_no_ladder (e : bool) (s : list ascii) (i : nat)
    (r : counts * list factor) :
  unpack_from e i s = Some r ->
  n_raise_of (fst r) = 0 -> n_lower_of (fst r) = 0 ->
  map hc_char s = s.
Proof.
  revert i r. induction s as [|c s IH]; intros i r H; [done|].
  unpack_cons H; destruct cnt as [[n a] b];
    unfold n_raise_of, n_lower_of in *; simpl; intros Ha Hb; try lia.
  all: f_equal; by apply (IH _ _ Hs).
Qed.

(** The conjugate string unpacks to the same number count with the raising
    and lowering counts exchanged; its first expanded factor and that of
    the string are not both lowering, and when neither is, the string has
    no factor at all or begins with a number operator. *)
Lemma unpack_from_hc (s : list ascii) (i : nat) (r : counts * list factor) :
  unpack_from true i s = Some r ->
  exists facs',
    unpack_from true i (map hc_char s)
    = Some ((n_number_of (fst r), n_lower_of (fst r), n_raise_of (fst r)), facs')
    /\ head_is_minus (snd r) && head_is_minus facs' = false
    /\ (head_is_minus (snd r) = false -> head_is_minus facs' = false ->
        snd r = [] \/ 1 <= n_number_of (fst r)).
Proof.
  revert i r. induction s as [|c s IH]; intros i r H.
  - injection H as <-. exists []. auto.
  - unpack_cons H; destruct (IH _ _ Hs) as (facs' & Hrun & Hnot & Hnone);
      destruct cnt as [[n a] b]; unfold n_number_of, n_raise_of, n_lower_of in *;
      simpl in *; rewrite Hrun.
    + exists facs'. auto.
    + exists ((i, "-"%char) :: facs'). simpl. split; [done|]. split; done.
    + exists ((i, "+"%char) :: facs'). simpl.
      split; [done|]. split; done.
    + exists ((i, "+"%char) :: (i, "-"%char) :: facs'). simpl.
      split; [done|]. split; [done|]. intros _ _. right. lia.
Qed.

Lemma interaction_table_two_numbers (n a b : nat) :
  is_Some (interaction_table (S (S n)) a b) -> a = 0 /\ b = 0.
Proof.
  destruct n as [|n], a as [|[|[|a]]], b as [|[|[|b]]]; simpl;
    intros [c Hc]; done.
Qed.

Lemma claim_skip_number_pair (i : nat) (facs : list factor) :
  claim_skip ((i, "+"%char) :: (i, "-"%char) :: facs) = head_is_minus facs.
Proof.
  destruct facs as [|[j k] facs]; simpl; [done|]. by rewrite Nat.eqb_refl.
Qed.

Lemma claim_skip_raising (i : nat) (facs : list factor) :
  Forall (fun f => S i <= fst f) facs ->
  claim_skip ((i, "+"%char) :: facs) = false.
Proof.
  intros Hge. destruct facs as [|[j k] [|[j' k'] facs]]; simpl; try done.
  inversion Hge as [|? ? Hj _]; subst. simpl in Hj.
  destruct (Nat.eqb_spec i j); [lia|done].
Qed.

(** A term and its conjugate: when they are one and the same the term is
    not passed over, otherwise exactly one of the two is. *)
Lemma claim_skip_hc (s : list ascii) (i : nat) (r r' : counts * list factor) :
  unpack_from true i s = Some r ->
  unpack_from true i (map hc_char s) = Some r' ->
  is_Some (interaction_table (n_number_of (fst r)) (n_raise_of (fst r))
             (n_lower_of (fst r))) ->
  (map hc_char s = s -> claim_skip (snd r) = false)
  /\ (map hc_char s <> s -> claim_skip (snd r') = negb (claim_skip (snd r))).
Proof.
  revert i r r'. induction s as [|c s IH]; intros i r r' H H' Htable.
  - injection H as <-. injection H' as <-. done.
  - pose proof H as H0. unpack_cons H.
    + (* I *)
      simpl in H'.
      destruct (unpack_from true (S i) (map hc_char s)) as [r''|] eqn:Hs';
        [|done].
      destruct r'' as [cnt'' facs'']. injection H' as <-.
      destruct (IH _ _ _ Hs Hs') as [Hsame Hdiff].
      { destruct cnt as [[? ?] ?]. exact Htable. }
      simpl. split.
      * intros [= Heq]. auto.
      * intros Hne. apply Hdiff. intros Heq. apply Hne. simpl.
        by rewrite Heq.
    + (* + *)
      apply unpack_from_cons_inv in H'
        as (dc & fs & cnt' & facs' & Hc' & _ & ->).
      injection Hc' as <- <-. split; [done|]. intros _.
      cbn [snd app]. rewrite claim_skip_raising; [done|].
      apply (unpack_from_ge _ _ _ _ Hs).
    + (* - *)
      apply unpack_from_cons_inv in H'
        as (dc & fs & cnt' & facs' & Hc' & Hs' & ->).
      injection Hc' as <- <-. split; [done|]. intros _.
      cbn [snd app]. rewrite claim_skip_raising; [done|].
      apply (unpack_from_ge _ _ _ _ Hs').
    + (* N *)
      destruct (unpack_from_hc _ _ _ Hs) as (facs' & Hs' & Hnot & Hnone).
      simpl in H'. rewrite Hs' in H'. injection H' as <-.
      cbn [snd app]. rewrite !claim_skip_number_pair.
      simpl in Hnot, Hnone.
      assert (Hself : head_is_minus facs = false ->
                      head_is_minus facs' = false -> map hc_char s = s).
      { intros Hh Hh'. apply (unpack_from_no_ladder _ _ _ _ Hs).
        all: destruct (Hnone Hh Hh') as [->|Hn].
        all: pose proof (unpack_from_length _ _ _ Hs) as Hlen; simpl in Hlen.
        all: destruct cnt as [[n a] b];
          unfold n_number_of, n_raise_of, n_lower_of in *; simpl in *;
          try lia.
        all: destruct n as [|n]; [lia|];
          apply interaction_table_two_numbers in Htable; lia. }
      destruct (head_is_minus facs) eqn:Hh, (head_is_minus facs') eqn:Hh';
        try done.
      * split; [|done]. intros [= Heq]. rewrite Heq in Hs'. congruence.
      * split; [done|]. intros Hne. destruct Hne. simpl. f_equal. auto.
Qed.

Lemma skip_test_claim_skip (facs : list factor) :
  2 <= length facs -> skip_test facs = Ok (claim_skip facs).
Proof.
  destruct facs as [|[i0 k0] [|[i1 k1] rest]]; simpl; try lia. intros _.
  unfold skip_test. simpl. destruct (Ascii.eqb k0 "-"); [done|]. simpl.
  destruct rest as [|[i2 k2] rest]; by destruct (i0 =? i1).
Qed.

Lemma _interaction_type_two_factors (n a b : nat) (c : interaction) :
  _interaction_type n a b = Ok c -> 2 <= 2 * n + a + b.
Proof.
  destruct n as [|n], a as [|[|a]], b as [|[|b]]; simpl; try done; lia.
Qed.

(** ** Every conversion formula returns at least one term *)

Lemma scale_nonempty (c : complex) (a : SparsePauliOp) : a <> [] -> scale c a <> [].
Proof. unfold scale. by destruct a. Qed.

Lemma neg_nonempty (a : SparsePauliOp) : a <> [] -> neg a <> [].
Proof. apply scale_nonempty. Qed.

Lemma add_nonempty_l (a b : SparsePauliOp) : a <> [] -> add a b <> [].
Proof. unfold add. by destruct a. Qed.

Lemma sub_nonempty_l (a b : SparsePauliOp) : a <> [] -> sub a b <> [].
Proof. apply add_nonempty_l. Qed.

Lemma dot_nonempty (a b : SparsePauliOp) : a <> [] -> b <> [] -> dot a b <> [].
Proof. unfold dot. by destruct a, b. Qed.

Lemma compose_nonempty (a b : SparsePauliOp) :
  a <> [] -> b <> [] -> compose a b <> [].
Proof. unfold compose. by destruct a, b. Qed.

Lemma signed_nonempty (a : SparsePauliOp) (i j : nat) :
  a <> [] -> signed a i j <> [].
Proof. unfold signed. destruct (j <? i); [apply neg_nonempty|done]. Qed.

Lemma B_nonempty (el : edge_list) (i : nat) : B el i <> [].
Proof. done. Qed.

Lemma _pauli_id_nonempty (n : nat) : _pauli_id n <> [].
Proof. done. Qed.

Lemma edge_operator_aij_nonempty (el : edge_list) (i j : nat) (a : SparsePauliOp) :
  edge_operator_aij el i j = Ok a -> a <> [].
Proof.
  rewrite edge_operator_aij_closed.
  intros (w & _ & [= <-])%bind_inv_Ok. done.
Qed.

Create HintDb nonempty.
#[local] Hint Resolve scale_nonempty neg_nonempty add_nonempty_l sub_nonempty_l
  dot_nonempty compose_nonempty signed_nonempty B_nonempty _pauli_id_nonempty
  edge_operator_aij_nonempty : nonempty.

Lemma _number_operator_nonempty (el : edge_list) (p : nat) (h : complex)
    (op : SparsePauliOp) :
  _number_operator el p h = Ok op -> op <> [].
Proof.
  unfold _number_operator. rewrite edge_operator_bi_closed. cbn [bind].
  intros [= <-]. auto with nonempty.
Qed.

Lemma _coulomb_exchange_nonempty (el : edge_list) (p q s : nat) (h : complex)
    (op : SparsePauliOp) :
  _coulomb_exchange el p q s h = Ok op -> op <> [].
Proof.
  unfold _coulomb_exchange. rewrite !edge_operator_bi_closed. cbn [bind].
  intros [= <-]. auto with nonempty.
Qed.

Lemma _excitation_operator_nonempty (el : edge_list) (p q : nat) (h : complex)
    (op : SparsePauliOp) :
  _excitation_operator el p q h = Ok op -> op <> [].
Proof.
  unfold _excitation_operator. destruct (q <=? p); [done|].
  rewrite !edge_operator_bi_closed. cbn [bind].
  intros (a & Ha & <-%Ok_inj)%bind_inv_Ok. eauto 6 with nonempty.
Qed.

Lemma _double_excitation_nonempty (el : edge_list) (p q r s : nat) (h : complex)
    (op : SparsePauliOp) :
  _double_excitation el p q r s h = Ok op -> op <> [].
Proof.
  intros Hrun. pose proof Hrun as Hrun'. unfold _double_excitation in Hrun'.
  rewrite !edge_operator_bi_closed in Hrun'. cbn [bind] in Hrun'.
  apply bind_inv_Ok in Hrun' as (a_pq & Hpq & Hrun').
  apply bind_inv_Ok in Hrun' as (a_rs & Hrs & _).
  rewrite (_double_excitation_closed el p q r s h a_pq a_rs Hpq Hrs) in Hrun.
  injection Hrun as <-. unfold double_excitation_formula, sum_ops.
  cbn [foldr]. eauto 8 with nonempty.
Qed.

Lemma number_excitation_formula_nonempty (el : edge_list) (a b shared : nat)
    (positive : bool) (h : complex) (x : SparsePauliOp) :
  x <> [] -> number_excitation_formula el a b shared positive h x <> [].
Proof. intros Hx. unfold number_excitation_formula. eauto 8 with nonempty. Qed.

Lemma _number_excitation_nonempty (el : edge_list) (p q r s : nat) (h : complex)
    (op : SparsePauliOp) :
  _number_excitation el p q r s h = Ok op -> op <> [].
Proof.
  rewrite _number_excitation_closed.
  destruct (p =? r); [|destruct (p =? s); [|destruct (q =? r);
    [|destruct (q =? s); [|done]]]];
    intros (x & Hx & [= <-])%bind_inv_Ok;
    apply number_excitation_formula_nonempty; eauto with nonempty.
Qed.

Lemma dispatch_nonempty (el : edge_list) (category : interaction)
    (facs : list factor) (h : complex) (op : SparsePauliOp) :
  dispatch el category facs h = Ok op -> op <> [].
Proof.
  unfold dispatch. intros Hrun.
  destruct category.
  1: apply bind_inv_Ok in Hrun as (f0 & _ & Hrun);
     by apply _number_operator_nonempty in Hrun.
  2: apply bind_inv_Ok in Hrun as (f0 & _ & Hrun);
     apply bind_inv_Ok in Hrun as (f1 & _ & Hrun);
     by apply _excitation_operator_nonempty in Hrun.
  all: apply bind_inv_Ok in Hrun as ([fr ph] & _ & Hrun);
    apply bind_inv_Ok in Hrun as (fp & _ & Hrun);
    apply bind_inv_Ok in Hrun as (fq & _ & Hrun);
    apply bind_inv_Ok in Hrun as (f_r & _ & Hrun);
    apply bind_inv_Ok in Hrun as (f_s & _ & Hrun).
  - by apply _coulomb_exchange_nonempty in Hrun.
  - by apply _number_excitation_nonempty in Hrun.
  - by apply _double_excitation_nonempty in Hrun.
Qed.

Lemma _add_sparse_pauli_changes (acc : option SparsePauliOp)
    (op : SparsePauliOp) :
  op <> [] -> _add_sparse_pauli acc (Some op) <> acc.
Proof.
  intros Hop. destruct acc as [a|]; simpl; [|done]. intros [= Heq].
  unfold add in Heq. apply Hop.
  apply (f_equal length) in Heq. rewrite length_app in Heq.
  destruct op; [done|]. simpl in Heq. lia.
Qed.

(** ** The term loop *)

Lemma _analyze_term_inv (t : string) (category : interaction)
    (facs : list factor) :
  _analyze_term t = Ok (category, facs) ->
  exists n a b,
    unpack_from true 0 (list_ascii_of_string t) = Some ((n, a, b), facs)
    /\ _interaction_type n a b = Ok category.
Proof.
  unfold _analyze_term. pose proof (_unpack_term_unpack_from t true) as Hun.
  destruct (unpack_from true 0 _) as [[[[n a] b] facs']|];
    [rewrite Hun|by destruct Hun as (c & _ & ->)].
  cbn [bind]. intros (c & Hc & [= <- <-])%bind_inv_Ok. eauto.
Qed.

Lemma interaction_table_sound (n a b : nat) (category : interaction) :
  interaction_table n a b = Some category ->
  _interaction_type n a b = Ok category /\ a = b.
Proof.
  destruct n as [|[|[|n]]], a as [|[|[|a]]], b as [|[|[|b]]]; simpl;
    intros [= <-]; done.
Qed.

Lemma hermitian_conjugate_fixed (t : string) :
  hermitian_conjugate t = t
  <-> map hc_char (list_ascii_of_string t) = list_ascii_of_string t.
Proof.
  unfold hermitian_conjugate. split.
  - intros Heq. rewrite <- Heq at 2.
    by rewrite list_ascii_of_string_of_list_ascii.
  - intros ->. apply string_of_list_ascii_of_string.
Qed.

Lemma bind_ret {A : Type} (m : result A) : bind m Ok = m.
Proof. by destruct m. Qed.

Lemma convert_body_unfold (el : edge_list) (acc : option SparsePauliOp)
    (term : string * complex) (category : interaction) (facs : list factor) :
  _analyze_term (operator_string term) = Ok (category, facs) ->
  convert_body el acc term
  = (if claim_skip facs then Ok acc
     else
       let! qubit_op := dispatch el category facs (operator_coefficient term) in
       Ok (_add_sparse_pauli acc (Some qubit_op))).
Proof.
  intros Han.
  destruct (_analyze_term_inv _ _ _ Han) as (n & a & b & Hun & Hty).
  unfold convert_body. rewrite Han. cbn [bind].
  rewrite skip_test_claim_skip; [done|].
  pose proof (unpack_from_length _ _ _ Hun) as Hlen.
  unfold n_number_of, n_raise_of, n_lower_of in Hlen. simpl in Hlen.
  apply _interaction_type_two_factors in Hty. lia.
Qed.

(** A term and its conjugate in the table: same category, and the one
    that is passed over is determined by [claim_skip]. *)
Lemma conjugate_in_table (t : string) (category : interaction)
    (facs : list factor) :
  _analyze_term t = Ok (category, facs) ->
  in_table t category ->
  exists facs',
    _analyze_term (hermitian_conjugate t) = Ok (category, facs')
    /\ (hermitian_conjugate t = t -> claim_skip facs = false)
    /\ (hermitian_conjugate t <> t -> claim_skip facs' = negb (claim_skip facs)).
Proof.
  intros Han.
  destruct (_analyze_term_inv _ _ _ Han) as (n & a & b & Hun & Hty).
  unfold in_table, term_counts. cbv zeta.
  pose proof (unpack_from_counts _ _ _ _ Hun) as Hcnt. simpl in Hcnt.
  injection Hcnt as Hn Ha Hb. rewrite <- Hn, <- Ha, <- Hb.
  clear Hn Ha Hb. intros Htable.
  destruct (interaction_table_sound _ _ _ _ Htable) as [_ Hab]. subst b.
  destruct (unpack_from_hc _ _ _ Hun) as (facs' & Hun' & _).
  unfold n_number_of, n_raise_of, n_lower_of in Hun'. simpl in Hun'.
  exists facs'.
  destruct (claim_skip_hc _ _ _ _ Hun Hun') as [Hsame Hdiff].
  { unfold n_number_of, n_raise_of, n_lower_of. simpl. by rewrite Htable. }
  simpl in Hsame, Hdiff. rewrite hermitian_conjugate_fixed.
  split; [|done].
  pose proof (_unpack_term_unpack_from (hermitian_conjugate t) true) as Hrun.
  unfold hermitian_conjugate in Hrun at 1.
  rewrite list_ascii_of_string_of_list_ascii, Hun' in Hrun.
  unfold _analyze_term. rewrite Hrun. cbn [bind]. by rewrite Hty.
Qed.

(** A term that is a row of the table and its conjugate: the conjugate
    has the same category; a self-conjugate term is converted; of a term
    and its distinct conjugate exactly one is passed over, and the two
    together, in either order, leave the accumulator as the converted one
    alone does. *)
Lemma convert_body_conjugates (el : edge_list) (acc : option SparsePauliOp)
    (term : string * complex) (category : interaction) (facs : list factor) :
  _analyze_term (operator_string term) = Ok (category, facs) ->
  in_table (operator_string term) category ->
  exists facs',
    _analyze_term (hermitian_conjugate (operator_string term))
    = Ok (category, facs')
    /\ (hermitian_conjugate (operator_string term) = operator_string term ->
        claim_skip facs = false)
    /\ (hermitian_conjugate (operator_string term) <> operator_string term ->
        claim_skip facs' = negb (claim_skip facs)
        /\ forall coeff' : complex,
            let conjugate :=
              (hermitian_conjugate (operator_string term), coeff') in
            let converted := if claim_skip facs then conjugate else term in
            for_each (convert_body el) acc [term; conjugate]
            = convert_body el acc converted
            /\ for_each (convert_body el) acc [conjugate; term]
               = convert_body el acc converted).
Proof.
  intros Han Htable.
  destruct (conjugate_in_table _ _ _ Han Htable) as (facs' & Han' & Hsame & Hdiff).
  exists facs'. split; [done|]. split; [done|]. intros Hne.
  specialize (Hdiff Hne). split; [done|]. intros coeff'. cbv zeta.
  cbn [for_each].
  assert (Hconj : forall acc0,
    convert_body el acc0 (hermitian_conjugate (operator_string term), coeff')
    = (if claim_skip facs' then Ok acc0
       else
         let! qubit_op := dispatch el category facs' coeff' in
         Ok (_add_sparse_pauli acc0 (Some qubit_op)))).
  { intros acc0. by apply convert_body_unfold. }
  assert (Hterm : forall acc0,
    convert_body el acc0 term
    = (if claim_skip facs then Ok acc0
       else
         let! qubit_op := dispatch el category facs (operator_coefficient term) in
         Ok (_add_sparse_pauli acc0 (Some qubit_op)))).
  { intros acc0. by apply convert_body_unfold. }
  rewrite Hdiff in Hconj. destruct (claim_skip facs); simpl in Hconj.
  - split.
    + rewrite (Hterm acc). cbn [bind]. by rewrite !bind_ret.
    + destruct (convert_body el acc _) as [acc1|]; cbn [bind]; [|done].
      rewrite (Hterm acc1). cbn [bind]. done.
  - split.
    + destruct (convert_body el acc term) as [acc1|]; cbn [bind]; [|done].
      rewrite (Hconj acc1). cbn [bind]. done.
    + rewrite (Hconj acc). cbn [bind]. by rewrite !bind_ret.
Qed.

(** ** The edge list of a well-formed operator is built *)

Lemma length_list_ascii_of_string (t : string) :
  length (list_ascii_of_string t) = String.length t.
Proof. induction t as [|c t IH]; simpl; congruence. Qed.

Lemma char_step_valid (e : bool) (i : nat) (c : ascii) :
  valid_char c = true -> is_Some (char_step e i c).
Proof.
  unfold valid_char, char_step.
  destruct (Ascii.eqb c "I"); [eauto|].
  destruct (Ascii.eqb c "+"); [eauto|].
  destruct (Ascii.eqb c "-"); [eauto|].
  destruct (Ascii.eqb c "N"); [eauto|done].
Qed.

Lemma unpack_from_valid (e : bool) (s : list ascii) (i : nat) :
  forallb valid_char s = true -> is_Some (unpack_from e i s).
Proof.
  revert i. induction s as [|c s IH]; intros i Hs; simpl; [eauto|].
  simpl in Hs. apply andb_true_iff in Hs as [Hc Hs].
  destruct (char_step_valid e i c Hc) as [[dc fs] ->].
  destruct (IH (S i) Hs) as [[cnt facs] ->]. eauto.
Qed.

(** The unexpanded factors come in strictly ascending mode order, below
    the end of the string. *)
Lemma unpack_from_sorted (s : list ascii) (i : nat) (r : counts * list factor) :
  unpack_from false i s = Some r ->
  StronglySorted lt (map fst (snd r))
  /\ Forall (fun f => i <= fst f < i + length s) (snd r).
Proof.
  revert i r. induction s as [|c s IH]; intros i r H.
  - injection H as <-. split; constructor.
  - unpack_cons H; destruct (IH _ _ Hs) as [Hsorted Hrange]; simpl.
    1: split; [done|]; eapply Forall_impl; [exact Hrange|]; simpl; lia.
    all: split;
      [ constructor; [done|]; apply Forall_fmap;
        eapply Forall_impl; [exact Hrange|]; simpl; lia
      | constructor; [simpl; lia|];
        eapply Forall_impl; [exact Hrange|]; simpl; lia ].
Qed.

Lemma unpack_from_inds (s : list ascii) (i : nat) (r : counts * list factor) :
  unpack_from false i s = Some r ->
  length (inds_where in_plus_minus (snd r))
  = n_raise_of (fst r) + n_lower_of (fst r)
  /\ length (inds_where (fun c => (c =? "+")%char) (snd r)) = n_raise_of (fst r)
  /\ length (inds_where (fun c => (c =? "-")%char) (snd r)) = n_lower_of (fst r).
Proof.
  revert i r. induction s as [|c s IH]; intros i r H.
  - by injection H as <-.
  - unpack_cons H; destruct (IH _ _ Hs) as (Hpm & Hp & Hm);
      destruct cnt as [[n a] b];
      unfold inds_where, n_raise_of, n_lower_of in *; simpl in *;
      rewrite ?length_map in *; simpl; lia.
Qed.

Lemma inds_where_sorted (sel : ascii -> bool) (facs : list factor) (lo hi : nat) :
  StronglySorted lt (map fst facs) ->
  Forall (fun f => lo <= fst f < hi) facs ->
  StronglySorted lt (inds_where sel facs)
  /\ Forall (fun k => lo <= k < hi) (inds_where sel facs).
Proof.
  unfold inds_where. induction facs as [|f facs IH]; simpl; intros Hs Hr.
  - split; constructor.
  - inversion Hs as [|? ? Hs' Hlt]; subst. inversion Hr as [|? ? Hf Hr']; subst.
    destruct (IH Hs' Hr') as [IHs IHr].
    destruct (sel (snd f)); simpl; [|done]. split.
    + constructor; [done|]. rewrite Forall_forall in Hlt |- *.
      intros k (g & -> & Hg%list_elem_of_In%filter_In%proj1%list_elem_of_In)%list_elem_of_fmap.
      apply Hlt. by apply list_elem_of_fmap_2.
    + by constructor.
Qed.

Lemma matrix_set_square (n : nat) (m : edge_matrix) (i j : nat) :
  square n m -> i < n -> j < n ->
  exists m', matrix_set m i j = Ok m' /\ square n m'.
Proof.
  intros [Hlen Hrows] Hi Hj. unfold matrix_set.
  destruct (lookup_lt_is_Some_2 m i) as [row Hrow]; [lia|]. rewrite Hrow.
  assert (Hrowlen : length row = n).
  { rewrite Forall_forall in Hrows. apply Hrows.
    by apply list_elem_of_lookup_2 with i. }
  destruct (Nat.ltb_spec j (length row)); [|lia].
  eexists. split; [done|]. split; [by rewrite length_insert|].
  apply Forall_insert; [done|]. by rewrite length_insert.
Qed.

Lemma add_one_edge_star_square (n : nat) (m : edge_matrix) (inds : list nat) :
  square n m -> length inds = 2 -> StronglySorted lt inds ->
  Forall (fun k => 0 <= k < n) inds ->
  exists m', add_one_edge_star m inds = Ok m' /\ square n m'.
Proof.
  intros Hsq Hlen Hsorted Hrange.
  destruct inds as [|i [|j [|k inds]]]; try done. simpl.
  inversion Hsorted as [|? ? _ Hlt]; subst.
  inversion Hlt as [|? ? Hij _]; subst.
  inversion Hrange as [|? ? Hi Hr]; subst. inversion Hr as [|? ? Hj _]; subst.
  unfold _add_one_edge. destruct (Nat.ltb_spec i j); [|lia].
  apply matrix_set_square; [done|lia..].
Qed.

Lemma for_each_returns {S X : Type} (Inv : S -> Prop)
    (body : S -> X -> result S) (xs : list X) (s : S) :
  (forall s x, Inv s -> x ∈ xs -> exists s', body s x = Ok s' /\ Inv s') ->
  Inv s -> exists s', for_each body s xs = Ok s' /\ Inv s'.
Proof.
  revert s. induction xs as [|x xs IH]; intros s Hbody Hs; simpl; [eauto|].
  destruct (Hbody s x Hs) as (s1 & -> & Hs1); [by left|]. cbn [bind].
  apply IH; [|done]. intros s2 y Hs2 Hy. apply Hbody; [done|by right].
Qed.

Lemma interaction_table_counts (n a b : nat) (category : interaction) :
  interaction_table n a b = Some category ->
  match category with
  | number => (n, a, b) = (1, 0, 0)
  | coulomb_exchange => (n, a, b) = (2, 0, 0)
  | excitation => (n, a, b) = (0, 1, 1)
  | number_excitation => (n, a, b) = (1, 1, 1)
  | double_excitation => (n, a, b) = (0, 2, 2)
  end.
Proof.
  destruct n as [|[|[|n]]], a as [|[|[|a]]], b as [|[|[|b]]]; simpl;
    intros [= <-]; done.
Qed.

Lemma _add_edges_for_term_returns (n : nat) (m : edge_matrix) (t : string) :
  square n m -> well_formed_term n t ->
  exists m', _add_edges_for_term m t = Ok m' /\ square n m'.
Proof.
  intros Hsq (Hlen & Hvalid & category & Htable).
  unfold _add_edges_for_term.
  destruct (unpack_from_valid false _ 0 Hvalid) as [[[[cn a] b] facs] Hun].
  pose proof (_unpack_term_unpack_from t false) as Hrun.
  rewrite Hun in Hrun. rewrite Hrun. cbn [bind].
  pose proof (unpack_from_counts _ _ _ _ Hun) as Hcnt. simpl in Hcnt.
  unfold in_table, term_counts in Htable. cbv zeta in Htable.
  injection Hcnt as Hn Ha Hb. rewrite <- Hn, <- Ha, <- Hb in Htable.
  clear Hn Ha Hb.
  destruct (interaction_table_sound _ _ _ _ Htable) as [-> _]. cbn [bind].
  apply interaction_table_counts in Htable.
  destruct (unpack_from_sorted _ _ _ Hun) as [Hsorted Hrange].
  destruct (unpack_from_inds _ _ _ Hun) as (Hpm & Hp & Hm).
  rewrite length_list_ascii_of_string, Hlen in Hrange.
  unfold n_raise_of, n_lower_of in *. simpl in *.
  destruct category; injection Htable as -> -> ->; simpl in *.
  - eauto.
  - eauto.
  - rewrite Hpm. simpl.
    destruct (inds_where_sorted in_plus_minus facs 0 n Hsorted Hrange).
    by apply add_one_edge_star_square.
  - rewrite Hpm. simpl.
    destruct (inds_where_sorted in_plus_minus facs 0 n Hsorted Hrange).
    by apply add_one_edge_star_square.
  - destruct (inds_where_sorted (fun c => (c =? "+")%char) facs 0 n
                Hsorted Hrange).
    destruct (inds_where_sorted (fun c => (c =? "-")%char) facs 0 n
                Hsorted Hrange).
    destruct (add_one_edge_star_square n m
                (inds_where (fun c => (c =? "+")%char) facs))
      as (m1 & -> & Hsq1); [done..|].
    cbn [bind]. by apply add_one_edge_star_square.
Qed.

Lemma square_zeros (n : nat) : square n (np_zeros2 n).
Proof.
  unfold square, np_zeros2. split; [apply length_replicate|].
  apply Forall_replicate. apply length_replicate.
Qed.

(** On a well-formed operator the edge list is built. *)
Lemma bksf_edge_list_returns (fer_op : FermionicOp) :
  well_formed fer_op ->
  exists el, bksf_edge_list_fermionic_op fer_op = Ok el.
Proof.
  intros (Hne & L & Hterms).
  unfold bksf_edge_list_fermionic_op, _get_adjacency_matrix.
  destruct fer_op as [|term fer_op]; [done|]. cbn [number_of_modes bind].
  assert (HL : String.length (fst term) = L).
  { inversion Hterms as [|? ? (Hlen & _) _]; subst. done. }
  rewrite HL.
  destruct (for_each_returns (square L)
              (fun m term => _add_edges_for_term m (operator_string term))
              (term :: fer_op) (np_zeros2 L)) as (m & -> & _).
  - intros m x Hm Hx. apply _add_edges_for_term_returns; [done|].
    rewrite Forall_forall in Hterms. by apply Hterms.
  - apply square_zeros.
  - cbn [bind]. eauto.
Qed.

(** C9. On every well-formed fermionic operator the edge list is built;
    every edge list that is built has no duplicate column and every column
    [(a, b)] of it has [a < b]; adding an edge between a mode and itself
    raises [ValueError]; adding an edge a second time, in either
    orientation, leaves the adjacency matrix as it is. *)
Theorem bksf_edge_list_invariant :
  (forall fer_op : FermionicOp,
      well_formed fer_op ->
      exists el, bksf_edge_list_fermionic_op fer_op = Ok el)
  /\ (forall (fer_op : FermionicOp) (el : edge_list),
        bksf_edge_list_fermionic_op fer_op = Ok el ->
        NoDup el /\ forall a b, (a, b) ∈ el -> a < b)
  /\ (forall (m : edge_matrix) (i : nat),
        _add_one_edge m i i = Raise (ValueError "expecting i != j"))
  /\ (forall (m m' : edge_matrix) (i j : nat),
        _add_one_edge m i j = Ok m' ->
        _add_one_edge m' i j = Ok m' /\ _add_one_edge m' j i = Ok m').
Proof.
  split; [exact bksf_edge_list_returns|]. split; [|split].
  - intros fer_op el Hrun. unfold bksf_edge_list_fermionic_op in Hrun.
    apply bind_inv_Ok in Hrun as (m & Hm & [= <-]).
    split; [apply NoDup_nonzero_from|]. intros a b Hab.
    apply elem_of_nonzero_from in Hab as (_ & row & Hrow & Hb).
    rewrite Nat.sub_0_r in Hrow.
    by apply (_get_adjacency_matrix_upper fer_op m Hm a b row).
  - intros m i. unfold _add_one_edge. by rewrite Nat.ltb_irrefl.
  - intros m m' i j. unfold _add_one_edge.
    destruct (Nat.ltb_spec i j) as [Hij|Hij].
    + intros Hset%matrix_set_twice.
      destruct (Nat.ltb_spec j i); [lia|done].
    + destruct (Nat.ltb_spec j i) as [Hji|Hji]; [|done].
      by intros Hset%matrix_set_twice.
Qed.

Lemma bksf_edge_list_invariant_witness :
  bksf_edge_list_fermionic_op
    [("+-+-"%string, c_one); ("+--+"%string, c_one); ("NIII"%string, c_one)]
  = Ok [(0, 2); (0, 3); (1, 2); (1, 3)]
  /\ NoDup [(0, 2); (0, 3); (1, 2); (1, 3)]
  /\ (forall a b, (a, b) ∈ [(0, 2); (0, 3); (1, 2); (1, 3)] -> a < b)
  /\ _add_one_edge [[false; true]; [false; false]] 1 0
     = Ok [[false; true]; [false; false]].
Proof.
  assert (Hrun : bksf_edge_list_fermionic_op
      [("+-+-"%string, c_one); ("+--+"%string, c_one); ("NIII"%string, c_one)]
      = Ok [(0, 2); (0, 3); (1, 2); (1, 3)]) by reflexivity.
  split; [exact Hrun|].
  destruct (proj1 (proj2 bksf_edge_list_invariant) _ _ Hrun) as [Hnd Hlt].
  split; [exact Hnd|]. split; [exact Hlt|].
  apply (proj2 (proj2 (proj2 bksf_edge_list_invariant))
           [[false; false]; [false; false]] _ 0 1).
  reflexivity.
Defined.

(** ** The edge-operator and edge-list cases of the test suite *)

Example test_bksf_edge_op_bi :
  edge_operator_bi complete4 0 = Ok (from_label "IIIZZZ")
  /\ edge_operator_bi complete4 1 = Ok (from_label "IZZIIZ")
  /\ edge_operator_bi complete4 2 = Ok (from_label "ZIZIZI")
  /\ edge_operator_bi complete4 3 = Ok (from_label "ZZIZII").
Proof. rewrite !edge_operator_bi_closed. repeat split. Qed.

Example test_bksf_edge_op_aij :
  edge_operator_aij complete4 0 1 = Ok (from_label "IIIIIX")
  /\ edge_operator_aij complete4 0 2 = Ok (from_label "IIIIXZ")
  /\ edge_operator_aij complete4 0 3 = Ok (from_label "IIIXZZ")
  /\ edge_operator_aij complete4 1 2 = Ok (from_label "IIXIZZ")
  /\ edge_operator_aij complete4 1 3 = Ok (from_label "IXZZIZ")
  /\ edge_operator_aij complete4 2 3 = Ok (from_label "XZZZZI").
Proof.
  rewrite (edge_operator_aij_at_edge complete4 0 1 0) by reflexivity.
  rewrite (edge_operator_aij_at_edge complete4 0 2 1) by reflexivity.
  rewrite (edge_operator_aij_at_edge complete4 0 3 2) by reflexivity.
  rewrite (edge_operator_aij_at_edge complete4 1 2 3) by reflexivity.
  rewrite (edge_operator_aij_at_edge complete4 1 3 4) by reflexivity.
  rewrite (edge_operator_aij_at_edge complete4 2 3 5) by reflexivity.
  repeat split.
Qed.

Example test_excitation_edges :
  bksf_edge_list_fermionic_op [("+-+-"%string, c_one)] = Ok [(0, 2); (1, 3)]
  /\ bksf_edge_list_fermionic_op [("+--+"%string, c_one)] = Ok [(0, 3); (1, 2)].
Proof. split; reflexivity. Qed.

(** * Further properties of the code *)

(** ** The unpacking loop in closed form *)

Lemma unpack_from_closed (e : bool) (s : list ascii) (i : nat) :
  unpack_from e i s
  = if forallb valid_char s then
      Some ((count_char "N" s, count_char "+" s, count_char "-" s),
            if e then flat_map expand_factor (skeleton_from i s)
            else skeleton_from i s)
    else None.
Proof.
  revert i. induction s as [|c s IH]; intros i.
  - by destruct e.
  - cbn [unpack_from forallb]. rewrite IH.
    destruct (char_step e i c) as [r|] eqn:Hc.
    + destruct r as [dc fs].
      apply char_step_inv in Hc
        as [[-> [= -> ->]]|[[-> [= -> ->]]|[[-> [= -> ->]]|[-> [= -> ->]]]]];
        cbn [valid_char Ascii.eqb Bool.eqb orb andb];
        destruct (forallb valid_char s); try reflexivity;
        destruct e; reflexivity.
    + by rewrite (char_step_None _ _ _ Hc).
Qed.

Lemma first_invalid_None (s : list ascii) :
  first_invalid s = None <-> forallb valid_char s = true.
Proof.
  induction s as [|c s IH]; [done|]. rewrite first_invalid_cons.
  cbn [forallb]. destruct (valid_char c); [done|]. cbn [andb]. split; done.
Qed.

Lemma first_invalid_Some (s : list ascii) (c : ascii) :
  first_invalid s = Some c
  <-> exists i,
        s !! i = Some c /\ valid_char c = false
        /\ forall j d, j < i -> s !! j = Some d -> valid_char d = true.
Proof.
  unfold first_invalid. split.
  - destruct (list_find _ s) as [[i d]|] eqn:Hfind; [|done].
    intros [= ->]. apply list_find_Some in Hfind as (Hi & Hc & Hbefore).
    exists i. split; [done|]. split; [done|]. intros j d Hj Hd.
    specialize (Hbefore j d Hd Hj). by destruct (valid_char d).
  - intros (i & Hi & Hc & Hbefore).
    rewrite (proj2 (list_find_Some (fun c => valid_char c = false) s i c));
      [done|].
    split; [done|]. split; [done|]. intros j d Hd Hj.
    by rewrite (Hbefore j d Hj Hd).
Qed.

Lemma _unpack_term_closed (t : string) (e : bool) :
  _unpack_term t e
  = match first_invalid (list_ascii_of_string t) with
    | None =>
        Ok (term_counts t,
            if e then flat_map expand_factor (skeleton t) else skeleton t)
    | Some c => Raise (unexpected_operator c)
    end.
Proof.
  pose proof (_unpack_term_unpack_from t e) as Hun.
  rewrite unpack_from_closed in Hun.
  destruct (forallb valid_char (list_ascii_of_string t)) eqn:Hvalid.
  - by rewrite (proj2 (first_invalid_None _) Hvalid).
  - by destruct Hun as (c & -> & ->).
Qed.

Lemma valid_term_first_invalid (t : string) :
  valid_term t = true -> first_invalid (list_ascii_of_string t) = None.
Proof. apply first_invalid_None. Qed.

Lemma invalid_term_first_invalid (t : string) :
  valid_term t = false ->
  exists c, first_invalid (list_ascii_of_string t) = Some c.
Proof.
  unfold valid_term. intros Hinvalid.
  destruct (first_invalid (list_ascii_of_string t)) as [c|] eqn:Hfirst;
    [by exists c|].
  apply first_invalid_None in Hfirst. congruence.
Qed.

Lemma _unpack_term_valid (t : string) (e : bool) :
  valid_term t = true ->
  _unpack_term t e
  = Ok (term_counts t,
        if e then flat_map expand_factor (skeleton t) else skeleton t).
Proof.
  intros Hvalid.
  by rewrite _unpack_term_closed, (valid_term_first_invalid t Hvalid).
Qed.

Lemma elem_of_enumerate_from {A : Type} (s : list A) (k i : nat) (a : A) :
  (i, a) ∈ enumerate_from k s <-> k <= i /\ s !! (i - k) = Some a.
Proof.
  revert k. induction s as [|b s IH]; intros k; simpl.
  - split; [by intros ?%elem_of_nil | by intros [_ ?]].
  - rewrite elem_of_cons, IH. split.
    + intros [[= -> ->]|[Hle Hs]].
      * split; [lia|]. by rewrite Nat.sub_diag.
      * split; [lia|]. by replace (i - k) with (S (i - S k)) by lia.
    + intros [Hle Hs]. destruct (decide (i = k)) as [->|Hne].
      * left. rewrite Nat.sub_diag in Hs. simpl in Hs. congruence.
      * right. split; [lia|].
        by replace (i - k) with (S (i - S k)) in Hs by lia.
Qed.

Lemma elem_of_skeleton (t : string) (i : nat) (c : ascii) :
  (i, c) ∈ skeleton t
  <-> list_ascii_of_string t !! i = Some c /\ c <> "I"%char.
Proof.
  unfold skeleton, skeleton_from.
  rewrite list_elem_of_In, filter_In, <- list_elem_of_In.
  rewrite elem_of_enumerate_from, Nat.sub_0_r. simpl.
  rewrite negb_true_iff, Ascii.eqb_neq. split.
  - by intros [[_ ?] ?].
  - intros [? ?]. repeat split; [lia|done..].
Qed.

(** X1. [_unpack_term] raises exactly when the term holds a character
    outside [I+-N], whatever [expand_number_op] is: it raises
    [ValueError("Unexpected operator ", c, " in term.")] for the first such
    character [c]. Otherwise it returns, and its three counts are the
    numbers of [N], [+] and [-] in the term. *)
Theorem _unpack_term_errors (t : string) (e : bool) :
  (forall i c,
      list_ascii_of_string t !! i = Some c ->
      valid_char c = false ->
      (forall j d, j < i -> list_ascii_of_string t !! j = Some d ->
                   valid_char d = true) ->
      _unpack_term t e
      = Raise (ValueErrorArgs [ArgStr "Unexpected operator ";
                               ArgStr (String c EmptyString);
                               ArgStr " in term."]))
  /\ (valid_term t = false ->
      exists i c,
        list_ascii_of_string t !! i = Some c /\ valid_char c = false
        /\ forall j d, j < i -> list_ascii_of_string t !! j = Some d ->
                       valid_char d = true)
  /\ (valid_term t = true ->
      exists facs, _unpack_term t e = Ok (term_counts t, facs))
  /\ (valid_term t = true
      <-> forall c, c ∈ list_ascii_of_string t ->
            c = "I"%char \/ c = "+"%char \/ c = "-"%char \/ c = "N"%char).
Proof.
  split; [|split; [|split]].
  - intros i c Hi Hc Hbefore. rewrite _unpack_term_closed.
    by rewrite (proj2 (first_invalid_Some _ c)) by eauto.
  - intros [c Hfirst]%invalid_term_first_invalid.
    apply first_invalid_Some in Hfirst as (i & Hfirst). eauto.
  - intros Hvalid. rewrite (_unpack_term_valid t e Hvalid). eauto.
  - unfold valid_term. rewrite forallb_forall. split.
    + intros Hall c Hc%list_elem_of_In. specialize (Hall c Hc).
      unfold valid_char in Hall. rewrite !orb_true_iff in Hall.
      rewrite !Ascii.eqb_eq in Hall. tauto.
    + intros Hall c Hc%list_elem_of_In. unfold valid_char.
      rewrite !orb_true_iff, !Ascii.eqb_eq. specialize (Hall c Hc). tauto.
Qed.

Lemma _unpack_term_errors_witness :
  _unpack_term "+X-Y" true
  = Raise (ValueErrorArgs [ArgStr "Unexpected operator "; ArgStr "X";
                           ArgStr " in term."])
  /\ exists facs, _unpack_term "IN+-" true = Ok ((1, 1, 1), facs).
Proof.
  split.
  - apply (proj1 (_unpack_term_errors "+X-Y" true) 1 "X"%char);
      [reflexivity|reflexivity|].
    intros [|j] d Hj; [|lia]. by intros [= <-].
  - apply (proj1 (proj2 (proj2 (_unpack_term_errors "IN+-" true)))).
    reflexivity.
Defined.

(** X2. When [_unpack_term] returns without expansion, its factor list
    holds exactly the non-identity characters of the term with their
    positions, in strictly ascending position; with expansion it returns
    the same counts and the same list with every [(i, N)] replaced by
    [(i, +)], [(i, -)]. *)
Theorem _unpack_term_factors (t : string) (cnt : counts) (facs : list factor) :
  _unpack_term t false = Ok (cnt, facs) ->
  StronglySorted lt (map fst facs)
  /\ (forall i c, (i, c) ∈ facs
                  <-> list_ascii_of_string t !! i = Some c /\ c <> "I"%char)
  /\ _unpack_term t true = Ok (cnt, flat_map expand_factor facs).
Proof.
  intros Hrun. pose proof Hrun as Hclosed.
  destruct (valid_term t) eqn:Hvalid.
  2:{ destruct (invalid_term_first_invalid t Hvalid) as [c Hc].
      by rewrite _unpack_term_closed, Hc in Hclosed. }
  rewrite (_unpack_term_valid t false Hvalid) in Hclosed.
  injection Hclosed as <- <-. split; [|split].
  - pose proof (_unpack_term_unpack_from t false) as Hun'.
    destruct (unpack_from false 0 _) as [r|] eqn:Hun.
    + rewrite Hun' in Hrun. injection Hrun as ->.
      by destruct (unpack_from_sorted _ _ _ Hun).
    + destruct Hun' as (c & _ & Hraise). by rewrite Hraise in Hrun.
  - apply elem_of_skeleton.
  - by rewrite (_unpack_term_valid t true Hvalid).
Qed.

Lemma _unpack_term_factors_witness :
  _unpack_term "IN+-" false
  = Ok ((1, 1, 1), [(1, "N"); (2, "+"); (3, "-")]%char)
  /\ _unpack_term "IN+-" true
     = Ok ((1, 1, 1), [(1, "+"); (1, "-"); (2, "+"); (3, "-")]%char).
Proof.
  assert (Hrun : _unpack_term "IN+-" false
                 = Ok ((1, 1, 1), [(1, "N"); (2, "+"); (3, "-")]%char))
    by reflexivity.
  split; [exact Hrun|].
  exact (proj2 (proj2 (_unpack_term_factors _ _ _ Hrun))).
Defined.

(** ** The adjacency matrix, entry by entry *)

Lemma matrix_set_true_at (m m' : edge_matrix) (i j : nat) :
  matrix_set m i j = Ok m' ->
  forall r c, true_at m' r c <-> true_at m r c \/ (r = i /\ c = j).
Proof.
  unfold matrix_set. intros Hset r c.
  destruct (m !! i) as [row|] eqn:Hrow; [|done].
  destruct (Nat.ltb_spec j (length row)) as [Hj|]; [|done].
  injection Hset as <-. unfold true_at.
  destruct (decide (r = i)) as [->|Hr].
  - rewrite list_lookup_insert_eq by (by apply lookup_lt_Some in Hrow).
    rewrite Hrow. destruct (decide (c = j)) as [->|Hc].
    + split; [auto|]. intros _. eexists. split; [done|].
      by rewrite list_lookup_insert_eq.
    + split.
      * intros (row' & [= <-] & Hc'). left. exists row. split; [done|].
        by rewrite list_lookup_insert_ne in Hc' by done.
      * intros [(row' & [= <-] & Hc')|[_ ?]]; [|done]. eexists.
        split; [done|]. by rewrite list_lookup_insert_ne by done.
  - rewrite list_lookup_insert_ne by done. split; [auto|].
    intros [?|[? _]]; done.
Qed.

Lemma matrix_set_square_inv (n : nat) (m m' : edge_matrix) (i j : nat) :
  matrix_set m i j = Ok m' -> square n m -> square n m'.
Proof.
  unfold matrix_set. intros Hset [Hlen Hrows].
  destruct (m !! i) as [row|] eqn:Hrow; [|done].
  destruct (Nat.ltb_spec j (length row)) as [Hj|]; [|done].
  injection Hset as <-. split; [by rewrite length_insert|].
  apply Forall_insert; [done|]. rewrite length_insert.
  rewrite Forall_forall in Hrows. apply Hrows.
  by apply list_elem_of_lookup_2 with i.
Qed.

Lemma no_true_at_zeros (n r c : nat) : ~ true_at (np_zeros2 n) r c.
Proof.
  intros (row & Hrow & Hc). unfold np_zeros2 in Hrow.
  apply lookup_replicate in Hrow as [-> _].
  apply lookup_replicate in Hc as [? _]. done.
Qed.

Lemma elem_of_np_nonzero (m : edge_matrix) (r c : nat) :
  (r, c) ∈ np_nonzero m <-> true_at m r c.
Proof.
  unfold np_nonzero, true_at. rewrite elem_of_nonzero_from, Nat.sub_0_r.
  split; [by intros [_ ?] | split; [lia|done]].
Qed.

Lemma skeleton_sorted (t : string) :
  valid_term t = true ->
  StronglySorted lt (map fst (skeleton t))
  /\ Forall (fun f => 0 <= fst f < String.length t) (skeleton t).
Proof.
  intros Hvalid.
  pose proof (unpack_from_closed false (list_ascii_of_string t) 0) as Hun.
  unfold valid_term in Hvalid. rewrite Hvalid in Hun.
  destruct (unpack_from_sorted _ _ _ Hun) as [Hs Hr]. simpl in Hs, Hr.
  by rewrite length_list_ascii_of_string in Hr.
Qed.

Lemma length_inds_where_skeleton (t : string) :
  valid_term t = true ->
  length (inds_where in_plus_minus (skeleton t))
  = n_raise_of (term_counts t) + n_lower_of (term_counts t)
  /\ length (inds_where (fun c => (c =? "+")%char) (skeleton t))
     = n_raise_of (term_counts t)
  /\ length (inds_where (fun c => (c =? "-")%char) (skeleton t))
     = n_lower_of (term_counts t).
Proof.
  intros Hvalid.
  pose proof (unpack_from_closed false (list_ascii_of_string t) 0) as Hun.
  unfold valid_term in Hvalid. rewrite Hvalid in Hun.
  exact (unpack_from_inds _ _ _ Hun).
Qed.

Lemma _interaction_type_counts (n a b : nat) (category : interaction) :
  _interaction_type n a b = Ok category ->
  match category with
  | number => (n, a, b) = (1, 0, 0)
  | coulomb_exchange => (n, a, b) = (2, 0, 0)
  | excitation => (n, a, b) = (0, 1, 1)
  | number_excitation => (n, a, b) = (1, 1, 1)
  | double_excitation => a = 2 /\ b = 2
  end.
Proof.
  destruct n as [|[|[|n]]], a as [|[|[|a]]], b as [|[|[|b]]]; simpl;
    intros [= <-]; done.
Qed.

(** A sorted two-element index list is added as it stands. *)
Lemma add_one_edge_star_sorted (m : edge_matrix) (inds : list nat) :
  length inds = 2 -> StronglySorted lt inds ->
  exists i j, inds = [i; j] /\ i < j
              /\ add_one_edge_star m inds = matrix_set m i j.
Proof.
  intros Hlen Hsorted. destruct inds as [|i [|j [|k inds]]]; try done.
  inversion Hsorted as [|? ? _ Hlt]; subst.
  inversion Hlt as [|? ? Hij _]; subst.
  exists i, j. split; [done|]. split; [done|]. simpl. unfold _add_one_edge.
  by destruct (Nat.ltb_spec i j); [|lia].
Qed.

(** [_add_edges_for_term] sets the entries of the term's edges, in order;
    none of its own errors is left. *)
Lemma _add_edges_for_term_closed (m : edge_matrix) (t : string) :
  _add_edges_for_term m t
  = match first_invalid (list_ascii_of_string t) with
    | None =>
        let! _ := (let '(n_number, n_raise, n_lower) := term_counts t in
                   _interaction_type n_number n_raise n_lower) in
        for_each (fun m e => matrix_set m (fst e) (snd e)) m (term_edges t)
    | Some c => Raise (unexpected_operator c)
    end.
Proof.
  unfold _add_edges_for_term. rewrite _unpack_term_closed.
  destruct (first_invalid (list_ascii_of_string t)) as [c|] eqn:Hfirst;
    [done|].
  assert (Hvalid : valid_term t = true) by (by apply first_invalid_None).
  cbn [bind].
  destruct (skeleton_sorted t Hvalid) as [Hsorted Hrange].
  destruct (length_inds_where_skeleton t Hvalid) as (Hpm & Hp & Hm).
  unfold term_edges. destruct (term_counts t) as [[n a] b] eqn:Hcnt.
  unfold n_raise_of, n_lower_of in *. simpl in Hpm, Hp, Hm.
  destruct (_interaction_type n a b) as [category|] eqn:Hty; [|done].
  cbn [bind]. apply _interaction_type_counts in Hty.
  destruct category.
  - done.
  - done.
  - injection Hty as -> -> ->. rewrite Hpm. simpl.
    destruct (inds_where_sorted in_plus_minus _ _ _ Hsorted Hrange) as [Hs _].
    destruct (add_one_edge_star_sorted m _ Hpm Hs) as (i & j & -> & _ & ->).
    simpl. by rewrite bind_ret.
  - injection Hty as -> -> ->. rewrite Hpm. simpl.
    destruct (inds_where_sorted in_plus_minus _ _ _ Hsorted Hrange) as [Hs _].
    destruct (add_one_edge_star_sorted m _ Hpm Hs) as (i & j & -> & _ & ->).
    simpl. by rewrite bind_ret.
  - destruct Hty as [-> ->].
    destruct (inds_where_sorted (fun c => (c =? "+")%char) _ _ _
                Hsorted Hrange) as [Hsp _].
    destruct (inds_where_sorted (fun c => (c =? "-")%char) _ _ _
                Hsorted Hrange) as [Hsm _].
    destruct (add_one_edge_star_sorted m _ Hp Hsp) as (i & j & Hij & _ & ->).
    rewrite Hij. simpl.
    destruct (matrix_set m i j) as [m1|]; [|done]. cbn [bind].
    destruct (add_one_edge_star_sorted m1 _ Hm Hsm) as (k & l & -> & _ & ->).
    simpl. by rewrite bind_ret.
Qed.

Lemma term_edges_sorted (t : string) (a b : nat) :
  valid_term t = true -> (a, b) ∈ term_edges t ->
  a < b /\ b < String.length t.
Proof.
  intros Hvalid. destruct (skeleton_sorted t Hvalid) as [Hsorted Hrange].
  assert (Hpair : forall sel, (a, b) ∈ pair_of (inds_where sel (skeleton t)) ->
                              a < b /\ b < String.length t).
  { intros sel Hin.
    destruct (inds_where_sorted sel _ _ _ Hsorted Hrange) as [Hs Hr].
    destruct (inds_where sel (skeleton t)) as [|i [|j [|k inds]]];
      simpl in Hin; try by apply elem_of_nil in Hin.
    apply list_elem_of_singleton in Hin as [= -> ->].
    inversion Hs as [|? ? _ Hlt]; subst. inversion Hlt as [|? ? Hij _]; subst.
    inversion Hr as [|? ? _ Hr']; subst. inversion Hr' as [|? ? Hj _]; subst.
    lia. }
  unfold term_edges. destruct (term_counts t) as [[n x] y].
  destruct (_interaction_type n x y) as [[]|];
    try (by intros ?%elem_of_nil); try apply Hpair.
  intros [?|?]%elem_of_app; eapply Hpair; eauto.
Qed.

Lemma for_each_matrix_set_true_at (es : list (nat * nat)) (m m' : edge_matrix) :
  for_each (fun m e => matrix_set m (fst e) (snd e)) m es = Ok m' ->
  forall r c, true_at m' r c <-> true_at m r c \/ (r, c) ∈ es.
Proof.
  revert m. induction es as [|[i j] es IH]; simpl; intros m Hrun r c.
  - injection Hrun as <-. rewrite elem_of_nil. tauto.
  - apply bind_inv_Ok in Hrun as (m1 & Hset & Hrest).
    rewrite (IH _ Hrest), (matrix_set_true_at _ _ _ _ Hset), elem_of_cons.
    split; [intros [[?|[-> ->]]|?]; auto|].
    intros [?|[[= -> ->]|?]]; auto.
Qed.

Lemma for_each_matrix_set_square (n : nat) (es : list (nat * nat))
    (m : edge_matrix) :
  square n m -> Forall (fun e => fst e < n /\ snd e < n) es ->
  exists m', for_each (fun m e => matrix_set m (fst e) (snd e)) m es = Ok m'
             /\ square n m'.
Proof.
  revert m. induction es as [|[i j] es IH]; simpl; intros m Hsq Hes; [eauto|].
  inversion Hes as [|? ? [Hi Hj] Hes']; subst. simpl in Hi, Hj.
  destruct (matrix_set_square n m i j Hsq Hi Hj) as (m1 & -> & Hsq1).
  cbn [bind]. by apply IH.
Qed.

Lemma for_each_matrix_set_square_inv (n : nat) (es : list (nat * nat))
    (m m' : edge_matrix) :
  for_each (fun m e => matrix_set m (fst e) (snd e)) m es = Ok m' ->
  square n m -> square n m'.
Proof.
  revert m. induction es as [|[i j] es IH]; simpl; intros m Hrun Hsq.
  - by injection Hrun as <-.
  - apply bind_inv_Ok in Hrun as (m1 & Hset & Hrest).
    eapply IH; [exact Hrest|]. by eapply matrix_set_square_inv.
Qed.

Lemma _add_edges_for_term_inv (m m' : edge_matrix) (t : string) :
  _add_edges_for_term m t = Ok m' ->
  term_accepted t = true
  /\ for_each (fun m e => matrix_set m (fst e) (snd e)) m (term_edges t) = Ok m'.
Proof.
  rewrite _add_edges_for_term_closed. unfold term_accepted.
  destruct (valid_term t) eqn:Hvalid;
    [rewrite (valid_term_first_invalid t Hvalid)
    |by destruct (invalid_term_first_invalid t Hvalid) as [c ->]].
  cbn [andb].
  destruct (term_counts t) as [[n a] b].
  destruct (_interaction_type n a b); [|done]. cbn [bind returns].
  by intros ->.
Qed.

Lemma _add_edges_for_term_accepted (n : nat) (m : edge_matrix) (t : string) :
  square n m -> String.length t <= n -> term_accepted t = true ->
  exists m', _add_edges_for_term m t = Ok m' /\ square n m'.
Proof.
  intros Hsq Hlen Hacc. rewrite _add_edges_for_term_closed.
  unfold term_accepted in Hacc. apply andb_true_iff in Hacc as [Hvalid Hty].
  rewrite (valid_term_first_invalid t Hvalid). destruct (term_counts t) as [[x a] b] eqn:Hcnt.
  destruct (_interaction_type x a b) as [category|]; [|done]. cbn [bind].
  apply for_each_matrix_set_square; [done|].
  apply Forall_forall. intros [i j] Hin.
  apply (term_edges_sorted t i j Hvalid) in Hin. simpl. lia.
Qed.

Lemma adjacency_fold (n : nat) (op : FermionicOp) (m0 m : edge_matrix) :
  for_each (fun m term => _add_edges_for_term m (operator_string term)) m0 op
  = Ok m ->
  (forall r c, true_at m r c
               <-> true_at m0 r c
                   \/ exists term, term ∈ op
                        /\ (r, c) ∈ term_edges (operator_string term))
  /\ Forall (fun term => term_accepted (operator_string term) = true) op
  /\ (square n m0 -> square n m).
Proof.
  revert m0. induction op as [|term op IH]; simpl; intros m0 Hrun.
  - injection Hrun as <-. split; [|by split].
    intros r c. split; [auto|]. intros [?|(term & []%elem_of_nil & _)]. done.
  - apply bind_inv_Ok in Hrun as (m1 & Hstep & Hrest).
    apply _add_edges_for_term_inv in Hstep as [Hacc Hset].
    destruct (IH _ Hrest) as (Htrue & Hall & Hsq). split; [|split].
    + intros r c. rewrite Htrue, (for_each_matrix_set_true_at _ _ _ Hset).
      split.
      * intros [[?|?]|(term' & ? & ?)]; [auto| |].
        -- right. exists term. split; [by left|done].
        -- right. exists term'. split; [by right|done].
      * intros [?|(term' & [->|?]%elem_of_cons & ?)]; eauto.
    + by constructor.
    + intros Hsq0. apply Hsq. by eapply for_each_matrix_set_square_inv.
Qed.

Lemma StronglySorted_positions_from {A : Type} (P : A -> bool) (l : list A)
    (k : nat) : StronglySorted lt (positions_from P k l).
Proof.
  revert k. induction l as [|a l IH]; intros k; simpl; [constructor|].
  destruct (P a); [|done]. constructor; [done|].
  apply Forall_forall. intros n Hn%elem_of_positions_from. lia.
Qed.

Lemma StronglySorted_nonzero_from (m : edge_matrix) (k : nat) :
  StronglySorted lex_lt (nonzero_from k m).
Proof.
  revert k. induction m as [|row m IH]; intros k; simpl; [constructor|].
  apply StronglySorted_app_2; [| |done].
  - intros [r c] [r' c'] (x & [= -> ->] & _)%list_elem_of_fmap
      [Hle _]%elem_of_nonzero_from.
    left. simpl. lia.
  - apply StronglySorted_fmap with (R1 := lt);
      [|apply StronglySorted_positions_from].
    intros x y Hxy. right. by simpl.
Qed.

Lemma nonzero_square (n : nat) (m : edge_matrix) (r c : nat) :
  square n m -> true_at m r c -> r < n /\ c < n.
Proof.
  intros [Hlen Hrows] (row & Hrow & Hc). split.
  - apply lookup_lt_Some in Hrow. lia.
  - rewrite Forall_forall in Hrows.
    rewrite <- (Hrows row) by (by apply list_elem_of_lookup_2 with r).
    by apply lookup_lt_Some in Hc.
Qed.

Lemma bksf_edge_list_inv (fer_op : FermionicOp) (el : edge_list) :
  bksf_edge_list_fermionic_op fer_op = Ok el ->
  exists n m,
    number_of_modes fer_op = Ok n
    /\ for_each (fun m term => _add_edges_for_term m (operator_string term))
         (np_zeros2 n) fer_op = Ok m
    /\ el = np_nonzero m.
Proof.
  unfold bksf_edge_list_fermionic_op, _get_adjacency_matrix.
  intros (m & Hm & [= <-])%bind_inv_Ok.
  apply bind_inv_Ok in Hm as (n & Hn & Hrun). eauto.
Qed.

(** X3. The edge list built from an operator holds exactly the edges its
    terms ask for: [(a, b)] is a column of it if and only if some term of
    the operator has the edge [(a, b)] among its edges. Number and
    Coulomb-exchange terms ask for none. *)
Theorem bksf_edge_list_edges (fer_op : FermionicOp) (el : edge_list) :
  bksf_edge_list_fermionic_op fer_op = Ok el ->
  forall a b,
    (a, b) ∈ el
    <-> exists term, term ∈ fer_op /\ (a, b) ∈ term_edges (operator_string term).
Proof.
  intros (n & m & _ & Hrun & ->)%bksf_edge_list_inv a b.
  destruct (adjacency_fold n _ _ _ Hrun) as (Htrue & _ & _).
  rewrite elem_of_np_nonzero, Htrue. split; [|auto].
  intros [Hzero|?]; [|done]. by apply no_true_at_zeros in Hzero.
Qed.

Lemma bksf_edge_list_edges_witness :
  bksf_edge_list_fermionic_op
    [("N+I-"%string, c_one); ("++--"%string, c_one); ("NNII"%string, c_one)]
  = Ok [(0, 1); (1, 3); (2, 3)]
  /\ term_edges "N+I-" = [(1, 3)]
  /\ term_edges "++--" = [(0, 1); (2, 3)]
  /\ term_edges "NNII" = []
  /\ ((1, 3) ∈ [(0, 1); (1, 3); (2, 3)]
      <-> exists term,
            term ∈ [("N+I-"%string, c_one); ("++--"%string, c_one);
                     ("NNII"%string, c_one)]
            /\ (1, 3) ∈ term_edges (operator_string term)).
Proof.
  assert (Hrun : bksf_edge_list_fermionic_op
      [("N+I-"%string, c_one); ("++--"%string, c_one); ("NNII"%string, c_one)]
      = Ok [(0, 1); (1, 3); (2, 3)]) by reflexivity.
  split; [exact Hrun|]. do 3 (split; [reflexivity|]).
  exact (bksf_edge_list_edges _ _ Hrun 1 3).
Defined.

(** X4. The edge list is in strictly increasing row-major order (by first
    mode, then by second mode), and every mode in it is below the number
    of modes of the operator, the length of its first term. *)
Theorem bksf_edge_list_row_major (fer_op : FermionicOp) (el : edge_list) :
  bksf_edge_list_fermionic_op fer_op = Ok el ->
  StronglySorted lex_lt el
  /\ exists n, number_of_modes fer_op = Ok n
       /\ forall a b, (a, b) ∈ el -> a < n /\ b < n.
Proof.
  intros (n & m & Hn & Hrun & ->)%bksf_edge_list_inv.
  split; [apply StronglySorted_nonzero_from|]. exists n. split; [done|].
  intros a b Hab%elem_of_np_nonzero.
  destruct (adjacency_fold n _ _ _ Hrun) as (_ & _ & Hsq).
  apply (nonzero_square n m); [|done]. apply Hsq, square_zeros.
Qed.

Lemma bksf_edge_list_row_major_witness :
  bksf_edge_list_fermionic_op
    [("I+-+-"%string, c_one); ("+II-I"%string, c_one)]
  = Ok [(0, 3); (1, 3); (2, 4)]
  /\ StronglySorted lex_lt [(0, 3); (1, 3); (2, 4)].
Proof.
  assert (Hrun : bksf_edge_list_fermionic_op
      [("I+-+-"%string, c_one); ("+II-I"%string, c_one)]
      = Ok [(0, 3); (1, 3); (2, 4)]) by reflexivity.
  split; [exact Hrun|].
  exact (proj1 (bksf_edge_list_row_major _ _ Hrun)).
Defined.

Lemma _analyze_term_closed (t : string) :
  _analyze_term t
  = match first_invalid (list_ascii_of_string t) with
    | None =>
        let! ttype := (let '(n_number, n_raise, n_lower) := term_counts t in
                       _interaction_type n_number n_raise n_lower) in
        Ok (ttype, flat_map expand_factor (skeleton t))
    | Some c => Raise (unexpected_operator c)
    end.
Proof.
  unfold _analyze_term. rewrite _unpack_term_closed.
  destruct (first_invalid (list_ascii_of_string t)); [done|]. cbn [bind].
  by destruct (term_counts t) as [[n a] b].
Qed.

(** X5. On an [n x n] matrix and a term of length at most [n],
    [_add_edges_for_term] fails exactly when [_analyze_term] fails on the
    term, and with the same error: its own errors (a wrong number of ladder
    operators, an edge from a mode to itself, an index out of range) never
    occur. When it returns, the matrix is still [n x n] and its set
    entries are the old ones and the term's edges: no entry is cleared and
    a number or Coulomb-exchange term changes nothing. *)
Theorem _add_edges_for_term_errors (n : nat) (m : edge_matrix) (t : string) :
  square n m -> String.length t <= n ->
  (term_accepted t = true ->
   returns (_analyze_term t) = true
   /\ exists m',
       _add_edges_for_term m t = Ok m'
       /\ square n m'
       /\ forall r c, true_at m' r c <-> true_at m r c \/ (r, c) ∈ term_edges t)
  /\ (term_accepted t = false ->
      exists e, _add_edges_for_term m t = Raise e /\ _analyze_term t = Raise e).
Proof.
  intros Hsq Hlen. split.
  - intros Hacc. split.
    + rewrite _analyze_term_closed. unfold term_accepted in Hacc.
      apply andb_true_iff in Hacc as [Hvalid Hty].
      rewrite (valid_term_first_invalid t Hvalid).
      destruct (term_counts t) as [[x a] b].
      by destruct (_interaction_type x a b).
    + destruct (_add_edges_for_term_accepted n m t Hsq Hlen Hacc)
        as (m' & Hrun & Hsq').
      exists m'. split; [done|]. split; [done|].
      apply _add_edges_for_term_inv in Hrun as [_ Hset].
      by apply for_each_matrix_set_true_at.
  - rewrite _add_edges_for_term_closed, _analyze_term_closed.
    unfold term_accepted. destruct (valid_term t) eqn:Hvalid.
    2:{ destruct (invalid_term_first_invalid t Hvalid) as [c ->]. eauto. }
    rewrite (valid_term_first_invalid t Hvalid). cbn [andb].
    destruct (term_counts t) as [[x a] b].
    destruct (_interaction_type x a b) as [c|e]; [done|]. eauto.
Qed.

Lemma _add_edges_for_term_errors_witness :
  square 3 (np_zeros2 3)
  /\ String.length "N+-" <= 3
  /\ (exists m',
        _add_edges_for_term (np_zeros2 3) "N+-" = Ok m'
        /\ forall r c, true_at m' r c
                       <-> true_at (np_zeros2 3) r c \/ (r, c) ∈ term_edges "N+-")
  /\ exists e, _add_edges_for_term (np_zeros2 3) "++-" = Raise e
               /\ _analyze_term "++-" = Raise e.
Proof.
  assert (Hsq : square 3 (np_zeros2 3)) by apply square_zeros.
  split; [exact Hsq|]. split; [simpl; lia|]. split.
  - destruct (_add_edges_for_term_errors 3 (np_zeros2 3) "N+-" Hsq)
      as [Hok _]; [simpl; lia|].
    destruct (Hok eq_refl) as (_ & m' & Hrun & _ & Htrue). eauto.
  - destruct (_add_edges_for_term_errors 3 (np_zeros2 3) "++-" Hsq)
      as [_ Herr]; [simpl; lia|].
    exact (Herr eq_refl).
Defined.

Lemma lex_lt_asym (e f : nat * nat) : lex_lt e f -> lex_lt f e -> e = f.
Proof. unfold lex_lt. lia. Qed.

(** X6. The edge list does not depend on the order of the terms: when all
    terms have the same length, an operator with the same terms in another
    order gives the same edge list. *)
Theorem bksf_edge_list_permutation (n : nat) (fer_op fer_op' : FermionicOp)
    (el : edge_list) :
  fer_op ≡ₚ fer_op' ->
  Forall (fun term => String.length (operator_string term) = n) fer_op ->
  bksf_edge_list_fermionic_op fer_op = Ok el ->
  bksf_edge_list_fermionic_op fer_op' = Ok el.
Proof.
  intros Hperm Hlen (n0 & m & Hn & Hrun & ->)%bksf_edge_list_inv.
  assert (n0 = n) as ->.
  { destruct fer_op as [|term fer_op]; [done|]. injection Hn as <-.
    by inversion Hlen. }
  destruct (adjacency_fold n _ _ _ Hrun) as (Htrue & Hacc & _).
  assert (Hn' : number_of_modes fer_op' = Ok n).
  { rewrite Hperm in Hlen. destruct fer_op' as [|term fer_op'].
    - apply Permutation_nil_r in Hperm. by subst.
    - simpl. f_equal. by inversion Hlen. }
  destruct (for_each_returns (square n)
              (fun m term => _add_edges_for_term m (operator_string term))
              fer_op' (np_zeros2 n)) as (m' & Hrun' & _).
  { intros m1 term Hsq Hterm. rewrite <- Hperm in Hterm.
    rewrite Forall_forall in Hlen, Hacc.
    apply _add_edges_for_term_accepted; [done| |by apply Hacc].
    by rewrite (Hlen term Hterm). }
  { apply square_zeros. }
  unfold bksf_edge_list_fermionic_op, _get_adjacency_matrix.
  rewrite Hn'. cbn [bind]. rewrite Hrun'. cbn [bind]. f_equal.
  destruct (adjacency_fold n _ _ _ Hrun') as (Htrue' & _ & _).
  apply (StronglySorted_unique_strong lex_lt).
  - intros ? ? _ _. apply lex_lt_asym.
  - apply StronglySorted_nonzero_from.
  - apply StronglySorted_nonzero_from.
  - apply NoDup_Permutation; [apply NoDup_nonzero_from..|].
    intros [a b]. rewrite !elem_of_np_nonzero, Htrue, Htrue'.
    by setoid_rewrite Hperm.
Qed.

Lemma bksf_edge_list_permutation_witness :
  bksf_edge_list_fermionic_op [("+-+-"%string, c_one); ("+--+"%string, c_one)]
  = Ok [(0, 2); (0, 3); (1, 2); (1, 3)]
  /\ bksf_edge_list_fermionic_op [("+--+"%string, c_one); ("+-+-"%string, c_one)]
     = Ok [(0, 2); (0, 3); (1, 2); (1, 3)].
Proof.
  assert (Hrun : bksf_edge_list_fermionic_op
      [("+-+-"%string, c_one); ("+--+"%string, c_one)]
      = Ok [(0, 2); (0, 3); (1, 2); (1, 3)]) by reflexivity.
  split; [exact Hrun|].
  apply (bksf_edge_list_permutation 4
           [("+-+-"%string, c_one); ("+--+"%string, c_one)]); [| |exact Hrun].
  - apply perm_swap.
  - repeat constructor.
Defined.

(** ** The register of the converted terms *)

Lemma on_qubits_of_pauli (n : nat) (z x : list bool) :
  length z = n -> length x = n -> on_qubits n (of_pauli (MkPauli z x)).
Proof. intros Hz Hx. by repeat constructor. Qed.

Lemma on_qubits_add (n : nat) (a b : SparsePauliOp) :
  on_qubits n a -> on_qubits n b -> on_qubits n (add a b).
Proof. apply Forall_app_2. Qed.

Lemma on_qubits_scale (n : nat) (c : complex) (a : SparsePauliOp) :
  on_qubits n a -> on_qubits n (scale c a).
Proof. intros Ha. unfold on_qubits, scale. by rewrite Forall_map. Qed.

Lemma on_qubits_neg (n : nat) (a : SparsePauliOp) :
  on_qubits n a -> on_qubits n (neg a).
Proof. apply on_qubits_scale. Qed.

Lemma on_qubits_sub (n : nat) (a b : SparsePauliOp) :
  on_qubits n a -> on_qubits n b -> on_qubits n (sub a b).
Proof. intros Ha Hb. by apply on_qubits_add, on_qubits_neg. Qed.

Lemma term_dot_lengths (n : nat) (s t : Pauli * complex) :
  length (pauli_z (fst s)) = n /\ length (pauli_x (fst s)) = n ->
  length (pauli_z (fst t)) = n /\ length (pauli_x (fst t)) = n ->
  length (pauli_z (fst (term_dot s t))) = n
  /\ length (pauli_x (fst (term_dot s t))) = n.
Proof.
  intros [Hsz Hsx] [Htz Htx]. unfold term_dot, pauli_dot. simpl.
  rewrite !length_zip_with. lia.
Qed.

Lemma on_qubits_dot (n : nat) (a b : SparsePauliOp) :
  on_qubits n a -> on_qubits n b -> on_qubits n (dot a b).
Proof.
  unfold on_qubits, dot. intros Ha Hb. rewrite Forall_flat_map.
  eapply Forall_impl; [exact Ha|]. intros s Hs. rewrite Forall_map.
  eapply Forall_impl; [exact Hb|]. intros t Ht. by apply term_dot_lengths.
Qed.

Lemma on_qubits_compose (n : nat) (a b : SparsePauliOp) :
  on_qubits n a -> on_qubits n b -> on_qubits n (compose a b).
Proof.
  unfold on_qubits, compose. intros Ha Hb. rewrite Forall_flat_map.
  eapply Forall_impl; [exact Ha|]. intros s Hs. rewrite Forall_map.
  eapply Forall_impl; [exact Hb|]. intros t Ht. by apply term_dot_lengths.
Qed.

Lemma on_qubits_signed (n : nat) (a : SparsePauliOp) (i j : nat) :
  on_qubits n a -> on_qubits n (signed a i j).
Proof. unfold signed. destruct (j <? i); [apply on_qubits_neg|done]. Qed.

Lemma on_qubits_B (el : edge_list) (i : nat) : on_qubits (length el) (B el i).
Proof.
  apply on_qubits_of_pauli; [apply length_map|apply length_replicate].
Qed.

Lemma on_qubits_pauli_id (n : nat) : on_qubits n (_pauli_id n).
Proof. apply on_qubits_of_pauli; apply length_replicate. Qed.

Lemma on_qubits_edge_operator_aij (el : edge_list) (i j : nat)
    (a : SparsePauliOp) :
  edge_operator_aij el i j = Ok a -> on_qubits (length el) a.
Proof.
  rewrite edge_operator_aij_closed.
  intros (w & Hw & <-%Ok_inj)%bind_inv_Ok.
  apply on_qubits_of_pauli; [apply length_map|].
  unfold np_setitem in Hw. rewrite length_replicate in Hw.
  repeat case_match; try done; injection Hw as <-;
    by rewrite length_insert, length_replicate.
Qed.

Create HintDb qubits.
#[local] Hint Resolve on_qubits_add on_qubits_scale on_qubits_neg on_qubits_sub
  on_qubits_dot on_qubits_compose on_qubits_signed on_qubits_B
  on_qubits_pauli_id on_qubits_edge_operator_aij : qubits.

Lemma _number_operator_on_qubits (el : edge_list) (p : nat) (h : complex)
    (op : SparsePauliOp) :
  _number_operator el p h = Ok op -> on_qubits (length el) op.
Proof.
  unfold _number_operator, shape1. rewrite edge_operator_bi_closed. cbn [bind].
  intros <-%Ok_inj. fold (B el p). auto with qubits.
Qed.

Lemma _coulomb_exchange_on_qubits (el : edge_list) (p q s : nat) (h : complex)
    (op : SparsePauliOp) :
  _coulomb_exchange el p q s h = Ok op -> on_qubits (length el) op.
Proof.
  unfold _coulomb_exchange, shape1. rewrite !edge_operator_bi_closed.
  cbn [bind]. intros <-%Ok_inj. fold (B el p) (B el q). auto 6 with qubits.
Qed.

Lemma _excitation_operator_on_qubits (el : edge_list) (p q : nat) (h : complex)
    (op : SparsePauliOp) :
  _excitation_operator el p q h = Ok op -> on_qubits (length el) op.
Proof.
  unfold _excitation_operator. destruct (q <=? p); [done|].
  rewrite !edge_operator_bi_closed. cbn [bind].
  intros (a & Ha & <-%Ok_inj)%bind_inv_Ok. fold (B el p) (B el q).
  apply on_qubits_scale, on_qubits_add; eauto with qubits.
Qed.

Lemma _double_excitation_on_qubits (el : edge_list) (p q r s : nat) (h : complex)
    (op : SparsePauliOp) :
  _double_excitation el p q r s h = Ok op -> on_qubits (length el) op.
Proof.
  intros Hrun. pose proof Hrun as Hrun'. unfold _double_excitation in Hrun'.
  rewrite !edge_operator_bi_closed in Hrun'. cbn [bind] in Hrun'.
  apply bind_inv_Ok in Hrun' as (a_pq & Hpq & Hrun').
  apply bind_inv_Ok in Hrun' as (a_rs & Hrs & _).
  rewrite (_double_excitation_closed el p q r s h a_pq a_rs Hpq Hrs) in Hrun.
  apply Ok_inj in Hrun as <-. unfold double_excitation_formula, sum_ops.
  cbn [foldr]. apply on_qubits_scale, on_qubits_dot; [eauto 6 with qubits|].
  repeat (apply on_qubits_add; [auto 8 with qubits|]). constructor.
Qed.

Lemma _number_excitation_on_qubits (el : edge_list) (p q r s : nat) (h : complex)
    (op : SparsePauliOp) :
  _number_excitation el p q r s h = Ok op -> on_qubits (length el) op.
Proof.
  rewrite _number_excitation_closed.
  destruct (p =? r); [|destruct (p =? s); [|destruct (q =? r);
    [|destruct (q =? s); [|done]]]];
    intros (x & Hx & <-%Ok_inj)%bind_inv_Ok;
    apply on_qubits_edge_operator_aij in Hx;
    unfold number_excitation_formula;
    (apply on_qubits_scale, on_qubits_dot; [apply on_qubits_add|]);
    auto with qubits.
Qed.

Lemma dispatch_on_qubits (el : edge_list) (category : interaction)
    (facs : list factor) (h : complex) (op : SparsePauliOp) :
  dispatch el category facs h = Ok op -> on_qubits (length el) op.
Proof.
  unfold dispatch. intros Hrun.
  destruct category.
  1: apply bind_inv_Ok in Hrun as (f0 & _ & Hrun);
     by apply _number_operator_on_qubits in Hrun.
  2: apply bind_inv_Ok in Hrun as (f0 & _ & Hrun);
     apply bind_inv_Ok in Hrun as (f1 & _ & Hrun);
     by apply _excitation_operator_on_qubits in Hrun.
  all: apply bind_inv_Ok in Hrun as ([fr ph] & _ & Hrun);
    apply bind_inv_Ok in Hrun as (fp & _ & Hrun);
    apply bind_inv_Ok in Hrun as (fq & _ & Hrun);
    apply bind_inv_Ok in Hrun as (f_r & _ & Hrun);
    apply bind_inv_Ok in Hrun as (f_s & _ & Hrun).
  - by apply _coulomb_exchange_on_qubits in Hrun.
  - by apply _number_excitation_on_qubits in Hrun.
  - by apply _double_excitation_on_qubits in Hrun.
Qed.

Lemma convert_body_inv (el : edge_list) (acc acc' : option SparsePauliOp)
    (term : string * complex) :
  convert_body el acc term = Ok acc' ->
  acc' = acc
  \/ exists category facs op,
       dispatch el category facs (operator_coefficient term) = Ok op
       /\ acc' = _add_sparse_pauli acc (Some op).
Proof.
  unfold convert_body.
  intros ([category facs] & _ & Hrun)%bind_inv_Ok.
  apply bind_inv_Ok in Hrun as ([|] & _ & Hrun).
  - left. by apply Ok_inj in Hrun.
  - right. apply bind_inv_Ok in Hrun as (op & Hop & <-%Ok_inj). eauto.
Qed.

Lemma _convert_operators_inv (el : edge_list) (fer_op : FermionicOp)
    (acc acc' : option SparsePauliOp) :
  for_each (convert_body el) acc fer_op = Ok acc' ->
  (forall r, acc = Some r -> on_qubits (length el) r /\ r <> []) ->
  forall r, acc' = Some r -> on_qubits (length el) r /\ r <> [].
Proof.
  intros Hrun Hacc.
  eapply (for_each_invariant
            (fun acc => forall r, acc = Some r -> on_qubits (length el) r /\ r <> []));
    [|exact Hacc|exact Hrun].
  clear. intros acc term acc' Hbody Hacc r Hr.
  apply convert_body_inv in Hbody as [->|(category & facs & op & Hop & ->)];
    [by apply Hacc|].
  pose proof (dispatch_on_qubits _ _ _ _ _ Hop) as Hq.
  pose proof (dispatch_nonempty _ _ _ _ _ Hop) as Hne.
  destruct acc as [a|]; simpl in Hr; injection Hr as <-; [|done].
  destruct (Hacc a eq_refl) as [Ha Hane].
  split; [by apply on_qubits_add|by apply add_nonempty_l].
Qed.

(** X7. Every operator that [_convert_operators] returns is a non-empty sum
    whose Pauli strings all have exactly as many bits, in [z] and in [x],
    as the edge list has columns: the five conversion formulas and the
    accumulation never change the register. *)
Theorem _convert_operators_register (fer_op : FermionicOp) (el : edge_list)
    (r : SparsePauliOp) :
  _convert_operators fer_op el = Ok (Some r) ->
  r <> []
  /\ Forall (fun t => length (pauli_z (fst t)) = shape1 el
                      /\ length (pauli_x (fst t)) = shape1 el) r.
Proof.
  intros Hrun.
  destruct (_convert_operators_inv el fer_op None (Some r) Hrun) with (r := r)
    as [Hq Hne]; done.
Qed.

Lemma _convert_operators_register_witness :
  exists r,
    _convert_operators [("+-"%string, c_one); ("NI"%string, c_one)] [(0, 1)]
    = Ok (Some r)
    /\ r <> []
    /\ Forall (fun t => length (pauli_z (fst t)) = 1
                        /\ length (pauli_x (fst t)) = 1) r.
Proof.
  assert (Hrun : exists r,
             _convert_operators [("+-"%string, c_one); ("NI"%string, c_one)]
               [(0, 1)] = Ok (Some r)) by (vm_compute; eauto).
  destruct Hrun as [r Hrun]. exists r. split; [exact Hrun|].
  exact (_convert_operators_register _ _ _ Hrun).
Defined.

(** ** Terms by their non-identity characters *)

Lemma count_char_skeleton_from (c : ascii) (s : list ascii) (k : nat) :
  c <> "I"%char ->
  count_char c (map snd (skeleton_from k s)) = count_char c s.
Proof.
  intros Hc. unfold count_char, skeleton_from.
  revert k. induction s as [|a s IH]; intros k; [done|].
  cbn [enumerate_from List.filter snd].
  destruct (Ascii.eqb_spec a "I") as [->|Ha]; cbn [negb].
  - rewrite IH. by destruct (Ascii.eqb_spec "I" c) as [<-|_].
  - cbn [map List.filter snd]. destruct (a =? c)%char; cbn [length];
      by rewrite IH.
Qed.

Lemma term_counts_skeleton (t : string) :
  term_counts t = kind_counts (skeleton t).
Proof.
  unfold term_counts, kind_counts, skeleton.
  by rewrite !count_char_skeleton_from.
Qed.

Lemma valid_term_skeleton (t : string) :
  valid_term t = true
  <-> Forall (fun f => snd f <> "I"%char /\ valid_char (snd f) = true)
        (skeleton t).
Proof.
  unfold valid_term. rewrite forallb_forall, Forall_forall. split.
  - intros Hall [i c] [Hi Hc]%elem_of_skeleton. split; [done|].
    apply Hall, list_elem_of_In. by eapply list_elem_of_lookup_2.
  - intros Hall c [i Hi]%list_elem_of_In%list_elem_of_lookup_1.
    destruct (Ascii.eqb_spec c "I") as [->|Hc]; [done|].
    by apply (Hall (i, c)), elem_of_skeleton.
Qed.

Lemma _analyze_term_skeleton (t : string) (sk : list factor) :
  skeleton t = sk ->
  Forall (fun f => valid_char (snd f) = true) sk ->
  _analyze_term t
  = (let! ttype := (let '(n_number, n_raise, n_lower) := kind_counts sk in
                    _interaction_type n_number n_raise n_lower) in
     Ok (ttype, flat_map expand_factor sk)).
Proof.
  intros Hsk Hvalid. rewrite _analyze_term_closed, term_counts_skeleton, Hsk.
  rewrite (valid_term_first_invalid t); [done|].
  apply valid_term_skeleton. rewrite Forall_forall. intros [i c] Hin. split.
  - apply elem_of_skeleton in Hin. tauto.
  - rewrite Hsk in Hin. by apply (proj1 (Forall_forall _ _) Hvalid (i, c)).
Qed.

(** ** Products of diagonal strings *)

Ltac c_ring :=
  apply c_ext; simpl;
  rewrite ?(Q2Qc_inv_Z 2), ?(Q2Qc_inv_Z 4), ?(Q2Qc_inv_Z 8); unfold Qcdiv;
  change (Q2Qc (inject_Z (-1))) with (- (1%Qc))%Qc;
  change (Q2Qc (inject_Z 1)) with 1%Qc;
  change (Q2Qc 0) with 0%Qc; change (Q2Qc 1) with 1%Qc; ring.

Lemma c_half_plus (h : complex) : c_mul (c_mul half h) c_one = c_div_Z h 2.
Proof. c_ring. Qed.

Lemma c_half_minus (h : complex) :
  c_mul (c_mul half h) (c_mul (c_of_Z (-1)) c_one) = c_neg (c_div_Z h 2).
Proof. c_ring. Qed.

Lemma c_quarter_plus (h : complex) :
  c_mul (c_mul (c_neg quarter) (c_mul (c_of_Z (-1)) h)) (c_mul c_one c_one)
  = c_div_Z h 4.
Proof. c_ring. Qed.

Lemma c_quarter_minus_r (h : complex) :
  c_mul (c_mul (c_neg quarter) (c_mul (c_of_Z (-1)) h))
    (c_mul c_one (c_mul (c_of_Z (-1)) c_one))
  = c_neg (c_div_Z h 4).
Proof. c_ring. Qed.

Lemma c_quarter_minus_l (h : complex) :
  c_mul (c_mul (c_neg quarter) (c_mul (c_of_Z (-1)) h))
    (c_mul (c_mul (c_of_Z (-1)) c_one) c_one)
  = c_neg (c_div_Z h 4).
Proof. c_ring. Qed.

Lemma c_quarter_plus_both (h : complex) :
  c_mul (c_mul (c_neg quarter) (c_mul (c_of_Z (-1)) h))
    (c_mul (c_mul (c_of_Z (-1)) c_one) (c_mul (c_of_Z (-1)) c_one))
  = c_div_Z h 4.
Proof. c_ring. Qed.

Lemma phase_sum_diagonal (z1 z2 : list bool) (n : nat) :
  phase_sum z1 (replicate n false) z2 (replicate n false) = 0.
Proof.
  revert z1 z2. induction n as [|n IH]; intros [|a z1] [|b z2]; try done.
  cbn [replicate phase_sum]. rewrite IH. by destruct a, b.
Qed.

Lemma zip_with_xorb_false_l (z : list bool) (n : nat) :
  length z = n -> zip_with xorb (replicate n false) z = z.
Proof.
  intros <-. induction z as [|a z IH]; [done|]. simpl. by rewrite IH.
Qed.

Lemma zip_with_xorb_false_r (z : list bool) (n : nat) :
  length z = n -> zip_with xorb z (replicate n false) = z.
Proof.
  intros <-. induction z as [|a z IH]; [done|]. simpl. rewrite IH.
  by destruct a.
Qed.

Lemma term_dot_diagonal (z1 z2 : list bool) (n : nat) (c1 c2 : complex) :
  term_dot (MkPauli z1 (replicate n false), c1)
           (MkPauli z2 (replicate n false), c2)
  = (MkPauli (zip_with xorb z1 z2) (replicate n false), c_mul c1 c2).
Proof.
  unfold term_dot, pauli_dot. cbn [fst snd pauli_z pauli_x].
  rewrite phase_sum_diagonal.
  by rewrite (zip_with_xorb_false_l (replicate n false) n)
    by apply length_replicate.
Qed.

Lemma _number_operator_closed (el : edge_list) (p : nat) (h : complex) :
  _number_operator el p h
  = Ok [(I_pauli el, c_div_Z h 2); (B_spec el p, c_neg (c_div_Z h 2))].
Proof.
  unfold _number_operator. rewrite edge_operator_bi_closed. cbn [bind].
  unfold _pauli_id, of_pauli, sub, add, neg, scale, shape1.
  cbn [map app fst snd]. by rewrite c_half_plus, c_half_minus.
Qed.

Lemma _coulomb_exchange_closed (el : edge_list) (p q s : nat) (h : complex) :
  p <> s ->
  _coulomb_exchange el p q s (c_mul (c_of_Z (-1)) h)
  = Ok [(I_pauli el, c_div_Z h 4);
        (B_spec el q, c_neg (c_div_Z h 4));
        (B_spec el p, c_neg (c_div_Z h 4));
        (BB_pauli el p q, c_div_Z h 4)].
Proof.
  intros Hps. unfold _coulomb_exchange. rewrite !edge_operator_bi_closed.
  cbn [bind]. rewrite (proj2 (Nat.eqb_neq p s) Hps).
  unfold _pauli_id, of_pauli, sub, add, neg, scale, dot, shape1, B_spec.
  cbn [map app flat_map fst snd]. rewrite !term_dot_diagonal.
  cbn [map fst snd].
  rewrite c_quarter_plus, c_quarter_minus_r, c_quarter_minus_l,
    c_quarter_plus_both.
  rewrite !zip_with_xorb_false_l, zip_with_xorb_false_r
    by (rewrite ?length_map, ?length_replicate; done).
  by rewrite zip_with_fmap_l, zip_with_fmap_r, zip_with_diag.
Qed.

(** ** Number and Coulomb terms, end to end *)

(** X8. A term whose only non-identity character is one [N], at mode [p],
    with a non-zero coefficient [h], is never passed over and adds
    [(h/2) I - (h/2) B(p)] to the sum: the identity string and the string
    with Z on the edges incident to [p], on every edge list and without
    error. (For [h = 0] the library's product with the scalar zero is one
    identity string with coefficient zero; that case is left out.) *)
Theorem number_term_converted (el : edge_list) (acc : option SparsePauliOp)
    (t : string) (h : complex) (p : nat) :
  skeleton t = [(p, "N"%char)] ->
  h <> c_zero ->
  convert_body el acc (t, h)
  = Ok (_add_sparse_pauli acc
          (Some [(I_pauli el, c_div_Z h 2);
                 (B_spec el p, c_neg (c_div_Z h 2))])).
Proof.
  intros Hsk _.
  rewrite (convert_body_unfold el acc (t, h) number
             [(p, "+"%char); (p, "-"%char)]).
  2:{ cbn [operator_string fst].
      by rewrite (_analyze_term_skeleton t _ Hsk) by (by repeat constructor). }
  cbn [claim_skip Ascii.eqb Bool.eqb orb dispatch getitem lookup list_lookup
       bind fst operator_coefficient snd].
  by rewrite _number_operator_closed.
Qed.

Lemma number_term_converted_witness :
  skeleton "INI" = [(1, "N"%char)]
  /\ c_of_Z 6 <> c_zero
  /\ convert_body [(0, 1); (1, 2)] None ("INI"%string, c_of_Z 6)
     = Ok (Some [(MkPauli [false; false] [false; false], c_of_Z 3);
                 (MkPauli [true; true] [false; false], c_of_Z (-3))]).
Proof.
  split; [reflexivity|].
  assert (Hh : c_of_Z 6 <> c_zero) by c_nonzero.
  split; [exact Hh|].
  rewrite (number_term_converted [(0, 1); (1, 2)] None "INI" (c_of_Z 6) 1
             eq_refl Hh).
  cbn [_add_sparse_pauli]. do 2 f_equal.
  repeat f_equal; apply c_ext; apply Qc_is_canon; reflexivity.
Defined.

(** X9. A term whose only non-identity characters are two [N], at modes
    [p] and [q], with a non-zero coefficient [h], is never passed over and
    adds [(h/4) (I - B(q) - B(p) + B(p) B(q))] to the sum, four diagonal
    strings, on every edge list and without error: the sign of the
    reordering and the sign of the formula cancel. (For [h = 0] the
    library's product with the scalar zero is one identity string with
    coefficient zero; that case is left out.) *)
Theorem coulomb_term_converted (el : edge_list) (acc : option SparsePauliOp)
    (t : string) (h : complex) (p q : nat) :
  skeleton t = [(p, "N"%char); (q, "N"%char)] ->
  h <> c_zero ->
  p < q
  /\ convert_body el acc (t, h)
     = Ok (_add_sparse_pauli acc
             (Some [(I_pauli el, c_div_Z h 4);
                    (B_spec el q, c_neg (c_div_Z h 4));
                    (B_spec el p, c_neg (c_div_Z h 4));
                    (BB_pauli el p q, c_div_Z h 4)])).
Proof.
  intros Hsk _.
  assert (Hvalid : valid_term t = true).
  { apply valid_term_skeleton. rewrite Hsk. by repeat constructor. }
  assert (Hpq : p < q).
  { destruct (skeleton_sorted t Hvalid) as [Hsorted _]. rewrite Hsk in Hsorted.
    apply StronglySorted_inv in Hsorted as [_ Hall].
    by apply Forall_inv in Hall. }
  split; [done|].
  rewrite (convert_body_unfold el acc (t, h) coulomb_exchange
             [(p, "+"%char); (p, "-"%char); (q, "+"%char); (q, "-"%char)]).
  2:{ cbn [operator_string fst].
      by rewrite (_analyze_term_skeleton t _ Hsk) by (by repeat constructor). }
  cbn [claim_skip Ascii.eqb Bool.eqb orb andb]. rewrite andb_false_r.
  unfold dispatch, _to_physicist_index_order.
  cbn [map snd]. rewrite decide_False by done. rewrite decide_True by done.
  cbn [getitem lookup list_lookup bind fst operator_coefficient snd].
  rewrite _coulomb_exchange_closed by lia. done.
Qed.

Lemma coulomb_term_converted_witness :
  skeleton "NIN" = [(0, "N"%char); (2, "N"%char)]
  /\ c_of_Z 4 <> c_zero
  /\ convert_body [(0, 1); (1, 2)] None ("NIN"%string, c_of_Z 4)
     = Ok (Some [(MkPauli [false; false] [false; false], c_of_Z 1);
                 (MkPauli [false; true] [false; false], c_of_Z (-1));
                 (MkPauli [true; false] [false; false], c_of_Z (-1));
                 (MkPauli [true; true] [false; false], c_of_Z 1)]).
Proof.
  split; [reflexivity|].
  assert (Hh : c_of_Z 4 <> c_zero) by c_nonzero.
  split; [exact Hh|].
  destruct (coulomb_term_converted [(0, 1); (1, 2)] None "NIN" (c_of_Z 4) 0 2
              eq_refl Hh) as [_ ->].
  cbn [_add_sparse_pauli]. do 2 f_equal.
  repeat f_equal; apply c_ext; apply Qc_is_canon; reflexivity.
Defined.

(** ** The sum over a concatenation of term lists *)

Lemma for_each_app {S X : Type} (body : S -> X -> result S) (xs ys : list X)
    (s : S) :
  for_each body s (xs ++ ys)
  = (let! s' := for_each body s xs in for_each body s' ys).
Proof.
  revert s. induction xs as [|x xs IH]; intros s; [done|].
  cbn [app for_each]. destruct (body s x) as [s'|e]; [|done].
  cbn [bind]. apply IH.
Qed.

Lemma _add_sparse_pauli_assoc (a b c : option SparsePauliOp) :
  _add_sparse_pauli (_add_sparse_pauli a b) c
  = _add_sparse_pauli a (_add_sparse_pauli b c).
Proof.
  destruct a, b, c; try done. unfold _add_sparse_pauli, add.
  by rewrite app_assoc.
Qed.

Lemma _add_sparse_pauli_None_r (a : option SparsePauliOp) :
  _add_sparse_pauli a None = a.
Proof. by destruct a. Qed.

Lemma convert_body_from_None (el : edge_list) (acc : option SparsePauliOp)
    (term : string * complex) :
  convert_body el acc term
  = (let! r := convert_body el None term in Ok (_add_sparse_pauli acc r)).
Proof.
  unfold convert_body.
  destruct (_analyze_term (operator_string term)) as [[category facs]|e];
    [|done].
  cbn [bind]. destruct (skip_test facs) as [[|]|e]; [|cbn [bind]|done].
  - cbn [bind]. by rewrite _add_sparse_pauli_None_r.
  - by destruct (dispatch el category facs (operator_coefficient term)).
Qed.

Lemma _convert_operators_from_None (el : edge_list) (fer_op : FermionicOp)
    (acc : option SparsePauliOp) :
  for_each (convert_body el) acc fer_op
  = (let! r := for_each (convert_body el) None fer_op in
     Ok (_add_sparse_pauli acc r)).
Proof.
  revert acc. induction fer_op as [|term fer_op IH]; intros acc.
  { cbn [for_each bind]. by rewrite _add_sparse_pauli_None_r. }
  cbn [for_each]. rewrite (convert_body_from_None el acc).
  destruct (convert_body el None term) as [r|e]; [|done]. cbn [bind].
  rewrite (IH (_add_sparse_pauli acc r)), (IH r).
  destruct (for_each (convert_body el) None fer_op) as [r'|e]; [|done].
  cbn [bind]. by rewrite _add_sparse_pauli_assoc.
Qed.

(** X10. [_convert_operators] is additive over the list of terms: the
    result for the terms of [ops1] followed by those of [ops2] is
    [_add_sparse_pauli] of the two results, and the first error wins; and
    [_add_sparse_pauli] is associative with [None] as its identity on both
    sides, as its docstring assumes. *)
Theorem _convert_operators_app (el : edge_list) (ops1 ops2 : FermionicOp) :
  _convert_operators (ops1 ++ ops2) el
  = (let! r1 := _convert_operators ops1 el in
     let! r2 := _convert_operators ops2 el in
     Ok (_add_sparse_pauli r1 r2))
  /\ (forall a b c,
        _add_sparse_pauli (_add_sparse_pauli a b) c
        = _add_sparse_pauli a (_add_sparse_pauli b c))
  /\ (forall a, _add_sparse_pauli None a = a /\ _add_sparse_pauli a None = a).
Proof.
  split; [|split; [apply _add_sparse_pauli_assoc|]].
  - unfold _convert_operators. rewrite for_each_app.
    destruct (for_each (convert_body el) None ops1) as [r1|e]; [|done].
    cbn [bind]. apply _convert_operators_from_None.
  - intros a. split; [done|apply _add_sparse_pauli_None_r].
Qed.

(** ** Every term of a well-formed operator is converted or passed over *)

Lemma _coulomb_exchange_returns (el : edge_list) (p q s : nat) (h : complex) :
  exists op, _coulomb_exchange el p q s h = Ok op.
Proof.
  unfold _coulomb_exchange. rewrite !edge_operator_bi_closed. cbn [bind].
  eauto.
Qed.

Lemma _excitation_operator_returns (el : edge_list) (p q : nat) (h : complex) :
  p < q -> el <> [] -> exists op, _excitation_operator el p q h = Ok op.
Proof.
  intros Hpq Hne. unfold _excitation_operator.
  rewrite (proj2 (Nat.leb_gt q p) Hpq), !edge_operator_bi_closed. cbn [bind].
  destruct (edge_operator_aij_returns el p q Hne) as [a ->]. cbn [bind].
  eauto.
Qed.

Lemma _number_excitation_returns (el : edge_list) (p q r s : nat) (h : complex) :
  el <> [] -> p = r \/ p = s \/ q = r \/ q = s ->
  exists op, _number_excitation el p q r s h = Ok op.
Proof.
  intros Hne Hshared. rewrite _number_excitation_closed.
  destruct (edge_operator_aij_returns el q s Hne) as [a1 H1].
  destruct (edge_operator_aij_returns el q r Hne) as [a2 H2].
  destruct (edge_operator_aij_returns el p s Hne) as [a3 H3].
  destruct (edge_operator_aij_returns el p r Hne) as [a4 H4].
  rewrite H1, H2, H3, H4. cbn [bind].
  destruct (Nat.eqb_spec p r); [eauto|].
  destruct (Nat.eqb_spec p s); [eauto|].
  destruct (Nat.eqb_spec q r); [eauto|].
  destruct (Nat.eqb_spec q s); [eauto|]. lia.
Qed.

Lemma kind_counts_length (sk : list factor) (category : interaction) :
  Forall (fun f => snd f = "+"%char \/ snd f = "-"%char \/ snd f = "N"%char) sk ->
  (let '(n_number, n_raise, n_lower) := kind_counts sk in
   interaction_table n_number n_raise n_lower) = Some category ->
  length sk <= 4.
Proof.
  intros Hkinds Htable.
  assert (Hsum : n_number_of (kind_counts sk) + n_raise_of (kind_counts sk)
                 + n_lower_of (kind_counts sk) = length sk).
  { clear Htable. unfold kind_counts, n_number_of, n_raise_of, n_lower_of.
    cbn [fst snd]. induction Hkinds as [|[i k] sk Hk _ IH]; [done|].
    unfold count_char in *. cbn [map snd List.filter length].
    simpl in Hk. destruct Hk as [->|[->| ->]]; cbn [Ascii.eqb Bool.eqb andb length];
      lia. }
  destruct (kind_counts sk) as [[n a] b].
  apply interaction_table_counts in Htable.
  unfold n_number_of, n_raise_of, n_lower_of in Hsum. cbn [fst snd] in Hsum.
  destruct category; injection Htable as -> -> ->; lia.
Qed.

Lemma _double_excitation_total (el : edge_list) (p q r s : nat) (h : complex) :
  el <> [] -> exists op, _double_excitation el p q r s h = Ok op.
Proof.
  intros Hne.
  destruct (_double_excitation_returns el p q r s h Hne)
    as (a_pq & a_rs & _ & _ & ->).
  eauto.
Qed.

Ltac invert_lists :=
  repeat match goal with
    | H : StronglySorted _ (_ :: _) |- _ =>
        apply StronglySorted_inv in H as [? ?]
    | H : Forall _ (_ :: _) |- _ => apply Forall_cons_1 in H as [? ?]
    | H : Forall _ [] |- _ => clear H
    | H : StronglySorted _ [] |- _ => clear H
    end.

Lemma dispatch_returns (el : edge_list) (sk : list factor)
    (category : interaction) (h : complex) :
  Forall (fun f => snd f = "+"%char \/ snd f = "-"%char \/ snd f = "N"%char) sk ->
  StronglySorted lt (map fst sk) ->
  (let '(n_number, n_raise, n_lower) := kind_counts sk in
   interaction_table n_number n_raise n_lower) = Some category ->
  claim_skip (flat_map expand_factor sk) = false ->
  (category = number \/ category = coulomb_exchange \/ el <> []) ->
  exists op, dispatch el category (flat_map expand_factor sk) h = Ok op.
Proof.
  intros Hkinds Hsorted Htable Hskip Hel.
  pose proof (kind_counts_length sk category Hkinds Htable) as Hlen.
  revert Hel.
  destruct sk as [|[i0 k0] [|[i1 k1] [|[i2 k2] [|[i3 k3] [|f4 sk]]]]];
    [| | | | |simpl in Hlen; lia]; clear Hlen;
    cbn [map fst] in Hsorted; invert_lists; cbn [snd fst] in *;
    repeat match goal with
      | H : _ = _ \/ _ |- _ => destruct H as [->|H]
      | H : ?k = _ |- _ => is_var k; subst k
      end;
    cbn in Htable; try discriminate; injection Htable as <-; intros Hel;
    cbn in Hskip; rewrite ?Nat.eqb_refl in Hskip; try discriminate;
    unfold dispatch, _to_physicist_index_order;
    cbn [flat_map expand_factor snd fst app Ascii.eqb Bool.eqb andb map];
    repeat first [rewrite decide_True by done | rewrite decide_False by done];
    cbn [getitem lookup list_lookup bind fst snd].
  all: try (destruct Hel as [?|[?|Hne]]; [discriminate..|]).
  all: first
    [ rewrite _number_operator_closed; eauto
    | apply _coulomb_exchange_returns
    | apply _excitation_operator_returns; [lia|done]
    | by apply _double_excitation_total
    | apply _number_excitation_returns; [done|lia] ].
Qed.

Lemma valid_char_inv (c : ascii) :
  valid_char c = true ->
  c = "I"%char \/ c = "+"%char \/ c = "-"%char \/ c = "N"%char.
Proof.
  unfold valid_char. rewrite !orb_true_iff, !Ascii.eqb_eq. tauto.
Qed.

Lemma pair_of_nonempty (inds : list nat) : length inds = 2 -> pair_of inds <> [].
Proof. by destruct inds as [|i [|j [|k inds]]]. Qed.

Lemma term_edges_nonempty (t : string) (category : interaction) :
  valid_term t = true -> in_table t category ->
  category <> number -> category <> coulomb_exchange ->
  term_edges t <> [].
Proof.
  intros Hvalid Htable Hn Hc.
  destruct (length_inds_where_skeleton t Hvalid) as (Hpm & Hp & Hm).
  unfold in_table in Htable. unfold term_edges.
  unfold n_raise_of, n_lower_of in *.
  destruct (term_counts t) as [[n a] b]. cbn [fst snd] in *.
  pose proof (interaction_table_counts _ _ _ _ Htable) as Hcounts.
  apply interaction_table_sound in Htable as [-> _].
  destruct category; try done; injection Hcounts as -> -> ->.
  - by apply pair_of_nonempty.
  - by apply pair_of_nonempty.
  - intros [Hnil _]%app_eq_nil. by apply pair_of_nonempty in Hnil.
Qed.

Lemma convert_body_well_formed (el : edge_list) (acc : option SparsePauliOp)
    (term : string * complex) (L : nat) :
  well_formed_term L (operator_string term) ->
  (term_edges (operator_string term) <> [] -> el <> []) ->
  if passed_over (operator_string term) then convert_body el acc term = Ok acc
  else exists op, convert_body el acc term
                  = Ok (_add_sparse_pauli acc (Some op)).
Proof.
  intros (_ & Hvalid & category & Htable) Hedges.
  fold (valid_term (operator_string term)) in Hvalid.
  pose proof Htable as Htable'. unfold in_table in Htable'.
  assert (Han : _analyze_term (operator_string term)
                = Ok (category,
                      flat_map expand_factor (skeleton (operator_string term)))).
  { rewrite _analyze_term_closed, (valid_term_first_invalid _ Hvalid).
    destruct (term_counts (operator_string term)) as [[n a] b].
    by apply interaction_table_sound in Htable' as [-> _]. }
  rewrite (convert_body_unfold el acc term _ _ Han). unfold passed_over.
  destruct (claim_skip _) eqn:Hskip; [done|].
  destruct (dispatch_returns el (skeleton (operator_string term)) category
              (operator_coefficient term)) as [op ->].
  - apply valid_term_skeleton in Hvalid.
    eapply Forall_impl; [exact Hvalid|]. intros f [HI Hf].
    apply valid_char_inv in Hf. tauto.
  - by apply skeleton_sorted.
  - by rewrite <- term_counts_skeleton.
  - exact Hskip.
  - destruct category; auto; right; right; apply Hedges;
      by eapply term_edges_nonempty.
  - cbn [bind]. eauto.
Qed.

(** ** Which formula a term goes to *)

Lemma _to_physicist_index_order_four (facs facs_reordered : list factor)
    (phase : Z) :
  _to_physicist_index_order facs = Ok (facs_reordered, phase) ->
  exists fp fq fr fs, facs_reordered = [fp; fq; fr; fs].
Proof.
  unfold _to_physicist_index_order.
  destruct facs as [|f0 [|f1 [|f2 [|f3 [|f4 facs]]]]];
    repeat (case_decide; [try done|]); try done;
    cbn [getitem lookup list_lookup bind]; intros [= <- _]; eauto.
Qed.

Lemma _analyze_term_expanded (t : string) (category : interaction)
    (facs : list factor) :
  _analyze_term t = Ok (category, facs) ->
  valid_term t = true /\ facs = flat_map expand_factor (skeleton t).
Proof.
  rewrite _analyze_term_closed.
  destruct (first_invalid (list_ascii_of_string t)) eqn:Hfirst; [done|].
  apply first_invalid_None in Hfirst.
  by intros (ttype & _ & [= _ <-])%bind_inv_Ok.
Qed.

(** C6. In the term loop a classified term leaves the accumulated sum as
    it is exactly when (a) its first expanded factor is a lowering operator
    or (b) its first two expanded factors share their mode, there are more
    than two factors and the third is a lowering operator. Every other
    term goes to the conversion formula of its category, and the result of
    the formula, a non-empty sum, is added to the accumulator: a number
    term to [_number_operator] at the mode of its first factor, an
    excitation term to [_excitation_operator] at the modes of its first
    two factors, and a two-body term, once its factors are reordered, to
    [_double_excitation], [_coulomb_exchange] (which gets the modes [p],
    [q], [s]) or [_number_excitation] at the modes of the reordered
    factors, with the coefficient multiplied by the phase of the
    reordering; when the reordering raises, so does the loop. For a term
    that is a row of the table the formula returns, on a non-empty edge
    list or for a number or Coulomb term. For such a term the conjugate
    term has the same category; a self-conjugate term is converted; of a
    term and its distinct conjugate exactly one is passed over, and the
    two together, in either order, leave the accumulator as the converted
    one alone does. *)
Theorem convert_body_skip (el : edge_list) (acc : option SparsePauliOp)
    (term : string * complex) (category : interaction) (facs : list factor) :
  _analyze_term (operator_string term) = Ok (category, facs) ->
  (claim_skip facs = true -> convert_body el acc term = Ok acc)
  /\ (claim_skip facs = false ->
      exists conversion : result SparsePauliOp,
        convert_body el acc term
        = (let! qubit_op := conversion in
           Ok (_add_sparse_pauli acc (Some qubit_op)))
        /\ (forall qubit_op,
              conversion = Ok qubit_op ->
              _add_sparse_pauli acc (Some qubit_op) <> acc)
        /\ match category with
           | number =>
               exists p kp rest,
                 facs = (p, kp) :: rest
                 /\ conversion
                    = _number_operator el p (operator_coefficient term)
           | excitation =>
               exists p kp q kq rest,
                 facs = (p, kp) :: (q, kq) :: rest
                 /\ conversion
                    = _excitation_operator el p q (operator_coefficient term)
           | double_excitation =>
               match _to_physicist_index_order facs with
               | Ok (facs_reordered, phase) =>
                   exists p kp q kq r kr s ks,
                     facs_reordered = [(p, kp); (q, kq); (r, kr); (s, ks)]
                     /\ conversion
                        = _double_excitation el p q r s
                            (c_mul (c_of_Z phase) (operator_coefficient term))
               | Raise e => conversion = Raise e
               end
           | coulomb_exchange =>
               match _to_physicist_index_order facs with
               | Ok (facs_reordered, phase) =>
                   exists p kp q kq r kr s ks,
                     facs_reordered = [(p, kp); (q, kq); (r, kr); (s, ks)]
                     /\ conversion
                        = _coulomb_exchange el p q s
                            (c_mul (c_of_Z phase) (operator_coefficient term))
               | Raise e => conversion = Raise e
               end
           | number_excitation =>
               match _to_physicist_index_order facs with
               | Ok (facs_reordered, phase) =>
                   exists p kp q kq r kr s ks,
                     facs_reordered = [(p, kp); (q, kq); (r, kr); (s, ks)]
                     /\ conversion
                        = _number_excitation el p q r s
                            (c_mul (c_of_Z phase) (operator_coefficient term))
               | Raise e => conversion = Raise e
               end
           end
        /\ (in_table (operator_string term) category ->
            category = number \/ category = coulomb_exchange \/ el <> [] ->
            exists qubit_op, conversion = Ok qubit_op))
  /\ (in_table (operator_string term) category ->
      exists facs',
        _analyze_term (hermitian_conjugate (operator_string term))
        = Ok (category, facs')
        /\ (hermitian_conjugate (operator_string term) = operator_string term ->
            claim_skip facs = false)
        /\ (hermitian_conjugate (operator_string term) <> operator_string term ->
            claim_skip facs' = negb (claim_skip facs)
            /\ forall coeff' : complex,
                let conjugate :=
                  (hermitian_conjugate (operator_string term), coeff') in
                let converted := if claim_skip facs then conjugate else term in
                for_each (convert_body el) acc [term; conjugate]
                = convert_body el acc converted
                /\ for_each (convert_body el) acc [conjugate; term]
                   = convert_body el acc converted)).
Proof.
  intros Han.
  pose proof (convert_body_unfold el acc term category facs Han) as Hbody.
  split; [by intros Hskip; rewrite Hskip in Hbody|].
  split; [|by apply convert_body_conjugates].
  intros Hskip. rewrite Hskip in Hbody.
  exists (dispatch el category facs (operator_coefficient term)).
  split; [done|]. split.
  { intros op Hop. apply _add_sparse_pauli_changes.
    by apply dispatch_nonempty in Hop. }
  split.
  - assert (Hlen : 2 <= length facs).
    { destruct (_analyze_term_inv _ _ _ Han) as (n & a & b & Hun & Hty).
      pose proof (unpack_from_length _ _ _ Hun) as Hlen.
      unfold n_number_of, n_raise_of, n_lower_of in Hlen. simpl in Hlen.
      apply _interaction_type_two_factors in Hty. lia. }
    destruct facs as [|[p kp] [|[q kq] rest]]; [simpl in Hlen; lia..|].
    clear Hlen Hbody Hskip Han. unfold dispatch.
    destruct category.
    1: by exists p, kp, ((q, kq) :: rest).
    2: by exists p, kp, q, kq, rest.
    all: destruct (_to_physicist_index_order _) as [[facs_reordered phase]|e]
           eqn:Hre; [|done];
         destruct (_to_physicist_index_order_four _ _ _ Hre)
           as ([p' kp'] & [q' kq'] & [r' kr'] & [s' ks'] & ->);
         by exists p', kp', q', kq', r', kr', s', ks'.
  - intros Htable Hel.
    destruct (_analyze_term_expanded _ _ _ Han) as [Hvalid ->].
    apply (dispatch_returns el (skeleton (operator_string term))).
    + apply valid_term_skeleton in Hvalid.
      eapply Forall_impl; [exact Hvalid|]. intros f [HI Hf].
      apply valid_char_inv in Hf. tauto.
    + by apply skeleton_sorted.
    + unfold in_table in Htable. by rewrite <- term_counts_skeleton.
    + exact Hskip.
    + exact Hel.
Qed.

Lemma convert_body_skip_witness :
  _analyze_term "+--+"
  = Ok (double_excitation, [(0, "+"); (1, "-"); (2, "-"); (3, "+")]%char)
  /\ convert_body [(0, 3); (1, 2)] None ("-++-"%string, c_one) = Ok None
  /\ convert_body [(0, 3); (1, 2)] None ("+--+"%string, c_one)
     = (let! qubit_op := _double_excitation [(0, 3); (1, 2)] 0 3 1 2
                           (c_mul (c_of_Z 1) c_one) in
        Ok (Some qubit_op))
  /\ (exists op, convert_body [(0, 3); (1, 2)] None ("+--+"%string, c_one)
                 = Ok (Some op))
  /\ in_table "+--+" double_excitation
  /\ hermitian_conjugate "+--+" = "-++-"%string.
Proof.
  assert (Han : _analyze_term (operator_string ("+--+"%string, c_one))
                = Ok (double_excitation,
                      [(0, "+"); (1, "-"); (2, "-"); (3, "+")]%char))
    by reflexivity.
  assert (Han' : _analyze_term (operator_string ("-++-"%string, c_one))
                = Ok (double_excitation,
                      [(0, "-"); (1, "+"); (2, "+"); (3, "-")]%char))
    by reflexivity.
  assert (Hre : _to_physicist_index_order
                  [(0, "+"); (1, "-"); (2, "-"); (3, "+")]%char
                = Ok ([(0, "+"); (3, "+"); (1, "-"); (2, "-")]%char, 1%Z))
    by reflexivity.
  assert (Htable : in_table "+--+" double_excitation) by reflexivity.
  split; [exact Han|].
  split; [exact (proj1 (convert_body_skip [(0, 3); (1, 2)] None _ _ _ Han')
                   eq_refl)|].
  destruct (convert_body_skip [(0, 3); (1, 2)] None _ _ _ Han)
    as (_ & Hconvert & _).
  destruct (Hconvert eq_refl) as (conversion & Hbody & _ & Hpin & Hreturns).
  rewrite Hre in Hpin.
  destruct Hpin as (p & kp & q & kq & r & kr & s & ks & [= <- _ <- _ <- _ <- _]
                    & Hconv).
  split; [by rewrite Hbody, Hconv|].
  split; [|split; [exact Htable|reflexivity]].
  destruct (Hreturns Htable) as [op Hop]; [by right; right|].
  exists op. by rewrite Hbody, Hop.
Defined.

Lemma _convert_operators_well_formed (el : edge_list) (L : nat)
    (fer_op : FermionicOp) (acc : option SparsePauliOp) :
  Forall (fun term => well_formed_term L (operator_string term)) fer_op ->
  Forall (fun term => term_edges (operator_string term) <> [] -> el <> [])
    fer_op ->
  exists r,
    for_each (convert_body el) acc fer_op = Ok r
    /\ (r = None
        <-> acc = None
            /\ Forall (fun term => passed_over (operator_string term) = true)
                 fer_op).
Proof.
  intros Hwf Hedges. revert acc.
  induction fer_op as [|term fer_op IH]; intros acc.
  { exists acc. split; [done|]. split; [by intros ->|tauto]. }
  apply Forall_cons_1 in Hwf as [Hterm Hwf].
  apply Forall_cons_1 in Hedges as [Hedge Hedges].
  pose proof (convert_body_well_formed el acc term L Hterm Hedge) as Hbody.
  cbn [for_each]. destruct (passed_over (operator_string term)) eqn:Hpassed.
  - rewrite Hbody. cbn [bind].
    destruct (IH Hwf Hedges acc) as (r & -> & Hr). exists r. split; [done|].
    rewrite Hr, Forall_cons. tauto.
  - destruct Hbody as [op ->]. cbn [bind].
    destruct (IH Hwf Hedges (_add_sparse_pauli acc (Some op))) as (r & -> & Hr).
    exists r. split; [done|]. rewrite Hr, Forall_cons, Hpassed.
    split; [|intros (_ & [=] & _)]. intros [Hacc _]. by destruct acc.
Qed.

(** X11. On a well-formed operator (not empty, every term a string of the
    same length over [I+-N] whose counts are a row of the category table)
    the two conversion steps of [map] never fail: the edge list is built and
    every term is either passed over or converted by its formula. The sum
    is [None] exactly when every term is passed over. *)
Theorem map_terms_well_formed (fer_op : FermionicOp) :
  well_formed fer_op ->
  exists el r,
    map_terms fer_op = Ok (el, r)
    /\ (r = None
        <-> Forall (fun term => passed_over (operator_string term) = true)
              fer_op).
Proof.
  intros Hwf. destruct (bksf_edge_list_returns fer_op Hwf) as [el Hel].
  destruct Hwf as (_ & L & Hterms).
  unfold map_terms. rewrite Hel. cbn [bind].
  destruct (_convert_operators_well_formed el L fer_op None) as (r & Hrun & Hr);
    [exact Hterms| |].
  - apply bksf_edge_list_inv in Hel as (n & m & _ & Hfold & ->).
    destruct (adjacency_fold n _ _ _ Hfold) as (Htrue & _ & _).
    rewrite Forall_forall. intros term Hin Hne Hnil.
    destruct (term_edges (operator_string term)) as [|[a b] es] eqn:He; [done|].
    assert (Hab : (a, b) ∈ np_nonzero m).
    { apply elem_of_np_nonzero, Htrue. right. exists term. split; [done|].
      rewrite He. apply list_elem_of_here. }
    rewrite Hnil in Hab. by apply not_elem_of_nil in Hab.
  - exists el, r. unfold _convert_operators. rewrite Hrun. cbn [bind].
    split; [done|]. rewrite Hr. tauto.
Qed.

Lemma map_terms_well_formed_witness :
  well_formed [("+-I"%string, c_one); ("-+I"%string, c_one);
               ("INN"%string, c_one)]
  /\ (exists el r,
        map_terms [("+-I"%string, c_one); ("-+I"%string, c_one);
                   ("INN"%string, c_one)] = Ok (el, r)
        /\ (r = None
            <-> Forall (fun term => passed_over (operator_string term) = true)
                  [("+-I"%string, c_one); ("-+I"%string, c_one);
                   ("INN"%string, c_one)]))
  /\ passed_over "-+I" = true
  /\ map_terms [("-+I"%string, c_one)] = Ok ([(0, 1)], None).
Proof.
  assert (Hwf : well_formed [("+-I"%string, c_one); ("-+I"%string, c_one);
                             ("INN"%string, c_one)]).
  { split; [done|]. exists 3.
    repeat constructor; cbn [fst]; by eexists. }
  split; [exact Hwf|]. split; [exact (map_terms_well_formed _ Hwf)|].
  split; reflexivity.
Defined.

(** ** The phase of a product with one X factor *)

Lemma phase_sum_no_x (z1 x1 z2 x2 : list bool) :
  Forall (eq false) x1 -> Forall (eq false) x2 -> phase_sum z1 x1 z2 x2 = 0.
Proof.
  intros H1. revert z1 z2 x2.
  induction H1 as [|b x1 <- _ IH]; intros [|a z1] [|c z2] x2 H2; try done.
  destruct H2 as [|d x2 <- H2]; [done|].
  cbn [phase_sum]. rewrite IH by done. by destruct a, c.
Qed.

Lemma Forall_false_lookup (x : list bool) :
  (forall k, x !! k <> Some true) -> Forall (eq false) x.
Proof.
  intros Hx. apply Forall_lookup. intros k [|] Hk; [|done].
  by apply Hx in Hk.
Qed.

Lemma phase_sum_x_left (z1 x1 z2 x2 : list bool) (pos : nat) :
  Forall (eq false) x2 -> pos < length x2 ->
  (forall k, x1 !! k = Some true -> k = pos) ->
  z1 !! pos = Some false -> x1 !! pos = Some true -> z2 !! pos = Some true ->
  phase_sum z1 x1 z2 x2 = 3.
Proof.
  revert z1 x1 z2 x2.
  induction pos as [|pos IH]; intros [|a z1] [|b x1] [|c z2] [|d x2];
    try done; intros Hx2 Hlen Hone Hz1 Hx1 Hz2; try (simpl in Hlen; lia).
  - injection Hz1 as ->. injection Hx1 as ->. injection Hz2 as ->.
    apply Forall_cons_1 in Hx2 as [<- Hx2]. cbn [phase_sum phase_exponent].
    rewrite phase_sum_no_x; [done| |done].
    apply Forall_false_lookup. intros k Hk. by specialize (Hone (S k) Hk).
  - apply Forall_cons_1 in Hx2 as [<- Hx2]. cbn [phase_sum].
    assert (b = false) as ->.
    { destruct b; [|done]. by specialize (Hone 0 eq_refl). }
    rewrite (IH z1 x1 z2 x2); try done.
    + by destruct a, c.
    + simpl in Hlen. lia.
    + intros k Hk. specialize (Hone (S k) Hk). lia.
Qed.

Lemma phase_sum_x_right (z1 x1 z2 x2 : list bool) (pos : nat) :
  Forall (eq false) x1 -> pos < length x1 ->
  (forall k, x2 !! k = Some true -> k = pos) ->
  z1 !! pos = Some true -> z2 !! pos = Some false -> x2 !! pos = Some true ->
  phase_sum z1 x1 z2 x2 = 1.
Proof.
  revert z1 x1 z2 x2.
  induction pos as [|pos IH]; intros [|a z1] [|b x1] [|c z2] [|d x2];
    try done; intros Hx1 Hlen Hone Hz1 Hz2 Hx2; try (simpl in Hlen; lia).
  - injection Hz1 as ->. injection Hx2 as ->. injection Hz2 as ->.
    apply Forall_cons_1 in Hx1 as [<- Hx1]. cbn [phase_sum phase_exponent].
    rewrite phase_sum_no_x; [done|done|].
    apply Forall_false_lookup. intros k Hk. by specialize (Hone (S k) Hk).
  - apply Forall_cons_1 in Hx1 as [<- Hx1]. cbn [phase_sum].
    assert (d = false) as ->.
    { destruct d; [|done]. by specialize (Hone 0 eq_refl). }
    rewrite (IH z1 x1 z2 x2); try done.
    + by destruct a, c.
    + simpl in Hlen. lia.
    + intros k Hk. specialize (Hone (S k) Hk). lia.
Qed.

Lemma A_spec_x_lookup (el : edge_list) (i j pos k : nat) :
  pauli_x (A_spec el i j pos) !! k = Some true -> k = pos.
Proof.
  cbn [A_spec pauli_x]. rewrite list_lookup_imap.
  destruct (el !! k); [|done]. simpl. intros [= Hk]. by apply Nat.eqb_eq.
Qed.

Lemma joins_incident (i j : nat) (e : nat * nat) :
  joins i j e -> incident e i = true /\ incident e j = true.
Proof.
  unfold incident.
  intros [-> | ->]; cbn [fst snd]; rewrite !Nat.eqb_refl;
    split; by rewrite ?orb_true_r.
Qed.

Lemma c_excitation_minus (h : complex) :
  c_mul (c_mul (c_mul (c_neg c_j) half) h) (c_mul_ipow 3 (c_mul c_one c_one))
  = c_neg (c_div_Z h 2).
Proof.
  change (c_mul_ipow 3 (c_mul c_one c_one))
    with (Cplx (im (c_mul c_one c_one)) (- re (c_mul c_one c_one))%Qc).
  c_ring.
Qed.

Lemma c_excitation_plus (h : complex) :
  c_mul (c_mul (c_mul (c_neg c_j) half) h) (c_mul_ipow 1 (c_mul c_one c_one))
  = c_div_Z h 2.
Proof.
  change (c_mul_ipow 1 (c_mul c_one c_one))
    with (Cplx (- im (c_mul c_one c_one))%Qc (re (c_mul c_one c_one))).
  c_ring.
Qed.

Lemma _excitation_operator_closed (el : edge_list) (p q pos : nat) (h : complex) :
  p < q -> edge_position el p q = Some pos ->
  _excitation_operator el p q h
  = Ok [(pauli_xor (A_spec el p q pos) (B_spec el q), c_neg (c_div_Z h 2));
        (pauli_xor (B_spec el p) (A_spec el p q pos), c_div_Z h 2)].
Proof.
  intros Hpq Hpos. unfold _excitation_operator.
  rewrite (proj2 (Nat.leb_gt q p) Hpq), !edge_operator_bi_closed,
    (edge_operator_aij_at_edge el p q pos Hpos).
  cbn [bind].
  apply edge_position_Some in Hpos as (e & He & [Hp Hq]%joins_incident & _).
  assert (Hlt : pos < length el) by (by eapply lookup_lt_Some).
  unfold of_pauli, compose, add, scale, term_dot, pauli_dot.
  cbn [flat_map map app fst snd]. fold (pauli_xor (A_spec el p q pos) (B_spec el q)).
  fold (pauli_xor (B_spec el p) (A_spec el p q pos)).
  rewrite (phase_sum_x_left _ _ _ _ pos), (phase_sum_x_right _ _ _ _ pos).
  - by rewrite c_excitation_minus, c_excitation_plus.
  - apply Forall_replicate_eq.
  - cbn [B_spec pauli_x]. by rewrite length_replicate.
  - apply A_spec_x_lookup.
  - cbn [B_spec pauli_z]. by rewrite list_lookup_fmap, He; cbn; rewrite Hp.
  - cbn [A_spec pauli_z]. by rewrite list_lookup_imap, He; cbn;
      rewrite Nat.eqb_refl.
  - cbn [A_spec pauli_x]. by rewrite list_lookup_imap, He; cbn;
      rewrite Nat.eqb_refl.
  - apply Forall_replicate_eq.
  - cbn [B_spec pauli_x]. by rewrite length_replicate.
  - apply A_spec_x_lookup.
  - cbn [A_spec pauli_z]. by rewrite list_lookup_imap, He; cbn;
      rewrite Nat.eqb_refl.
  - cbn [A_spec pauli_x]. by rewrite list_lookup_imap, He; cbn;
      rewrite Nat.eqb_refl.
  - cbn [B_spec pauli_z]. by rewrite list_lookup_fmap, He; cbn; rewrite Hq.
Qed.

(** ** Terms with an edge operator, end to end *)

Lemma bksf_edge_list_upper (fer_op : FermionicOp) (el : edge_list) (a b : nat) :
  bksf_edge_list_fermionic_op fer_op = Ok el -> (a, b) ∈ el -> a < b.
Proof.
  intros Hrun Hab. unfold bksf_edge_list_fermionic_op in Hrun.
  apply bind_inv_Ok in Hrun as (m & Hm & <-%Ok_inj).
  apply elem_of_nonzero_from in Hab as (_ & row & Hrow & Hb).
  rewrite Nat.sub_0_r in Hrow.
  by apply (_get_adjacency_matrix_upper fer_op m Hm a b row).
Qed.

Lemma term_edge_position (fer_op : FermionicOp) (el : edge_list)
    (term : string * complex) (a b : nat) :
  bksf_edge_list_fermionic_op fer_op = Ok el ->
  term ∈ fer_op -> (a, b) ∈ term_edges (operator_string term) ->
  exists pos, edge_position el a b = Some pos /\ el !! pos = Some (a, b).
Proof.
  intros Hrun Hin Hab.
  assert (Hel : (a, b) ∈ el).
  { pose proof Hrun as (n & m & _ & Hfold & ->)%bksf_edge_list_inv.
    destruct (adjacency_fold n _ _ _ Hfold) as (Htrue & _ & _).
    apply elem_of_np_nonzero, Htrue. eauto. }
  pose proof (bksf_edge_list_upper _ _ _ _ Hrun Hel) as Hlt.
  destruct (edge_position el a b) as [pos|] eqn:Hpos.
  - exists pos. split; [done|].
    apply edge_position_Some in Hpos as (e & He & [-> | ->] & _); [done|].
    apply list_elem_of_lookup_2 in He.
    apply (bksf_edge_list_upper _ _ _ _ Hrun) in He. lia.
  - rewrite edge_position_None in Hpos. destruct (Hpos _ Hel). by left.
Qed.

Lemma term_edges_skeleton (t : string) :
  term_edges t
  = (let '(n_number, n_raise, n_lower) := kind_counts (skeleton t) in
     match _interaction_type n_number n_raise n_lower with
     | Ok excitation | Ok number_excitation =>
         pair_of (inds_where in_plus_minus (skeleton t))
     | Ok double_excitation =>
         pair_of (inds_where (fun c => (c =? "+")%char) (skeleton t))
         ++ pair_of (inds_where (fun c => (c =? "-")%char) (skeleton t))
     | _ => []
     end).
Proof. unfold term_edges. by rewrite term_counts_skeleton. Qed.

Lemma convert_body_skeleton (el : edge_list) (acc : option SparsePauliOp)
    (t : string) (h : complex) (sk : list factor) (category : interaction) :
  skeleton t = sk ->
  Forall (fun f => valid_char (snd f) = true) sk ->
  (let '(n_number, n_raise, n_lower) := kind_counts sk in
   _interaction_type n_number n_raise n_lower) = Ok category ->
  convert_body el acc (t, h)
  = (if claim_skip (flat_map expand_factor sk) then Ok acc
     else
       let! qubit_op := dispatch el category (flat_map expand_factor sk) h in
       Ok (_add_sparse_pauli acc (Some qubit_op))).
Proof.
  intros Hsk Hvalid Hcat.
  apply (convert_body_unfold el acc (t, h)). cbn [operator_string fst].
  rewrite (_analyze_term_skeleton t sk Hsk Hvalid).
  destruct (kind_counts sk) as [[n a] b]. by rewrite Hcat.
Qed.

Lemma skeleton_modes_sorted (t : string) (sk : list factor) :
  skeleton t = sk ->
  Forall (fun f => valid_char (snd f) = true) sk ->
  StronglySorted lt (map fst sk).
Proof.
  intros Hsk Hvalid. rewrite <- Hsk. apply skeleton_sorted.
  apply valid_term_skeleton. rewrite Forall_forall. intros [i c] Hin. split.
  - apply elem_of_skeleton in Hin. tauto.
  - rewrite Hsk in Hin. by apply (proj1 (Forall_forall _ _) Hvalid (i, c)).
Qed.

(** X12. A hopping term of the operator, [+] at mode [p] and [-] at a later
    mode [q] with a non-zero coefficient [h], is converted with [A(p, q)]
    taken at the column of the edge [(p, q)] that the graph builder made
    for it, and adds exactly two Pauli strings with real multiples of [h]:
    [-(h/2)] times the string of [A(p,q) B(q)] and [+(h/2)] times the
    string of [B(p) A(p,q)]. (For [h = 0] the library's product with the
    scalar zero is one identity string with coefficient zero; that case is
    left out.) *)
Theorem excitation_term_converted (fer_op : FermionicOp) (el : edge_list)
    (acc : option SparsePauliOp) (t : string) (h : complex) (p q : nat) :
  bksf_edge_list_fermionic_op fer_op = Ok el ->
  (t, h) ∈ fer_op ->
  skeleton t = [(p, "+"%char); (q, "-"%char)] ->
  h <> c_zero ->
  exists pos,
    edge_position el p q = Some pos
    /\ el !! pos = Some (p, q)
    /\ convert_body el acc (t, h)
       = Ok (_add_sparse_pauli acc
               (Some [(pauli_xor (A_spec el p q pos) (B_spec el q),
                       c_neg (c_div_Z h 2));
                      (pauli_xor (B_spec el p) (A_spec el p q pos),
                       c_div_Z h 2)])).
Proof.
  intros Hrun Hin Hsk _.
  assert (Hvalid : Forall (fun f : factor => valid_char (snd f) = true)
                     [(p, "+"%char); (q, "-"%char)]) by (by repeat constructor).
  pose proof (skeleton_modes_sorted t _ Hsk Hvalid) as Hsorted.
  cbn [map fst] in Hsorted. apply StronglySorted_inv in Hsorted as [_ Hpq].
  apply Forall_inv in Hpq.
  destruct (term_edge_position fer_op el (t, h) p q Hrun Hin)
    as (pos & Hpos & Hcol).
  { cbn [operator_string fst]. rewrite term_edges_skeleton, Hsk. cbn.
    apply list_elem_of_here. }
  exists pos. split; [done|]. split; [done|].
  rewrite (convert_body_skeleton el acc t h _ excitation Hsk Hvalid eq_refl).
  cbn [flat_map expand_factor snd fst app Ascii.eqb Bool.eqb andb claim_skip orb].
  cbn [dispatch getitem lookup list_lookup bind fst snd].
  by rewrite (_excitation_operator_closed el p q pos h) by done.
Qed.

Lemma excitation_term_converted_witness :
  bksf_edge_list_fermionic_op [("+I-"%string, c_of_Z 2)] = Ok [(0, 2)]
  /\ c_of_Z 2 <> c_zero
  /\ convert_body [(0, 2)] None ("+I-"%string, c_of_Z 2)
     = Ok (Some [(MkPauli [true] [true], c_of_Z (-1));
                 (MkPauli [true] [true], c_of_Z 1)]).
Proof.
  split; [reflexivity|].
  assert (Hh : c_of_Z 2 <> c_zero) by c_nonzero.
  split; [exact Hh|].
  destruct (excitation_term_converted [("+I-"%string, c_of_Z 2)] [(0, 2)] None
              "+I-" (c_of_Z 2) 0 2 eq_refl)
    as (pos & Hpos & _ & ->); [apply list_elem_of_here|reflexivity|exact Hh|].
  injection Hpos as <-. cbn [_add_sparse_pauli]. do 2 f_equal.
  repeat f_equal; apply c_ext; apply Qc_is_canon; reflexivity.
Defined.

Lemma c_div_Z_phase (h : complex) :
  c_div_Z (c_mul c_j (c_mul (c_of_Z (-1)) h)) 4
  = c_div_Z (c_mul (c_neg c_j) h) 4.
Proof. c_ring. Qed.

Lemma number_excitation_formula_phase (el : edge_list) (a b shared : nat)
    (h : complex) (x : SparsePauliOp) :
  number_excitation_formula el a b shared true (c_mul (c_of_Z (-1)) h) x
  = number_excitation_formula el a b shared false h x.
Proof. unfold number_excitation_formula. by rewrite c_div_Z_phase. Qed.

Lemma c_mul_one_l (h : complex) : c_mul (c_of_Z 1) h = h.
Proof. destruct h. c_ring. Qed.

(** X13. A number-excitation term of the operator, [N] at mode [n], [+] at
    mode [a] and [-] at a later mode [b], wherever [n] stands, is converted
    with [A(a, b)] taken at the column of the edge [(a, b)] that the graph
    builder made for it, and adds
    [(-i h/4) (A(a,b) B(b) + B(a) A(a,b)) (I - B(n))]: the sign of the
    reordering and the sign chosen by the formula always combine to [-i]. *)
Theorem number_excitation_term_converted (fer_op : FermionicOp)
    (el : edge_list) (acc : option SparsePauliOp) (t : string) (h : complex)
    (n a b : nat) :
  bksf_edge_list_fermionic_op fer_op = Ok el ->
  (t, h) ∈ fer_op ->
  skeleton t = [(n, "N"); (a, "+"); (b, "-")]%char
  \/ skeleton t = [(a, "+"); (n, "N"); (b, "-")]%char
  \/ skeleton t = [(a, "+"); (b, "-"); (n, "N")]%char ->
  exists pos,
    edge_position el a b = Some pos
    /\ el !! pos = Some (a, b)
    /\ convert_body el acc (t, h)
       = Ok (_add_sparse_pauli acc
               (Some (number_excitation_formula el a b n false h
                        (of_pauli (A_spec el a b pos))))).
Proof.
  intros Hrun Hin Hsk.
  assert (Hedge : (a, b) ∈ term_edges t).
  { rewrite term_edges_skeleton.
    destruct Hsk as [-> |[-> | ->]]; cbn; apply list_elem_of_here. }
  destruct (term_edge_position fer_op el (t, h) a b Hrun Hin Hedge)
    as (pos & Hpos & Hcol).
  exists pos. split; [done|]. split; [done|].
  pose proof (edge_operator_aij_at_edge el a b pos Hpos) as HA.
  destruct Hsk as [Hsk|[Hsk|Hsk]];
    (assert (Hvalid : Forall (fun f : factor => valid_char (snd f) = true)
                        (skeleton t))
       by (rewrite Hsk; by repeat constructor));
    pose proof (skeleton_modes_sorted t _ eq_refl Hvalid) as Hsorted;
    rewrite Hsk in Hvalid, Hsorted; cbn [map fst] in Hsorted;
    rewrite (convert_body_skeleton el acc t h _ number_excitation Hsk Hvalid
               eq_refl);
    clear Hvalid; invert_lists;
    cbn [flat_map expand_factor snd fst app Ascii.eqb Bool.eqb andb claim_skip
         orb];
    rewrite ?andb_false_r;
    unfold dispatch, _to_physicist_index_order; cbn [map snd];
    repeat first [rewrite decide_True by done | rewrite decide_False by done];
    cbn [getitem lookup list_lookup bind fst snd];
    rewrite _number_excitation_closed.
  - rewrite Nat.eqb_refl, HA. cbn [bind].
    by rewrite number_excitation_formula_phase.
  - destruct (Nat.eqb_spec a n); [lia|]. cbn [andb].
    destruct (Nat.eqb_spec a b); [lia|].
    rewrite Nat.eqb_refl, HA. cbn [bind]. by rewrite c_mul_one_l.
  - destruct (Nat.eqb_spec a b); [lia|]. destruct (Nat.eqb_spec a n); [lia|].
    destruct (Nat.eqb_spec n b); [lia|]. rewrite Nat.eqb_refl, HA. cbn [bind].
    by rewrite number_excitation_formula_phase.
Qed.

Lemma number_excitation_term_converted_witness :
  bksf_edge_list_fermionic_op [("+N-"%string, c_one)] = Ok [(0, 2)]
  /\ convert_body [(0, 2)] None ("+N-"%string, c_one)
     = Ok (Some (number_excitation_formula [(0, 2)] 0 2 1 false c_one
                   (of_pauli (A_spec [(0, 2)] 0 2 0)))).
Proof.
  split; [reflexivity|].
  destruct (number_excitation_term_converted [("+N-"%string, c_one)] [(0, 2)]
              None "+N-" c_one 1 0 2 eq_refl)
    as (pos & Hpos & _ & ->);
    [apply list_elem_of_here|right; left; reflexivity|].
  by injection Hpos as <-.
Defined.

(** X14. A double-excitation term of the operator that is not passed over,
    with [+] at modes [c1 < c2] and [-] at modes [a1 < a2] in one of the
    orders [++--], [+-+-] and [+--+], is converted by the double-excitation
    formula on [(c1, c2, a1, a2)], with [A(c1, c2)] and [A(a1, a2)] taken at
    the columns of the two edges that the graph builder made for the term;
    the coefficient is negated for [+-+-] only. *)
Theorem double_excitation_term_converted (fer_op : FermionicOp)
    (el : edge_list) (acc : option SparsePauliOp) (t : string) (h : complex)
    (c1 c2 a1 a2 : nat) (sign : Z) :
  bksf_edge_list_fermionic_op fer_op = Ok el ->
  (t, h) ∈ fer_op ->
  (skeleton t = [(c1, "+"); (c2, "+"); (a1, "-"); (a2, "-")]%char
   /\ sign = 1%Z)
  \/ (skeleton t = [(c1, "+"); (a1, "-"); (c2, "+"); (a2, "-")]%char
      /\ sign = (-1)%Z)
  \/ (skeleton t = [(c1, "+"); (a1, "-"); (a2, "-"); (c2, "+")]%char
      /\ sign = 1%Z) ->
  exists pos_c pos_a,
    edge_position el c1 c2 = Some pos_c
    /\ el !! pos_c = Some (c1, c2)
    /\ edge_position el a1 a2 = Some pos_a
    /\ el !! pos_a = Some (a1, a2)
    /\ convert_body el acc (t, h)
       = Ok (_add_sparse_pauli acc
               (Some (double_excitation_formula el c1 c2 a1 a2
                        (c_mul (c_of_Z sign) h)
                        (of_pauli (A_spec el c1 c2 pos_c))
                        (of_pauli (A_spec el a1 a2 pos_a))))).
Proof.
  intros Hrun Hin Hsk.
  assert (Hedges : (c1, c2) ∈ term_edges t /\ (a1, a2) ∈ term_edges t).
  { rewrite term_edges_skeleton.
    destruct Hsk as [[-> _]|[[-> _]|[-> _]]]; cbn;
      split; [apply list_elem_of_here|apply list_elem_of_further, list_elem_of_here
             |apply list_elem_of_here|apply list_elem_of_further, list_elem_of_here
             |apply list_elem_of_here|apply list_elem_of_further, list_elem_of_here]. }
  destruct Hedges as [Hc Ha].
  destruct (term_edge_position fer_op el (t, h) c1 c2 Hrun Hin Hc)
    as (pos_c & Hpos_c & Hcol_c).
  destruct (term_edge_position fer_op el (t, h) a1 a2 Hrun Hin Ha)
    as (pos_a & Hpos_a & Hcol_a).
  exists pos_c, pos_a. do 4 (split; [done|]).
  pose proof (edge_operator_aij_at_edge el c1 c2 pos_c Hpos_c) as HAc.
  pose proof (edge_operator_aij_at_edge el a1 a2 pos_a Hpos_a) as HAa.
  destruct Hsk as [[Hsk ->]|[[Hsk ->]|[Hsk ->]]];
    (assert (Hvalid : Forall (fun f : factor => valid_char (snd f) = true)
                        (skeleton t))
       by (rewrite Hsk; by repeat constructor));
    pose proof (skeleton_modes_sorted t _ eq_refl Hvalid) as Hsorted;
    rewrite Hsk in Hvalid, Hsorted; cbn [map fst] in Hsorted;
    rewrite (convert_body_skeleton el acc t h _ double_excitation Hsk Hvalid
               eq_refl);
    clear Hvalid; invert_lists;
    cbn [flat_map expand_factor snd fst app Ascii.eqb Bool.eqb andb claim_skip
         orb];
    rewrite ?andb_false_r;
    repeat match goal with
      | |- context [?x =? ?y] => destruct (Nat.eqb_spec x y); [lia|]
      end;
    cbn [andb];
    unfold dispatch, _to_physicist_index_order; cbn [map snd];
    repeat first [rewrite decide_True by done | rewrite decide_False by done];
    cbn [getitem lookup list_lookup bind fst snd];
    by rewrite (_double_excitation_closed el c1 c2 a1 a2 _ _ _ HAc HAa).
Qed.

Lemma double_excitation_term_converted_witness :
  bksf_edge_list_fermionic_op [("+-+-"%string, c_one)] = Ok [(0, 2); (1, 3)]
  /\ convert_body [(0, 2); (1, 3)] None ("+-+-"%string, c_one)
     = Ok (Some (double_excitation_formula [(0, 2); (1, 3)] 0 2 1 3
                   (c_mul (c_of_Z (-1)) c_one)
                   (of_pauli (A_spec [(0, 2); (1, 3)] 0 2 0))
                   (of_pauli (A_spec [(0, 2); (1, 3)] 1 3 1)))).
Proof.
  split; [reflexivity|].
  destruct (double_excitation_term_converted [("+-+-"%string, c_one)]
              [(0, 2); (1, 3)] None "+-+-" c_one 0 2 1 3 (-1) eq_refl)
    as (pos_c & pos_a & Hpos_c & _ & Hpos_a & _ & ->);
    [apply list_elem_of_here|right; left; split; reflexivity|].
  injection Hpos_c as <-. by injection Hpos_a as <-.
Defined.

(** ** When the conversion formulas fail *)

Lemma edge_operator_aij_no_column (i j : nat) :
  edge_operator_aij [] i j = Raise IndexError.
Proof. by rewrite edge_operator_aij_closed. Qed.

(** X15. The failures of the five conversion formulas. [_number_operator]
    and [_coulomb_exchange] return on every input. [_excitation_operator]
    raises [ValueError("Expected p < q, got p = ", p, ", q = ", q)] when
    [p >= q], before it looks at the edge list.
    The three formulas that use an edge operator raise [IndexError] on an
    edge list without columns, and on an edge list with at least one column
    they return, whether or not the pairs they ask for are edges;
    [_number_excitation] needs one of its four equalities for that. *)
Theorem conversion_formulas_failures (el : edge_list) (p q r s : nat)
    (h : complex) :
  returns (_number_operator el p h) = true
  /\ returns (_coulomb_exchange el p q s h) = true
  /\ (q <= p ->
      _excitation_operator el p q h
      = Raise (ValueErrorArgs [ArgStr "Expected p < q, got p = ";
                               ArgInt (Z.of_nat p);
                               ArgStr ", q = ";
                               ArgInt (Z.of_nat q)]))
  /\ (el = [] ->
      (p < q -> _excitation_operator el p q h = Raise IndexError)
      /\ _double_excitation el p q r s h = Raise IndexError
      /\ (p = r \/ p = s \/ q = r \/ q = s ->
          _number_excitation el p q r s h = Raise IndexError))
  /\ (el <> [] ->
      (p < q -> returns (_excitation_operator el p q h) = true)
      /\ returns (_double_excitation el p q r s h) = true
      /\ (p = r \/ p = s \/ q = r \/ q = s ->
          returns (_number_excitation el p q r s h) = true)).
Proof.
  split; [by rewrite _number_operator_closed|].
  split; [by destruct (_coulomb_exchange_returns el p q s h) as [op ->]|].
  split; [|split].
  - intros Hqp. unfold _excitation_operator.
    by rewrite (proj2 (Nat.leb_le q p) Hqp).
  - intros ->. split; [|split].
    + intros Hpq. unfold _excitation_operator.
      by rewrite (proj2 (Nat.leb_gt q p) Hpq), !edge_operator_bi_closed,
        edge_operator_aij_no_column.
    + unfold _double_excitation.
      by rewrite !edge_operator_bi_closed, edge_operator_aij_no_column.
    + intros Hshared. rewrite _number_excitation_closed.
      rewrite !edge_operator_aij_no_column. cbn [bind].
      destruct (Nat.eqb_spec p r); [done|].
      destruct (Nat.eqb_spec p s); [done|].
      destruct (Nat.eqb_spec q r); [done|].
      destruct (Nat.eqb_spec q s); [done|]. lia.
  - intros Hne. split; [|split].
    + intros Hpq.
      by destruct (_excitation_operator_returns el p q h Hpq Hne) as [op ->].
    + by destruct (_double_excitation_total el p q r s h Hne) as [op ->].
    + intros Hshared.
      by destruct (_number_excitation_returns el p q r s h Hne Hshared)
        as [op ->].
Qed.

Lemma conversion_formulas_failures_witness :
  _excitation_operator [(0, 1)] 1 0 c_one
  = Raise (ValueErrorArgs [ArgStr "Expected p < q, got p = "; ArgInt 1;
                           ArgStr ", q = "; ArgInt 0])
  /\ _excitation_operator [] 0 1 c_one = Raise IndexError
  /\ _number_excitation [] 0 1 0 2 c_one = Raise IndexError
  /\ returns (_excitation_operator [(0, 1)] 2 3 c_one) = true
  /\ returns (_number_excitation [(0, 1)] 0 1 0 2 c_one) = true.
Proof.
  destruct (conversion_formulas_failures [(0, 1)] 1 0 0 0 c_one)
    as (_ & _ & Hvalue & _).
  destruct (conversion_formulas_failures [] 0 1 0 2 c_one)
    as (_ & _ & _ & Hempty & _).
  destruct (Hempty eq_refl) as (Hexc & _ & Hnum).
  destruct (conversion_formulas_failures [(0, 1)] 2 3 0 0 c_one)
    as (_ & _ & _ & _ & Hreturns).
  destruct (Hreturns ltac:(done)) as (Hexc' & _ & _).
  destruct (conversion_formulas_failures [(0, 1)] 0 1 0 2 c_one)
    as (_ & _ & _ & _ & Hreturns').
  destruct (Hreturns' ltac:(done)) as (_ & _ & Hnum').
  split; [apply Hvalue; lia|]. split; [apply Hexc; lia|].
  split; [apply Hnum; lia|]. split; [apply Hexc'; lia|apply Hnum'; lia].
Defined.

(** ** When the edge list is built *)

Lemma _add_edges_for_term_bounded (n : nat) (m : edge_matrix) (t : string) :
  square n m -> term_accepted t = true ->
  (forall a b, (a, b) ∈ term_edges t -> b < n) ->
  exists m', _add_edges_for_term m t = Ok m' /\ square n m'.
Proof.
  intros Hsq Hacc Hbound. rewrite _add_edges_for_term_closed.
  unfold term_accepted in Hacc. apply andb_true_iff in Hacc as [Hvalid Hty].
  rewrite (valid_term_first_invalid t Hvalid).
  destruct (term_counts t) as [[x a] b] eqn:Hcnt.
  destruct (_interaction_type x a b) as [category|]; [|done]. cbn [bind].
  apply for_each_matrix_set_square; [done|].
  apply Forall_forall. intros [i j] Hin. specialize (Hbound i j Hin).
  apply (term_edges_sorted t i j Hvalid) in Hin. simpl. lia.
Qed.

(** X16. [bksf_edge_list_fermionic_op] returns exactly when the operator
    has a first term, every term is accepted by the term classifier, and
    every edge that a term asks for lies below the length of the first
    term, which is the size of the adjacency matrix; terms shorter or
    longer than the first one are not refused as such. On an operator
    without terms it raises [IndexError]. *)
Theorem bksf_edge_list_returns_iff (fer_op : FermionicOp) :
  (returns (bksf_edge_list_fermionic_op fer_op) = true
   <-> exists term0 rest,
         fer_op = term0 :: rest
         /\ Forall (fun term =>
                      term_accepted (operator_string term) = true
                      /\ forall a b,
                           (a, b) ∈ term_edges (operator_string term) ->
                           b < String.length (operator_string term0))
              fer_op)
  /\ bksf_edge_list_fermionic_op [] = Raise IndexError.
Proof.
  split; [|done]. split.
  - destruct (bksf_edge_list_fermionic_op fer_op) as [el|e] eqn:Hrun; [|done].
    intros _. apply bksf_edge_list_inv in Hrun as (n & m & Hn & Hfold & ->).
    destruct fer_op as [|term0 rest]; [done|]. injection Hn as <-.
    exists term0, rest. split; [done|].
    destruct (adjacency_fold (String.length (fst term0)) _ _ _ Hfold)
      as (Htrue & Hacc & Hsq).
    specialize (Hsq (square_zeros _)).
    rewrite Forall_forall in Hacc. rewrite Forall_forall. intros term Hin.
    split; [by apply Hacc|]. intros a b Hab.
    assert (Hm : true_at m a b) by (apply Htrue; eauto).
    by apply (nonzero_square _ _ _ _ Hsq) in Hm as [_ Hb].
  - intros (term0 & rest & -> & Hall).
    unfold bksf_edge_list_fermionic_op, _get_adjacency_matrix.
    cbn [number_of_modes bind].
    destruct (for_each_returns (square (String.length (fst term0)))
                (fun m term => _add_edges_for_term m (operator_string term))
                (term0 :: rest) (np_zeros2 (String.length (fst term0))))
      as (m & -> & _); [| |done].
    + intros m term Hm Hin. rewrite Forall_forall in Hall.
      destruct (Hall term Hin) as [Hacc Hbound].
      by apply _add_edges_for_term_bounded.
    + apply square_zeros.
Qed.

(** ** The algebra of the edge operators *)

Lemma phase_sum_self (z x : list bool) : phase_sum z x z x = 0.
Proof.
  revert x. induction z as [|a z IH]; intros [|b x]; try done.
  cbn [phase_sum]. rewrite IH. by destruct a, b.
Qed.

Lemma zip_with_xorb_self (z : list bool) :
  zip_with xorb z z = replicate (length z) false.
Proof.
  induction z as [|a z IH]; [done|]. simpl. rewrite IH. by destruct a.
Qed.

Lemma zip_with_xorb_comm (z1 z2 : list bool) :
  zip_with xorb z1 z2 = zip_with xorb z2 z1.
Proof.
  revert z2. induction z1 as [|a z1 IH]; intros [|b z2]; try done.
  simpl. rewrite IH. by destruct a, b.
Qed.

Lemma pauli_xor_comm (p q : Pauli) : pauli_xor p q = pauli_xor q p.
Proof.
  unfold pauli_xor.
  by rewrite (zip_with_xorb_comm (pauli_z p)), (zip_with_xorb_comm (pauli_x p)).
Qed.

Lemma phase_sum_x_left_commuting (z1 x1 z2 x2 : list bool) (pos : nat) :
  Forall (eq false) x2 ->
  (forall k, x1 !! k = Some true -> k = pos) ->
  z2 !! pos = Some false ->
  phase_sum z1 x1 z2 x2 = 0.
Proof.
  revert z1 x1 z2 x2.
  induction pos as [|pos IH]; intros [|a z1] [|b x1] [|c z2] [|d x2];
    try done; intros Hx2 Hone Hz2.
  - injection Hz2 as ->. apply Forall_cons_1 in Hx2 as [<- Hx2].
    cbn [phase_sum]. rewrite phase_sum_no_x; [by destruct a, b| |done].
    apply Forall_false_lookup. intros k Hk. by specialize (Hone (S k) Hk).
  - apply Forall_cons_1 in Hx2 as [<- Hx2]. cbn [phase_sum].
    assert (b = false) as ->.
    { destruct b; [|done]. by specialize (Hone 0 eq_refl). }
    rewrite (IH z1 x1 z2 x2); try done.
    + by destruct a, c.
    + intros k Hk. specialize (Hone (S k) Hk). lia.
Qed.

Lemma phase_sum_x_right_commuting (z1 x1 z2 x2 : list bool) (pos : nat) :
  Forall (eq false) x1 ->
  (forall k, x2 !! k = Some true -> k = pos) ->
  z1 !! pos = Some false ->
  phase_sum z1 x1 z2 x2 = 0.
Proof.
  revert z1 x1 z2 x2.
  induction pos as [|pos IH]; intros [|a z1] [|b x1] [|c z2] [|d x2];
    try done; intros Hx1 Hone Hz1.
  - injection Hz1 as ->. apply Forall_cons_1 in Hx1 as [<- Hx1].
    cbn [phase_sum]. rewrite phase_sum_no_x; [by destruct c, d|done|].
    apply Forall_false_lookup. intros k Hk. by specialize (Hone (S k) Hk).
  - apply Forall_cons_1 in Hx1 as [<- Hx1]. cbn [phase_sum].
    assert (d = false) as ->.
    { destruct d; [|done]. by specialize (Hone 0 eq_refl). }
    rewrite (IH z1 x1 z2 x2); try done.
    + by destruct a, c.
    + intros k Hk. specialize (Hone (S k) Hk). lia.
Qed.

Lemma dot_B_A (el : edge_list) (i j pos k : nat) (e : nat * nat) :
  el !! pos = Some e ->
  dot (B el k) (of_pauli (A_spec el i j pos))
  = [(pauli_xor (B_spec el k) (A_spec el i j pos),
      c_mul_ipow (if incident e k then 1 else 0) (c_mul c_one c_one))]
  /\ dot (of_pauli (A_spec el i j pos)) (B el k)
     = [(pauli_xor (A_spec el i j pos) (B_spec el k),
         c_mul_ipow (if incident e k then 3 else 0) (c_mul c_one c_one))].
Proof.
  intros He.
  assert (Hlt : pos < length el) by (by eapply lookup_lt_Some).
  assert (HBx : Forall (eq false) (pauli_x (B_spec el k)))
    by apply Forall_replicate_eq.
  assert (HBlen : pos < length (pauli_x (B_spec el k))).
  { cbn [B_spec pauli_x]. by rewrite length_replicate. }
  assert (HBz : pauli_z (B_spec el k) !! pos = Some (incident e k)).
  { cbn [B_spec pauli_z]. by rewrite list_lookup_fmap, He. }
  assert (HAz : pauli_z (A_spec el i j pos) !! pos = Some false).
  { cbn [A_spec pauli_z]. by rewrite list_lookup_imap, He; cbn;
      rewrite Nat.eqb_refl. }
  assert (HAx : pauli_x (A_spec el i j pos) !! pos = Some true).
  { cbn [A_spec pauli_x]. by rewrite list_lookup_imap, He; cbn;
      rewrite Nat.eqb_refl. }
  unfold B, of_pauli, dot, term_dot, pauli_dot.
  cbn [flat_map map app fst snd].
  fold (pauli_xor (B_spec el k) (A_spec el i j pos)).
  fold (pauli_xor (A_spec el i j pos) (B_spec el k)).
  destruct (incident e k).
  - by rewrite (phase_sum_x_right _ _ _ _ pos), (phase_sum_x_left _ _ _ _ pos)
      by eauto using A_spec_x_lookup.
  - by rewrite (phase_sum_x_right_commuting _ _ _ _ pos),
      (phase_sum_x_left_commuting _ _ _ _ pos) by eauto using A_spec_x_lookup.
Qed.

(** X17. The operators that [edge_operator_aij] and [edge_operator_bi]
    return satisfy the relations of the edge algebra. For an edge [(i, j)]
    of the edge list: [A(i,j)] anticommutes with [B(i)] and with [B(j)] and
    commutes with [B(k)] for every other mode [k]; any two [B] commute; and
    [A(i,j)] and every [B(k)] square to the identity. *)
Theorem edge_operators_algebra (el : edge_list) (i j k l : nat) :
  is_edge el i j = true ->
  exists a b_i b_j b_k b_l,
    edge_operator_aij el i j = Ok a
    /\ edge_operator_bi el i = Ok b_i
    /\ edge_operator_bi el j = Ok b_j
    /\ edge_operator_bi el k = Ok b_k
    /\ edge_operator_bi el l = Ok b_l
    /\ dot b_i a = neg (dot a b_i)
    /\ dot b_j a = neg (dot a b_j)
    /\ (k <> i -> k <> j -> dot b_k a = dot a b_k)
    /\ dot b_k b_l = dot b_l b_k
    /\ dot a a = _pauli_id (shape1 el)
    /\ dot b_k b_k = _pauli_id (shape1 el).
Proof.
  intros (pos & Hpos)%is_edge_position.
  exists (of_pauli (A_spec el i j pos)), (B el i), (B el j), (B el k), (B el l).
  split; [by apply edge_operator_aij_at_edge|].
  do 4 (split; [apply edge_operator_bi_closed|]).
  apply edge_position_Some in Hpos as (e & He & Hjoins & _).
  pose proof (joins_incident i j e Hjoins) as [Hi Hj].
  assert (Hanti : c_mul_ipow 1 (c_mul c_one c_one)
                  = c_mul (c_of_Z (-1)) (c_mul_ipow 3 (c_mul c_one c_one))).
  { apply c_ext; apply Qc_is_canon; reflexivity. }
  split; [|split; [|split; [|split; [|split]]]].
  - destruct (dot_B_A el i j pos i e He) as [-> ->]. rewrite Hi.
    unfold neg, scale. cbn [map fst snd].
    by rewrite pauli_xor_comm, Hanti.
  - destruct (dot_B_A el i j pos j e He) as [-> ->]. rewrite Hj.
    unfold neg, scale. cbn [map fst snd].
    by rewrite pauli_xor_comm, Hanti.
  - intros Hki Hkj. destruct (dot_B_A el i j pos k e He) as [-> ->].
    assert (incident e k = false) as ->.
    { unfold incident.
      destruct Hjoins as [-> | ->]; cbn [fst snd];
        apply orb_false_iff; split; apply Nat.eqb_neq; congruence. }
    by rewrite pauli_xor_comm.
  - unfold B, of_pauli, dot, B_spec. cbn [flat_map map app].
    rewrite !term_dot_diagonal. by rewrite zip_with_xorb_comm.
  - unfold of_pauli, dot, term_dot, pauli_dot, _pauli_id, shape1.
    cbn [flat_map map app fst snd].
    rewrite phase_sum_self, !zip_with_xorb_self.
    cbn [A_spec pauli_z pauli_x]. rewrite !length_imap.
    unfold of_pauli. do 2 f_equal; apply c_ext; apply Qc_is_canon; reflexivity.
  - unfold B, of_pauli, dot, B_spec, _pauli_id, shape1. cbn [flat_map map app].
    rewrite term_dot_diagonal, zip_with_xorb_self, length_map.
    unfold of_pauli. do 2 f_equal; apply c_ext; apply Qc_is_canon; reflexivity.
Qed.

Lemma edge_operators_algebra_witness :
  is_edge complete4 1 2 = true
  /\ exists a b_1 b_3,
       edge_operator_aij complete4 1 2 = Ok a
       /\ edge_operator_bi complete4 1 = Ok b_1
       /\ edge_operator_bi complete4 3 = Ok b_3
       /\ dot b_1 a = neg (dot a b_1)
       /\ dot b_3 a = dot a b_3.
Proof.
  split; [reflexivity|].
  destruct (edge_operators_algebra complete4 1 2 3 3 eq_refl)
    as (a & b_1 & _ & b_3 & _ & Ha & H1 & _ & H3 & _ & Hanti & _ & Hcomm & _).
  exists a, b_1, b_3. do 4 (split; [done|]). apply Hcomm; lia.
Defined.

(** ** Terms that are passed over *)

Lemma convert_body_passed_over (el : edge_list) (acc acc' : option SparsePauliOp)
    (term : string * complex) :
  convert_body el acc term = Ok acc' ->
  passed_over (operator_string term) = true -> acc' = acc.
Proof.
  intros Hrun Hpassed.
  destruct (_analyze_term (operator_string term)) as [[category facs]|e]
    eqn:Han.
  - rewrite (convert_body_unfold el acc term category facs Han) in Hrun.
    rewrite _analyze_term_closed in Han.
    destruct (first_invalid _); [done|].
    apply bind_inv_Ok in Han as (ttype & _ & [= _ <-]).
    unfold passed_over in Hpassed. rewrite Hpassed in Hrun.
    by apply Ok_inj in Hrun.
  - unfold convert_body in Hrun. by rewrite Han in Hrun.
Qed.

(** X18. The terms that the loop passes over contribute nothing, whatever
    their coefficients: when [_convert_operators] returns on an operator,
    it returns the same result on the operator with every passed-over term
    (a term whose first factor is a lowering operator, or whose leading
    number operator is followed by a lowering operator) removed. *)
Theorem _convert_operators_passed_over (fer_op : FermionicOp) (el : edge_list)
    (r : option SparsePauliOp) :
  _convert_operators fer_op el = Ok r ->
  _convert_operators
    (List.filter (fun term => negb (passed_over (operator_string term))) fer_op)
    el
  = Ok r.
Proof.
  unfold _convert_operators. generalize (@None SparsePauliOp) as acc.
  induction fer_op as [|term fer_op IH]; intros acc; [done|].
  cbn [for_each List.filter]. intros (acc' & Hbody & Hrest)%bind_inv_Ok.
  destruct (passed_over (operator_string term)) eqn:Hpassed; cbn [negb].
  - apply (convert_body_passed_over el acc acc' term Hbody) in Hpassed as ->.
    by apply IH.
  - cbn [for_each]. rewrite Hbody. cbn [bind]. by apply IH.
Qed.

Lemma _convert_operators_passed_over_witness :
  exists r,
    _convert_operators
      [("-+"%string, c_of_Z 5); ("+-"%string, c_one); ("N-+"%string, c_j)]
      [(0, 1)] = Ok r
    /\ _convert_operators [("+-"%string, c_one)] [(0, 1)] = Ok r.
Proof.
  assert (Hrun : exists r,
             _convert_operators
               [("-+"%string, c_of_Z 5); ("+-"%string, c_one);
                ("N-+"%string, c_j)] [(0, 1)] = Ok r)
    by (vm_compute; eauto).
  destruct Hrun as [r Hrun]. exists r. split; [exact Hrun|].
  exact (_convert_operators_passed_over _ _ _ Hrun).
Defined.

(** ** The converters between index orders *)

(** X19. On an array of rank four, [chem_to_phys] (g) and [phys_to_chem]
    (h) return, and with the identity they form a group of three elements
    on shape and entries: [g h = h g = I], [g g = h] and [h h = g], as the
    docstring of [chem_to_phys] says; [phys_to_chem] moves the entry at
    [(i, j, k, l)] to [(i, l, j, k)] and [chem_to_phys] moves it to
    [(i, k, l, j)]. On an array of another rank both raise [ValueError]. *)
Theorem index_order_group {A : Type} (t : ndarray A) :
  (length (nd_shape t) = 4 ->
   exists g h,
     chem_to_phys t = Ok g /\ phys_to_chem t = Ok h
     /\ (exists x, chem_to_phys h = Ok x /\ same_array x t)
     /\ (exists x, phys_to_chem g = Ok x /\ same_array x t)
     /\ (exists x, chem_to_phys g = Ok x /\ same_array x h)
     /\ (exists x, phys_to_chem h = Ok x /\ same_array x g)
     /\ (forall i j k l,
           nd_at h [i; l; j; k] = nd_at t [i; j; k; l]
           /\ nd_at g [i; k; l; j] = nd_at t [i; j; k; l]))
  /\ (length (nd_shape t) <> 4 ->
      exists msg1 msg2,
        chem_to_phys t = Raise (ValueError msg1)
        /\ phys_to_chem t = Raise (ValueError msg2)).
Proof.
  destruct t as [[|s0 [|s1 [|s2 [|s3 [|s4 sh]]]]] f];
    (split; [try discriminate|try done; intros _; by do 2 eexists]).
  intros _. do 2 eexists. do 2 (split; [reflexivity|]).
  repeat split; by eexists.
Qed.

Lemma index_order_group_witness :
  (exists h,
     phys_to_chem (NdArray [2; 3; 4; 5] (fun idx => idx)) = Ok h
     /\ nd_shape h = [2; 5; 3; 4]
     /\ nd_at h [1; 4; 2; 3] = [1; 2; 3; 4]
     /\ exists x, chem_to_phys h = Ok x
                  /\ same_array x (NdArray [2; 3; 4; 5] (fun idx => idx)))
  /\ exists msg,
       chem_to_phys (NdArray [2; 3] (fun idx => idx)) = Raise (ValueError msg).
Proof.
  destruct (proj1 (index_order_group (NdArray [2; 3; 4; 5] (fun idx => idx)))
              eq_refl)
    as (g & h & _ & Hh & Hgh & _).
  destruct (proj2 (index_order_group (NdArray [2; 3] (fun idx => idx))))
    as (msg1 & _ & Hraise & _); [simpl; lia|].
  split; [|by exists msg1].
  exists h. split; [exact Hh|]. apply Ok_inj in Hh as <-.
  split; [reflexivity|]. split; [reflexivity|]. exact Hgh.
Defined.

(** ** The conversion is linear in the coefficients *)

Lemma c_mul_swap (k c h : complex) : c_mul k (c_mul c h) = c_mul c (c_mul k h).
Proof. c_ring. Qed.

Lemma scale_linear (k c h : complex) (a : SparsePauliOp) :
  scale (c_mul k (c_mul c h)) a = scale c (scale (c_mul k h) a).
Proof.
  unfold scale. rewrite map_map. apply map_ext. intros [p x]. cbn [fst snd].
  f_equal. c_ring.
Qed.

Lemma _number_operator_linear (el : edge_list) (p : nat) (c h : complex) :
  _number_operator el p (c_mul c h)
  = (let! op := _number_operator el p h in Ok (scale c op)).
Proof.
  unfold _number_operator. rewrite edge_operator_bi_closed. cbn [bind].
  by rewrite scale_linear.
Qed.

Lemma _coulomb_exchange_linear (el : edge_list) (p q s : nat) (c h : complex) :
  _coulomb_exchange el p q s (c_mul c h)
  = (let! op := _coulomb_exchange el p q s h in Ok (scale c op)).
Proof.
  unfold _coulomb_exchange. rewrite !edge_operator_bi_closed. cbn [bind].
  by rewrite scale_linear.
Qed.

Lemma _excitation_operator_linear (el : edge_list) (p q : nat) (c h : complex) :
  _excitation_operator el p q (c_mul c h)
  = (let! op := _excitation_operator el p q h in Ok (scale c op)).
Proof.
  unfold _excitation_operator. destruct (q <=? p); [done|].
  rewrite !edge_operator_bi_closed. cbn [bind].
  destruct (edge_operator_aij el p q) as [a|e]; [|done]. cbn [bind].
  by rewrite scale_linear.
Qed.

Lemma _double_excitation_linear (el : edge_list) (p q r s : nat)
    (c h : complex) :
  _double_excitation el p q r s (c_mul c h)
  = (let! op := _double_excitation el p q r s h in Ok (scale c op)).
Proof.
  unfold _double_excitation. rewrite !edge_operator_bi_closed. cbn [bind].
  destruct (edge_operator_aij el p q) as [a_pq|e]; [|done]. cbn [bind].
  destruct (edge_operator_aij el r s) as [a_rs|e]; [|done]. cbn [bind].
  by rewrite scale_linear.
Qed.

Lemma _number_excitation_linear (el : edge_list) (p q r s : nat)
    (c h : complex) :
  _number_excitation el p q r s (c_mul c h)
  = (let! op := _number_excitation el p q r s h in Ok (scale c op)).
Proof.
  unfold _number_excitation. rewrite !edge_operator_bi_closed. cbn [bind].
  destruct (p =? r); [|destruct (p =? s); [|destruct (q =? r);
    [|destruct (q =? s); [|done]]]];
    rewrite ?edge_operator_bi_closed; cbn [bind];
    match goal with
    | |- context [edge_operator_aij ?el ?i ?j] =>
        destruct (edge_operator_aij el i j) as [a|e]; [|done]
    end;
    cbn [bind]; by rewrite scale_linear.
Qed.

Lemma dispatch_linear (el : edge_list) (category : interaction)
    (facs : list factor) (c h : complex) :
  dispatch el category facs (c_mul c h)
  = (let! op := dispatch el category facs h in Ok (scale c op)).
Proof.
  unfold dispatch. destruct category.
  1: destruct (getitem facs 0) as [f0|e]; [|done]; cbn [bind];
     apply _number_operator_linear.
  2: destruct (getitem facs 0) as [f0|e]; [|done]; cbn [bind];
     destruct (getitem facs 1) as [f1|e]; [|done]; cbn [bind];
     apply _excitation_operator_linear.
  all: destruct (_to_physicist_index_order facs) as [[fr ph]|e]; [|done];
    cbn [bind];
    destruct (getitem fr 0) as [fp|e]; [|done]; cbn [bind];
    destruct (getitem fr 1) as [fq|e]; [|done]; cbn [bind];
    destruct (getitem fr 2) as [f_r|e]; [|done]; cbn [bind];
    destruct (getitem fr 3) as [f_s|e]; [|done]; cbn [bind];
    rewrite c_mul_swap.
  - apply _coulomb_exchange_linear.
  - apply _number_excitation_linear.
  - apply _double_excitation_linear.
Qed.

Lemma convert_body_linear (el : edge_list) (acc : option SparsePauliOp)
    (term : string * complex) (c : complex) :
  convert_body el (scale c <$> acc)
    (operator_string term, c_mul c (operator_coefficient term))
  = (let! r := convert_body el acc term in Ok (scale c <$> r)).
Proof.
  unfold convert_body. cbn [operator_string operator_coefficient fst snd].
  destruct (_analyze_term (operator_string term)) as [[category facs]|e];
    [|done].
  cbn [bind]. destruct (skip_test facs) as [[|]|e]; [done| |done].
  cbn [bind]. rewrite dispatch_linear.
  destruct (dispatch el category facs (operator_coefficient term)) as [op|e];
    [|done].
  cbn [bind]. destruct acc as [a|]; [|done]. cbn [_add_sparse_pauli fmap option_map].
  unfold option_fmap, option_map, add, scale. by rewrite map_app.
Qed.

(** X20. The conversion is linear in the coefficients, in exact
    arithmetic: multiplying every coefficient of the operator by a non-zero
    [c] multiplies every coefficient of the result of [_convert_operators]
    by [c], and an operator on which the conversion fails still fails with
    the same error. (For [c = 0] the library's product with the scalar
    zero is one identity string with coefficient zero; that case is left
    out.) *)
Theorem _convert_operators_linear (fer_op : FermionicOp) (el : edge_list)
    (c : complex) :
  c <> c_zero ->
  _convert_operators (scale_terms c fer_op) el
  = (let! r := _convert_operators fer_op el in Ok (scale c <$> r)).
Proof.
  intros _. unfold _convert_operators, scale_terms.
  change (@None SparsePauliOp) with (scale c <$> @None SparsePauliOp) at 1.
  generalize (@None SparsePauliOp) as acc.
  induction fer_op as [|term fer_op IH]; intros acc; [done|].
  cbn [map for_each]. rewrite convert_body_linear.
  destruct (convert_body el acc term) as [acc'|e]; [|done]. cbn [bind].
  apply IH.
Qed.

Lemma _convert_operators_linear_witness :
  c_of_Z 3 <> c_zero
  /\ _convert_operators
       (scale_terms (c_of_Z 3) [("INI"%string, c_of_Z 2); ("+I-"%string, c_one)])
       [(0, 2)]
     = (let! r := _convert_operators
                    [("INI"%string, c_of_Z 2); ("+I-"%string, c_one)] [(0, 2)] in
        Ok (scale (c_of_Z 3) <$> r)).
Proof.
  assert (Hc : c_of_Z 3 <> c_zero) by c_nonzero.
  split; [exact Hc|].
  apply (_convert_operators_linear
           [("INI"%string, c_of_Z 2); ("+I-"%string, c_one)] [(0, 2)]
           (c_of_Z 3) Hc).
Defined.

(** ** The size of the register *)

Lemma length_pair_of (inds : list nat) : length (pair_of inds) <= 1.
Proof. destruct inds as [|i [|j [|k inds]]]; simpl; lia. Qed.

Lemma length_term_edges (t : string) : length (term_edges t) <= 2.
Proof.
  unfold term_edges. destruct (term_counts t) as [[n a] b].
  destruct (_interaction_type n a b) as [[]|e]; simpl; try lia.
  - pose proof (length_pair_of (inds_where in_plus_minus (skeleton t))). lia.
  - pose proof (length_pair_of (inds_where in_plus_minus (skeleton t))). lia.
  - rewrite length_app.
    pose proof (length_pair_of
                  (inds_where (fun c => (c =? "+")%char) (skeleton t))).
    pose proof (length_pair_of
                  (inds_where (fun c => (c =? "-")%char) (skeleton t))).
    lia.
Qed.

(** X21. The register is no larger than the terms ask for: the number of
    columns of the edge list, which is the number of qubits of the result,
    is at most the number of edges that the terms of the operator ask for,
    counted with repetition, and so at most twice the number of terms. *)
Theorem bksf_edge_list_size (fer_op : FermionicOp) (el : edge_list) :
  bksf_edge_list_fermionic_op fer_op = Ok el ->
  shape1 el
  <= length (flat_map (fun term => term_edges (operator_string term)) fer_op)
  /\ shape1 el <= 2 * length fer_op.
Proof.
  intros Hrun.
  assert (Hle : shape1 el
                <= length (flat_map
                             (fun term => term_edges (operator_string term))
                             fer_op)).
  { pose proof Hrun as (n & m & _ & Hfold & ->)%bksf_edge_list_inv.
    destruct (adjacency_fold n _ _ _ Hfold) as (Htrue & _ & _).
    unfold shape1. apply submseteq_length, NoDup_submseteq.
    - apply NoDup_nonzero_from.
    - intros [a b] Hab. apply elem_of_np_nonzero, Htrue in Hab.
      destruct Hab as [Hzero|(term & Hin & Hab)];
        [by apply no_true_at_zeros in Hzero|].
      apply list_elem_of_In, in_flat_map. exists term.
      split; by apply list_elem_of_In. }
  split; [done|]. etransitivity; [exact Hle|]. clear.
  induction fer_op as [|term fer_op IH]; [done|].
  cbn [flat_map length]. rewrite length_app.
  pose proof (length_term_edges (operator_string term)). lia.
Qed.

Lemma bksf_edge_list_size_witness :
  bksf_edge_list_fermionic_op
    [("+-+-"%string, c_one); ("+--+"%string, c_one); ("+I-I"%string, c_one)]
  = Ok [(0, 2); (0, 3); (1, 2); (1, 3)]
  /\ shape1 [(0, 2); (0, 3); (1, 2); (1, 3)] <= 5
  /\ shape1 [(0, 2); (0, 3); (1, 2); (1, 3)] <= 2 * 3.
Proof.
  split; [reflexivity|].
  exact (bksf_edge_list_size
           [("+-+-"%string, c_one); ("+--+"%string, c_one);
            ("+I-I"%string, c_one)] _ eq_refl).
Defined.

(** ** Two edge operators *)

Lemma phase_sum_x_left_bit (z1 x1 z2 x2 : list bool) (pos : nat) (b : bool) :
  Forall (eq false) x2 -> pos < length x2 ->
  (forall k, x1 !! k = Some true -> k = pos) ->
  z1 !! pos = Some false -> x1 !! pos = Some true -> z2 !! pos = Some b ->
  phase_sum z1 x1 z2 x2 = if b then 3 else 0.
Proof.
  destruct b; [apply phase_sum_x_left|].
  intros Hx2 _ Hone _ _ Hz2. by apply (phase_sum_x_left_commuting _ _ _ _ pos).
Qed.

Lemma phase_sum_x_right_bit (z1 x1 z2 x2 : list bool) (pos : nat) (c : bool) :
  Forall (eq false) x1 -> pos < length x1 ->
  (forall k, x2 !! k = Some true -> k = pos) ->
  z1 !! pos = Some c -> z2 !! pos = Some false -> x2 !! pos = Some true ->
  phase_sum z1 x1 z2 x2 = if c then 1 else 0.
Proof.
  destruct c; [apply phase_sum_x_right|].
  intros Hx1 _ Hone Hz1 _ _. by apply (phase_sum_x_right_commuting _ _ _ _ pos).
Qed.

Lemma phase_sum_two_x (z1 x1 z2 x2 : list bool) (p1 p2 : nat) (b c : bool) :
  p1 <> p2 -> p1 < length x2 -> p2 < length x1 ->
  (forall k, x1 !! k = Some true -> k = p1) ->
  (forall k, x2 !! k = Some true -> k = p2) ->
  z1 !! p1 = Some false -> x1 !! p1 = Some true -> z2 !! p1 = Some b ->
  z1 !! p2 = Some c -> z2 !! p2 = Some false -> x2 !! p2 = Some true ->
  phase_sum z1 x1 z2 x2 = (if b then 3 else 0) + (if c then 1 else 0).
Proof.
  revert z1 x1 z2 x2 p2.
  induction p1 as [|p1 IH]; intros [|a z1] [|b1 x1] [|c2 z2] [|d x2] p2;
    try done; intros Hne Hl1 Hl2 Hone1 Hone2 Hz1 Hx1 Hb Hc Hz2 Hx2.
  - destruct p2 as [|p2]; [done|].
    injection Hz1 as ->. injection Hx1 as ->. injection Hb as ->.
    assert (d = false) as ->.
    { destruct d; [|done]. by specialize (Hone2 0 eq_refl). }
    cbn [phase_sum].
    rewrite (phase_sum_x_right_bit z1 x1 z2 x2 p2 c).
    all: first
      [ by destruct b
      | done
      | apply Forall_false_lookup; intros k Hk; by specialize (Hone1 (S k) Hk)
      | simpl in Hl2; lia
      | intros k Hk; specialize (Hone2 (S k) Hk); lia ].
  - destruct p2 as [|p2].
    + injection Hc as ->. injection Hz2 as ->. injection Hx2 as ->.
      assert (b1 = false) as ->.
      { destruct b1; [|done]. by specialize (Hone1 0 eq_refl). }
      cbn [phase_sum].
      rewrite (phase_sum_x_left_bit z1 x1 z2 x2 p1 b).
      all: first
        [ destruct b, c; simpl; lia
        | done
        | apply Forall_false_lookup; intros k Hk;
          by specialize (Hone2 (S k) Hk)
        | simpl in Hl1; lia
        | intros k Hk; specialize (Hone1 (S k) Hk); lia ].
    + assert (b1 = false) as ->.
      { destruct b1; [|done]. by specialize (Hone1 0 eq_refl). }
      assert (d = false) as ->.
      { destruct d; [|done]. by specialize (Hone2 0 eq_refl). }
      cbn [phase_sum]. rewrite (IH z1 x1 z2 x2 p2).
      all: first
        [ by destruct a, c2
        | done
        | simpl in Hl1, Hl2; lia
        | intros k Hk; specialize (Hone1 (S k) Hk); lia
        | intros k Hk; specialize (Hone2 (S k) Hk); lia ].
Qed.

Lemma dot_A_A (el : edge_list) (i j k l p1 p2 : nat) (e1 e2 : nat * nat) :
  el !! p1 = Some e1 -> el !! p2 = Some e2 -> p1 <> p2 ->
  dot (of_pauli (A_spec el i j p1)) (of_pauli (A_spec el k l p2))
  = [(pauli_xor (A_spec el i j p1) (A_spec el k l p2),
      c_mul_ipow
        ((if incident_below e1 k l || incident_below e1 l k then 3 else 0)
         + (if incident_below e2 i j || incident_below e2 j i then 1 else 0))
        (c_mul c_one c_one))].
Proof.
  intros He1 He2 Hne.
  assert (Hl1 : p1 < length el) by (by eapply lookup_lt_Some).
  assert (Hl2 : p2 < length el) by (by eapply lookup_lt_Some).
  unfold of_pauli, dot, term_dot, pauli_dot. cbn [flat_map map app fst snd].
  fold (pauli_xor (A_spec el i j p1) (A_spec el k l p2)).
  rewrite (phase_sum_two_x _ _ _ _ p1 p2
             (incident_below e1 k l || incident_below e1 l k)
             (incident_below e2 i j || incident_below e2 j i)); try done.
  - cbn [A_spec pauli_x]. by rewrite length_imap.
  - cbn [A_spec pauli_x]. by rewrite length_imap.
  - apply A_spec_x_lookup.
  - apply A_spec_x_lookup.
  - cbn [A_spec pauli_z]. by rewrite list_lookup_imap, He1; cbn;
      rewrite Nat.eqb_refl.
  - cbn [A_spec pauli_x]. by rewrite list_lookup_imap, He1; cbn;
      rewrite Nat.eqb_refl.
  - cbn [A_spec pauli_z]. rewrite list_lookup_imap, He1; cbn.
    by rewrite (proj2 (Nat.eqb_neq p1 p2) Hne).
  - cbn [A_spec pauli_z]. rewrite list_lookup_imap, He2; cbn.
    by rewrite (proj2 (Nat.eqb_neq p2 p1)) by done.
  - cbn [A_spec pauli_z]. by rewrite list_lookup_imap, He2; cbn;
      rewrite Nat.eqb_refl.
  - cbn [A_spec pauli_x]. by rewrite list_lookup_imap, He2; cbn;
      rewrite Nat.eqb_refl.
Qed.

Ltac order_cases :=
  repeat match goal with
    | |- context [?a =? ?b] => destruct (Nat.eqb_spec a b); try lia
    | |- context [?a <? ?b] => destruct (Nat.ltb_spec a b); try lia
    end;
  cbn [andb orb xorb]; first [lia | reflexivity | split; reflexivity].

Lemma incident_below_shared (i j k l : nat) (e1 e2 : nat * nat) :
  joins i j e1 -> joins k l e2 -> i <> j -> k <> l ->
  (i = k /\ j <> l) \/ (i = l /\ j <> k) \/ (j = k /\ i <> l)
  \/ (j = l /\ i <> k) ->
  xorb (incident_below e1 k l || incident_below e1 l k)
       (incident_below e2 i j || incident_below e2 j i) = true.
Proof.
  intros Hj1 Hj2 Hij Hkl Hshare. unfold incident_below.
  destruct Hj1 as [-> | ->], Hj2 as [-> | ->]; cbn [fst snd];
    destruct Hshare as [[-> ?]|[[-> ?]|[[-> ?]|[-> ?]]]]; order_cases.
Qed.

Lemma incident_below_disjoint (i j k l : nat) (e1 e2 : nat * nat) :
  joins i j e1 -> joins k l e2 ->
  i <> k -> i <> l -> j <> k -> j <> l ->
  incident_below e1 k l || incident_below e1 l k = false
  /\ incident_below e2 i j || incident_below e2 j i = false.
Proof.
  intros Hj1 Hj2 H1 H2 H3 H4. unfold incident_below.
  destruct Hj1 as [-> | ->], Hj2 as [-> | ->]; cbn [fst snd]; order_cases.
Qed.

Lemma c_ipow_anti_31 :
  c_mul_ipow (3 + 0) (c_mul c_one c_one)
  = c_mul (c_of_Z (-1)) (c_mul_ipow (0 + 1) (c_mul c_one c_one)).
Proof. apply c_ext; apply Qc_is_canon; reflexivity. Qed.

Lemma c_ipow_anti_13 :
  c_mul_ipow (0 + 1) (c_mul c_one c_one)
  = c_mul (c_of_Z (-1)) (c_mul_ipow (3 + 0) (c_mul c_one c_one)).
Proof. apply c_ext; apply Qc_is_canon; reflexivity. Qed.

(** X22. Two edge operators that [edge_operator_aij] returns for two
    edges of the edge list anticommute when the edges share exactly one
    mode and commute when they share none: the Z factors that
    [edge_operator_aij] places by comparing end points give the edge
    algebra its signs. *)
Theorem edge_operators_aij_algebra (el : edge_list) (i j k l : nat) :
  is_edge el i j = true -> is_edge el k l = true -> i <> j -> k <> l ->
  exists a_ij a_kl,
    edge_operator_aij el i j = Ok a_ij
    /\ edge_operator_aij el k l = Ok a_kl
    /\ ((i = k /\ j <> l) \/ (i = l /\ j <> k) \/ (j = k /\ i <> l)
        \/ (j = l /\ i <> k) ->
        dot a_ij a_kl = neg (dot a_kl a_ij))
    /\ (i <> k -> i <> l -> j <> k -> j <> l -> dot a_ij a_kl = dot a_kl a_ij).
Proof.
  intros (p1 & Hp1)%is_edge_position (p2 & Hp2)%is_edge_position Hij Hkl.
  exists (of_pauli (A_spec el i j p1)), (of_pauli (A_spec el k l p2)).
  split; [by apply edge_operator_aij_at_edge|].
  split; [by apply edge_operator_aij_at_edge|].
  apply edge_position_Some in Hp1 as (e1 & He1 & Hj1 & _).
  apply edge_position_Some in Hp2 as (e2 & He2 & Hj2 & _).
  assert (Hdiff : (i, j) <> (k, l) -> (i, j) <> (l, k) -> p1 <> p2).
  { intros H1 H2 ->. rewrite He1 in He2. injection He2 as <-.
    destruct Hj1 as [-> | ->], Hj2 as [[= -> ->]|[= -> ->]]; congruence. }
  split.
  - intros Hshare.
    assert (Hne : p1 <> p2) by (apply Hdiff; intros [= -> ->]; lia).
    rewrite (dot_A_A el i j k l p1 p2 e1 e2 He1 He2 Hne).
    rewrite (dot_A_A el k l i j p2 p1 e2 e1 He2 He1) by done.
    rewrite (pauli_xor_comm (A_spec el k l p2)).
    pose proof (incident_below_shared i j k l e1 e2 Hj1 Hj2 Hij Hkl Hshare)
      as Hxor.
    unfold neg, scale. cbn [map fst snd].
    destruct (incident_below e1 k l || incident_below e1 l k),
      (incident_below e2 i j || incident_below e2 j i); try done;
      by rewrite ?c_ipow_anti_31, ?c_ipow_anti_13.
  - intros H1 H2 H3 H4.
    assert (Hne : p1 <> p2) by (apply Hdiff; intros [= -> ->]; lia).
    rewrite (dot_A_A el i j k l p1 p2 e1 e2 He1 He2 Hne).
    rewrite (dot_A_A el k l i j p2 p1 e2 e1 He2 He1) by done.
    rewrite (pauli_xor_comm (A_spec el k l p2)).
    destruct (incident_below_disjoint i j k l e1 e2 Hj1 Hj2 H1 H2 H3 H4)
      as [-> ->].
    done.
Qed.

Lemma edge_operators_aij_algebra_witness :
  is_edge complete4 0 2 = true /\ is_edge complete4 1 2 = true
  /\ is_edge complete4 1 3 = true
  /\ exists a_02 a_12 a_13,
       edge_operator_aij complete4 0 2 = Ok a_02
       /\ edge_operator_aij complete4 1 2 = Ok a_12
       /\ edge_operator_aij complete4 1 3 = Ok a_13
       /\ dot a_02 a_12 = neg (dot a_12 a_02)
       /\ dot a_02 a_13 = dot a_13 a_02.
Proof.
  split; [reflexivity|]. split; [reflexivity|]. split; [reflexivity|].
  destruct (edge_operators_aij_algebra complete4 0 2 1 2 eq_refl eq_refl)
    as (a_02 & a_12 & H02 & H12 & Hanti & _); [lia..|].
  destruct (edge_operators_aij_algebra complete4 0 2 1 3 eq_refl eq_refl)
    as (a_02' & a_13 & H02' & H13 & _ & Hcomm); [lia..|].
  exists a_02, a_12, a_13. do 3 (split; [done|]).
  split; [apply Hanti; lia|].
  rewrite H02 in H02'. apply Ok_inj in H02' as <-. apply Hcomm; lia.
Defined.

(** ** The detector of index orders *)

Lemma indices_cubic (n : nat) (idx : list nat) :
  In idx (indices [n; n; n; n]) ->
  exists i j k l, idx = [i; j; k; l] /\ i < n /\ j < n /\ k < n /\ l < n.
Proof.
  cbn [indices]. intros Hin.
  apply in_flat_map in Hin as (i & Hi%in_seq & Hin).
  apply in_map_iff in Hin as (idx1 & <- & Hin).
  apply in_flat_map in Hin as (j & Hj%in_seq & Hin).
  apply in_map_iff in Hin as (idx2 & <- & Hin).
  apply in_flat_map in Hin as (k & Hk%in_seq & Hin).
  apply in_map_iff in Hin as (idx3 & <- & Hin).
  apply in_flat_map in Hin as (l & Hl%in_seq & Hin).
  apply in_map_iff in Hin as (idx4 & <- & [<-|[]]).
  exists i, j, k, l. split; [done|]. lia.
Qed.

Lemma bcast_index_cubic (n i j k l : nat) :
  i < n -> j < n -> k < n -> l < n ->
  bcast_index [n; n; n; n] [i; j; k; l] = [i; j; k; l].
Proof.
  intros Hi Hj Hk Hl. unfold bcast_index. cbn [zip_with].
  destruct (Nat.eqb_spec n 1) as [->|_]; [|done].
  by replace i with 0 by lia; replace j with 0 by lia;
    replace k with 0 by lia; replace l with 0 by lia.
Qed.

Lemma allclose_cubic {A : Type} (isclose : A -> A -> bool) (a b : ndarray A)
    (n : nat) :
  nd_shape a = [n; n; n; n] -> nd_shape b = [n; n; n; n] ->
  allclose isclose a b
  = Ok (forallb (fun idx => isclose (nd_at a idx) (nd_at b idx))
          (indices [n; n; n; n])).
Proof.
  intros Ha Hb. unfold allclose. rewrite Ha, Hb.
  cbn [broadcast_shapes]. unfold broadcast_dim. rewrite Nat.eqb_refl. f_equal.
  apply eq_true_iff_eq. rewrite !forallb_forall.
  split; intros Hall idx Hin; specialize (Hall idx Hin);
    apply indices_cubic in Hin as (i & j & k & l & -> & Hi & Hj & Hk & Hl);
    by rewrite bcast_index_cubic in *.
Qed.

Lemma einsum_rank {A : Type} (subscripts : string) (t : ndarray A) :
  length (nd_shape t)
  = length (input_labels (list_ascii_of_string subscripts)) ->
  einsum subscripts t
  = Ok (NdArray
          (map (fun c =>
                  nth (label_index c
                         (input_labels (list_ascii_of_string subscripts)))
                    (nd_shape t) 0)
             (output_labels (list_ascii_of_string subscripts)))
          (fun idx =>
             nd_at t
               (map (fun c =>
                       nth (label_index c
                              (output_labels (list_ascii_of_string subscripts)))
                         idx 0)
                  (input_labels (list_ascii_of_string subscripts))))).
Proof. intros Hlen. unfold einsum. by rewrite Hlen, Nat.ltb_irrefl. Qed.

Lemma _check_two_body_symmetry_cubic {A : Type} (isclose : A -> A -> bool)
    (f : list nat -> A) (n test_number : nat) (subscripts : string) :
  CHEM_INDEX_PERMUTATIONS !! test_number = Some subscripts ->
  _check_two_body_symmetry isclose (NdArray [n; n; n; n] f) test_number
  = Ok (forallb
          (fun idx =>
             isclose (f idx)
               (f (map (fun c =>
                          nth (label_index c
                                 (output_labels
                                    (list_ascii_of_string subscripts)))
                            idx 0)
                     (input_labels (list_ascii_of_string subscripts)))))
          (indices [n; n; n; n])).
Proof.
  intros Hsub. unfold _check_two_body_symmetry, getitem. rewrite Hsub.
  cbn [bind].
  destruct test_number as [|[|[|[|[|[|[|k]]]]]]]; try done;
    injection Hsub as <-;
    rewrite einsum_rank by reflexivity; cbn [bind];
    by rewrite (allclose_cubic isclose _ _ n) by reflexivity.
Qed.

Lemma chemist_symmetric_all {A : Type} (t : ndarray A) :
  chemist_symmetric t ->
  forall a b c d,
    nd_at t [b; a; c; d] = nd_at t [a; b; c; d]
    /\ nd_at t [a; b; d; c] = nd_at t [a; b; c; d]
    /\ nd_at t [b; a; d; c] = nd_at t [a; b; c; d]
    /\ nd_at t [c; d; a; b] = nd_at t [a; b; c; d]
    /\ nd_at t [d; c; a; b] = nd_at t [a; b; c; d]
    /\ nd_at t [c; d; b; a] = nd_at t [a; b; c; d]
    /\ nd_at t [d; c; b; a] = nd_at t [a; b; c; d].
Proof.
  intros Hsym a b c d.
  destruct (Hsym a b c d) as (H1 & H2 & H3), (Hsym a b d c) as (H4 & H5 & H6),
    (Hsym b a c d) as (H7 & H8 & H9), (Hsym b a d c) as (H10 & H11 & H12).
  repeat split; congruence.
Qed.

Lemma _check_two_body_symmetries_exact {A : Type} (isclose : A -> A -> bool)
    (f : list nat -> A) (n : nat) :
  (forall a, isclose a a = true) ->
  chemist_symmetric (NdArray [n; n; n; n] f) ->
  _check_two_body_symmetries isclose (NdArray [n; n; n; n] f) true = Ok true.
Proof.
  intros Hrefl Hsym. pose proof (chemist_symmetric_all _ Hsym) as Hall.
  cbn [nd_at] in Hall.
  assert (Hpass : forall test_number subscripts,
             CHEM_INDEX_PERMUTATIONS !! test_number = Some subscripts ->
             _check_two_body_symmetry isclose (NdArray [n; n; n; n] f)
               test_number = Ok true).
  { intros test_number subscripts Hsub.
    rewrite (_check_two_body_symmetry_cubic isclose f n _ _ Hsub). f_equal.
    apply forallb_forall. intros idx Hin.
    apply indices_cubic in Hin as (a & b & c & d & -> & _).
    destruct (Hall a b c d) as (H1 & H2 & H3 & H4 & H5 & H6 & H7).
    destruct test_number as [|[|[|[|[|[|[|k]]]]]]]; try done;
      injection Hsub as <-;
      cbn [list_ascii_of_string input_labels output_labels Ascii.eqb Bool.eqb
           andb map label_index nth];
      by rewrite ?H1, ?H2, ?H3, ?H4, ?H5, ?H6, ?H7. }
  unfold _check_two_body_symmetries. cbn [negb bind].
  unfold CHEM_INDEX_PERMUTATIONS at 1. cbn [length seq check_from].
  by rewrite (Hpass 0 _ eq_refl), (Hpass 1 _ eq_refl), (Hpass 2 _ eq_refl),
    (Hpass 3 _ eq_refl), (Hpass 4 _ eq_refl), (Hpass 5 _ eq_refl),
    (Hpass 6 _ eq_refl).
Qed.

Lemma _check_two_body_symmetries_cubic {A : Type} (isclose : A -> A -> bool)
    (f : list nat -> A) (n : nat) :
  exists passed,
    _check_two_body_symmetries isclose (NdArray [n; n; n; n] f) true
    = Ok passed.
Proof.
  unfold _check_two_body_symmetries. cbn [negb bind].
  unfold CHEM_INDEX_PERMUTATIONS at 1. cbn [length seq check_from].
  rewrite (_check_two_body_symmetry_cubic isclose f n 0 _ eq_refl),
    (_check_two_body_symmetry_cubic isclose f n 1 _ eq_refl),
    (_check_two_body_symmetry_cubic isclose f n 2 _ eq_refl),
    (_check_two_body_symmetry_cubic isclose f n 3 _ eq_refl),
    (_check_two_body_symmetry_cubic isclose f n 4 _ eq_refl),
    (_check_two_body_symmetry_cubic isclose f n 5 _ eq_refl),
    (_check_two_body_symmetry_cubic isclose f n 6 _ eq_refl).
  cbn [bind].
  repeat (destruct (forallb _ _); cbn [negb]; [|by eexists]).
  by eexists.
Qed.

(** X23. The detector undoes the converters. Let [t] be an [n x n x n x n]
    array with the symmetries of chemists' order, exactly, and let the
    comparison of entries accept equal entries. Then [find_index_order]
    answers [chemist] on [t]; on [chem_to_phys t] it answers [physicist],
    unless that array passes the chemists' tests itself, and then it
    answers [chemist]; on [phys_to_chem t] it answers [intermediate],
    unless one of the two earlier tests passes. It never fails and never
    answers [unknown] on these arrays. *)
Theorem find_index_order_converted {A : Type} (isclose : A -> A -> bool)
    (t : ndarray A) (n : nat) :
  (forall a, isclose a a = true) ->
  nd_shape t = [n; n; n; n] ->
  chemist_symmetric t ->
  find_index_order isclose t = Ok "chemist"%string
  /\ (exists u passed,
        chem_to_phys t = Ok u
        /\ _check_two_body_symmetries isclose u true = Ok passed
        /\ find_index_order isclose u
           = Ok (if passed then "chemist" else "physicist")%string)
  /\ (exists v w passed_v passed_w,
        phys_to_chem t = Ok v
        /\ phys_to_chem v = Ok w
        /\ _check_two_body_symmetries isclose v true = Ok passed_v
        /\ _check_two_body_symmetries isclose w true = Ok passed_w
        /\ find_index_order isclose v
           = Ok (if passed_v then "chemist"
                 else if passed_w then "physicist" else "intermediate")%string).
Proof.
  intros Hrefl Hshape Hsym. destruct t as [sh f]. cbn [nd_shape] in Hshape.
  subst sh.
  pose proof (_check_two_body_symmetries_exact isclose f n Hrefl Hsym) as Ht.
  pose (h := fun (x : list nat -> A) (idx : list nat) =>
               x (map (fun c =>
                         nth (label_index c
                                (output_labels
                                   (list_ascii_of_string "ijkl->iljk")))
                           idx 0)
                    (input_labels (list_ascii_of_string "ijkl->iljk")))).
  pose (g := fun (x : list nat -> A) (idx : list nat) =>
               x (map (fun c =>
                         nth (label_index c
                                (output_labels
                                   (list_ascii_of_string "ijkl->iklj")))
                           idx 0)
                    (input_labels (list_ascii_of_string "ijkl->iklj")))).
  assert (Hh : forall x, phys_to_chem (NdArray [n; n; n; n] x)
                         = Ok (NdArray [n; n; n; n] (h x))) by reflexivity.
  assert (Hg : forall x, chem_to_phys (NdArray [n; n; n; n] x)
                         = Ok (NdArray [n; n; n; n] (g x))) by reflexivity.
  split; [|split].
  - unfold find_index_order. by rewrite Ht.
  - destruct (_check_two_body_symmetries_cubic isclose (g f) n)
      as [passed Hu].
    exists (NdArray [n; n; n; n] (g f)), passed.
    split; [apply Hg|]. split; [exact Hu|].
    unfold find_index_order. rewrite Hu. cbn [bind].
    destruct passed; [done|]. rewrite Hh. cbn [bind].
    by rewrite (_check_two_body_symmetries_exact isclose (h (g f)) n Hrefl Hsym).
  - destruct (_check_two_body_symmetries_cubic isclose (h f) n)
      as [passed_v Hv].
    destruct (_check_two_body_symmetries_cubic isclose (h (h f)) n)
      as [passed_w Hw].
    exists (NdArray [n; n; n; n] (h f)), (NdArray [n; n; n; n] (h (h f))),
      passed_v, passed_w.
    split; [apply Hh|]. split; [apply Hh|].
    split; [exact Hv|]. split; [exact Hw|].
    unfold find_index_order. rewrite Hv. cbn [bind].
    destruct passed_v; [done|]. rewrite Hh. cbn [bind].
    rewrite Hw. cbn [bind]. destruct passed_w; [done|]. rewrite Hh.
    cbn [bind].
    by rewrite (_check_two_body_symmetries_exact isclose (h (h (h f))) n Hrefl
                  Hsym).
Qed.

Lemma find_index_order_converted_witness :
  find_index_order Nat.eqb
    (NdArray [2; 2; 2; 2]
       (fun idx => nth 0 idx 0 * nth 1 idx 0 + nth 2 idx 0 * nth 3 idx 0))
  = Ok "chemist"%string
  /\ exists u,
       chem_to_phys
         (NdArray [2; 2; 2; 2]
            (fun idx => nth 0 idx 0 * nth 1 idx 0 + nth 2 idx 0 * nth 3 idx 0))
       = Ok u
       /\ find_index_order Nat.eqb u = Ok "physicist"%string.
Proof.
  destruct (find_index_order_converted Nat.eqb
              (NdArray [2; 2; 2; 2]
                 (fun idx =>
                    nth 0 idx 0 * nth 1 idx 0 + nth 2 idx 0 * nth 3 idx 0))
              2 Nat.eqb_refl eq_refl)
    as (Hchem & (u & passed & Hu & Hpassed & Hphys) & _).
  { intros p q r s. simpl. lia. }
  split; [exact Hchem|]. exists u. split; [exact Hu|].
  apply Ok_inj in Hu as <-. vm_compute in Hpassed.
  apply Ok_inj in Hpassed as <-. exact Hphys.
Defined.
